(** * Maze Runner: generator, solver and game state of [maze_game.py]

    A shallow embedding of the classes [Maze] and [MazeGame] and the
    properties of the maze generator (randomised depth-first carving),
    of the breadth-first solver and of the keyboard-driven game state. *)

From Stdlib Require Import ZArith Lia.
From stdpp Require Import base decidable option list gmap strings.

Local Open Scope Z_scope.

(** ** Outcomes of Python code

    A call returns, raises, or (for the [while] loops, which are run with an
    iteration budget) exhausts its budget. *)

Inductive exn := IndexError | KeyError | StopIteration.

Inductive result (A : Type) : Type :=
  | Ok (a : A)
  | Raise (e : exn)
  | OutOfFuel.
Arguments Ok {A} a.
Arguments Raise {A} e.
Arguments OutOfFuel {A}.

#[global] Instance result_ret : MRet result := fun A a => Ok a.
#[global] Instance result_bind : MBind result := fun A B f c =>
  match c with
  | Ok a => f a
  | Raise e => Raise e
  | OutOfFuel => OutOfFuel
  end.

(** ** Python lists: [l[i]] and [l[i] = v]

    A negative index counts from the end; an index outside
    [-len(l) .. len(l)-1] raises [IndexError]. *)

Definition py_index {A} (l : list A) (i : Z) : result nat :=
  let n := Z.of_nat (length l) in
  if decide (0 <= i < n) then Ok (Z.to_nat i)
  else if decide (- n <= i < 0) then Ok (Z.to_nat (n + i))
  else Raise IndexError.

Definition py_getitem {A} (l : list A) (i : Z) : result A :=
  k ← py_index l i;
  match l !! k with
  | Some a => Ok a
  | None => Raise IndexError
  end.

Definition py_setitem {A} (l : list A) (i : Z) (v : A) : result (list A) :=
  k ← py_index l i; Ok (<[k:=v]> l).

(** ** Cells and grids *)

Definition cell : Type := Z * Z.

(** [grid[y][x]]: the row is selected first. 0 is a passage, 1 a wall. *)
Definition grid_get (g : list (list Z)) (x y : Z) : result Z :=
  row ← py_getitem g y; py_getitem row x.

(** [grid[y][x] = v] *)
Definition grid_set (g : list (list Z)) (x y : Z) (v : Z) : result (list (list Z)) :=
  row ← py_getitem g y;
  row' ← py_setitem row x v;
  py_setitem g y row'.

Record Maze := mkMaze {
  width : Z;
  height : Z;
  grid : list (list Z)
}.

Definition with_grid (m : Maze) (g : list (list Z)) : Maze :=
  {| width := width m; height := height m; grid := g |}.

(** ** The random module

    The generator state of Python's module [random] is a stream of raw
    draws and a cursor into it; [randbelow n] reduces the next draw
    modulo [n].  Seeding the module fixes the stream. *)

Record Random := mkRandom {
  draws : nat -> Z;
  cursor : nat
}.

Definition randbelow (n : Z) (r : Random) : Z * Random :=
  (draws r (cursor r) `mod` n,
   {| draws := draws r; cursor := S (cursor r) |}).

(** [x[i], x[j] = x[j], x[i]] *)
Definition swap {A} (x : list A) (i j : nat) : list A :=
  match x !! i, x !! j with
  | Some a, Some b => <[j:=a]> (<[i:=b]> x)
  | _, _ => x
  end.

(** [random.shuffle(x)]:
    [for i in reversed(range(1, len(x))): j = randbelow(i + 1); swap]. *)
Fixpoint shuffle_from {A} (i : nat) (x : list A) (r : Random) : list A * Random :=
  match i with
  | O => (x, r)
  | S i' =>
      let '(j, r') := randbelow (Z.of_nat i + 1) r in
      shuffle_from i' (swap x i (Z.to_nat j)) r'
  end.

Definition shuffle {A} (x : list A) (r : Random) : list A * Random :=
  shuffle_from (length x - 1)%nat x r.

(** ** Maze.__init__ and Maze._generate *)

Definition odd_round (n : Z) : Z := if decide (n `mod` 2 = 0) then n + 1 else n.

(** Lines 53-60: the fields before [_generate] runs. *)
Definition Maze_alloc (w h : Z) : Maze :=
  let w' := odd_round w in
  let h' := odd_round h in
  {| width := w'; height := h';
     grid := replicate (Z.to_nat h') (replicate (Z.to_nat w') 1) |}.

Definition directions0 : list (Z * Z) := [(0, -2); (0, 2); (2, 0); (-2, 0)].

(** The [for dx, dy in directions] loop of one iteration: the first
    direction whose target is inside the border and still a wall is
    carved; [None] when the loop ends with [carved = False]. *)
Fixpoint carve_first (m : Maze) (x y : Z) (dirs : list (Z * Z))
  : result (option (Maze * cell)) :=
  match dirs with
  | [] => Ok None
  | (dx, dy) :: rest =>
      let nx := x + dx in
      let ny := y + dy in
      if decide (1 <= nx < width m - 1 /\ 1 <= ny < height m - 1) then
        v ← grid_get (grid m) nx ny;
        if decide (v = 1) then
          g1 ← grid_set (grid m) nx ny 0;
          g2 ← grid_set g1 (x + dx `div` 2) (y + dy `div` 2) 0;
          Ok (Some (with_grid m g2, (nx, ny)))
        else carve_first m x y rest
      else carve_first m x y rest
  end.

(** The [while stack] loop.  The stack is kept with its top ([stack[-1]])
    at the head of the list.  [directions] is shuffled in place, so the
    shuffled list is carried to the next iteration. *)
Fixpoint generate_loop (fuel : nat) (m : Maze) (stack : list cell)
    (dirs : list (Z * Z)) (r : Random) : result (Maze * Random) :=
  match fuel with
  | O => OutOfFuel
  | S fuel' =>
      match stack with
      | [] => Ok (m, r)
      | (x, y) :: below =>
          let '(dirs', r') := shuffle dirs r in
          c ← carve_first m x y dirs';
          match c with
          | Some (m', n) => generate_loop fuel' m' (n :: stack) dirs' r'
          | None => generate_loop fuel' m below dirs' r'
          end
      end
  end.

(** Iteration budget of the generator: each iteration either carves a wall
    cell or pops the stack. *)
Definition generate_fuel (m : Maze) : nat :=
  S (2 * Z.to_nat (width m * height m)).

Definition _generate (m : Maze) (r : Random) : result (Maze * Random) :=
  g ← grid_set (grid m) 1 1 0;
  generate_loop (generate_fuel m) (with_grid m g) [(1, 1)] directions0 r.

Definition Maze_init (w h : Z) (r : Random) : result (Maze * Random) :=
  _generate (Maze_alloc w h) r.



(** ** Maze.neighbors, Maze.solve and Maze.reconstruct_path *)

Definition neighbor_offsets : list (Z * Z) := [(0, -1); (0, 1); (1, 0); (-1, 0)].

(** The generator [neighbors]: the cells it yields, in order. *)
Fixpoint neighbors_from (m : Maze) (x y : Z) (offs : list (Z * Z))
  : result (list cell) :=
  match offs with
  | [] => Ok []
  | (dx, dy) :: rest =>
      let nx := x + dx in
      let ny := y + dy in
      if decide (0 <= nx < width m /\ 0 <= ny < height m) then
        v ← grid_get (grid m) nx ny;
        tl ← neighbors_from m x y rest;
        Ok (if decide (v = 0) then (nx, ny) :: tl else tl)
      else neighbors_from m x y rest
  end.

Definition neighbors (m : Maze) (x y : Z) : result (list cell) :=
  neighbors_from m x y neighbor_offsets.

(** The [for neighbor in self.neighbors(...)] loop of [solve]: a
    neighbour that is not yet a key gets [current] as its predecessor and
    joins the right end of the queue. *)
Fixpoint discover (current : cell) (ns : list cell) (queue : list cell)
    (preds : gmap cell (option cell)) : list cell * gmap cell (option cell) :=
  match ns with
  | [] => (queue, preds)
  | n :: rest =>
      if decide (preds !! n = None)
      then discover current rest (queue ++ [n]) (<[n := Some current]> preds)
      else discover current rest queue preds
  end.

(** The [while queue] loop of [solve]; [popleft] takes the head. *)
Fixpoint solve_loop (fuel : nat) (m : Maze) (goal : cell) (queue : list cell)
    (preds : gmap cell (option cell)) : result (gmap cell (option cell)) :=
  match fuel with
  | O => OutOfFuel
  | S fuel' =>
      match queue with
      | [] => Ok preds
      | current :: rest =>
          if decide (current = goal) then Ok preds
          else
            ns ← neighbors m current.1 current.2;
            let '(queue', preds') := discover current ns rest preds in
            solve_loop fuel' m goal queue' preds'
      end
  end.

(** Iteration budget of the search: every iteration dequeues one cell and
    a cell is enqueued at most once. *)
Definition solve_fuel (m : Maze) : nat :=
  S (S (2 * Z.to_nat (width m * height m))).

(** [return predecessors if goal in predecessors else {}] *)
Definition solve (m : Maze) (start goal : cell) : result (gmap cell (option cell)) :=
  preds ← solve_loop (solve_fuel m) m goal [start] {[start := None]};
  Ok (if decide (is_Some (preds !! goal)) then preds else ∅).

(** The same search with lines 109-110 (the [break] on dequeuing the goal)
    removed; only used to compare with [solve]. *)
Fixpoint solve_loop_no_exit (fuel : nat) (m : Maze) (queue : list cell)
    (preds : gmap cell (option cell)) : result (gmap cell (option cell)) :=
  match fuel with
  | O => OutOfFuel
  | S fuel' =>
      match queue with
      | [] => Ok preds
      | current :: rest =>
          ns ← neighbors m current.1 current.2;
          let '(queue', preds') := discover current ns rest preds in
          solve_loop_no_exit fuel' m queue' preds'
      end
  end.

Definition solve_no_exit (m : Maze) (start goal : cell)
  : result (gmap cell (option cell)) :=
  preds ← solve_loop_no_exit (solve_fuel m) m [start] {[start := None]};
  Ok (if decide (is_Some (preds !! goal)) then preds else ∅).

(** The [while current is not None] loop: [path.append(current)], then
    [current = predecessors[current]], which raises [KeyError] on a
    missing key.  The budget counts the lookups that succeed and is looked
    at only after one did: a chain without a cycle makes no more of them
    than the map has keys, and on a chain with a cycle the loop of the
    source does not end. *)
Fixpoint reconstruct_loop (fuel : nat) (preds : gmap cell (option cell))
    (current : option cell) (path : list cell) {struct fuel}
  : result (list cell) :=
  match current with
  | None => Ok (reverse path)
  | Some c =>
      match preds !! c with
      | None => Raise KeyError
      | Some p =>
          match fuel with
          | O => OutOfFuel
          | S fuel' => reconstruct_loop fuel' preds p (path ++ [c])
          end
      end
  end.

Definition reconstruct_path (preds : gmap cell (option cell)) (goal : cell)
  : result (list cell) :=
  reconstruct_loop (size preds) preds (Some goal) [].

(** ** MazeGame *)

Record MazeGame := mkMazeGame {
  maze : Maze;
  player_pos : cell;
  goal_pos : cell;
  show_solution : bool;
  solution_path : list cell
}.

(** Calls made while a key is handled, in order. *)
Inductive call :=
  | CallMaze (w h : Z)
  | CallSolve (start goal : cell)
  | CallReconstruct (goal : cell)
  | CallShowWin.

(** [preds = self.maze.solve(player, goal)] followed by
    [self.maze.reconstruct_path(preds, goal) if preds else []]. *)
Definition compute_solution (m : Maze) (player goal : cell)
  : result (list cell * list call) :=
  preds ← solve m player goal;
  if decide (preds = ∅) then Ok ([], [CallSolve player goal])
  else
    path ← reconstruct_path preds goal;
    Ok (path, [CallSolve player goal; CallReconstruct goal]).

(** [MazeGame.__init__] *)
Definition MazeGame_init (w h : Z) (r : Random)
  : result (MazeGame * Random * list call) :=
  '(m, r') ← Maze_init w h r;
  let player := (1, 1) in
  let goal := (width m - 2, height m - 2) in
  '(path, calls) ← compute_solution m player goal;
  Ok ({| maze := m; player_pos := player; goal_pos := goal;
         show_solution := false; solution_path := path |},
      r', CallMaze w h :: calls).

(** The branch of the key [n], the same in [handle_input] and in
    [handle_win_input]. *)
Definition new_maze (g : MazeGame) (r : Random)
  : result (MazeGame * Random * list call) :=
  '(m, r') ← Maze_init (width (maze g)) (height (maze g)) r;
  let player := (1, 1) in
  let goal := (width m - 2, height m - 2) in
  '(path, calls) ← compute_solution m player goal;
  Ok ({| maze := m; player_pos := player; goal_pos := goal;
         show_solution := false; solution_path := path |},
      r', CallMaze (width (maze g)) (height (maze g)) :: calls).

Definition KEY_DOWN : Z := 258.
Definition KEY_UP : Z := 259.
Definition KEY_LEFT : Z := 260.
Definition KEY_RIGHT : Z := 261.
Definition ord_q : Z := 113.
Definition ord_Q : Z := 81.
Definition ord_s : Z := 115.
Definition ord_S : Z := 83.
Definition ord_n : Z := 110.
Definition ord_N : Z := 78.

Definition keymap (key : Z) : option (Z * Z) :=
  if decide (key = KEY_UP) then Some (0, -1)
  else if decide (key = KEY_DOWN) then Some (0, 1)
  else if decide (key = KEY_LEFT) then Some (-1, 0)
  else if decide (key = KEY_RIGHT) then Some (1, 0)
  else None.

(** Where control waits for the next key: in [handle_input] called from
    the loop of [main] ([Playing]), in [handle_win_input] ([Won]), or
    nowhere because the program has left the loop ([Quit]). *)
Inductive phase := Playing | Won | Quit.

Record outcome := mkOutcome {
  game : MazeGame;
  rng : Random;
  next : phase;
  calls : list call
}.

(** Lines 216-220: the win check that ends [handle_input]. *)
Definition check_win (g : MazeGame) (r : Random) (cs : list call) : outcome :=
  if decide (player_pos g = goal_pos g)
  then {| game := g; rng := r; next := Won; calls := cs ++ [CallShowWin] |}
  else {| game := g; rng := r; next := Playing; calls := cs |}.

(** [handle_input] for the key returned by [getch], up to the point where
    control waits for the next key. *)
Definition handle_input (g : MazeGame) (key : Z) (r : Random) : result outcome :=
  match keymap key with
  | Some (dx, dy) =>
      let new_x := (player_pos g).1 + dx in
      let new_y := (player_pos g).2 + dy in
      v ← grid_get (grid (maze g)) new_x new_y;
      if decide (v = 0) then
        '(path, cs) ← compute_solution (maze g) (new_x, new_y) (goal_pos g);
        Ok (check_win {| maze := maze g; player_pos := (new_x, new_y);
                         goal_pos := goal_pos g;
                         show_solution := show_solution g;
                         solution_path := path |} r cs)
      else Ok (check_win g r [])
  | None =>
      if decide (key = ord_q \/ key = ord_Q) then
        Ok {| game := g; rng := r; next := Quit; calls := [] |}
      else if decide (key = ord_s \/ key = ord_S) then
        Ok (check_win {| maze := maze g; player_pos := player_pos g;
                         goal_pos := goal_pos g;
                         show_solution := negb (show_solution g);
                         solution_path := solution_path g |} r [])
      else if decide (key = ord_n \/ key = ord_N) then
        '(g', r', cs) ← new_maze g r;
        Ok (check_win g' r' cs)
      else Ok (check_win g r [])
  end.

(** One key inside the loop of [handle_win_input]. *)
Definition handle_win_input (g : MazeGame) (key : Z) (r : Random) : result outcome :=
  if decide (key = ord_q \/ key = ord_Q) then Raise StopIteration
  else if decide (key = ord_n \/ key = ord_N) then
    '(g', r', cs) ← new_maze g r;
    Ok {| game := g'; rng := r'; next := Playing; calls := cs |}
  else Ok {| game := g; rng := r; next := Won; calls := [] |}.

(** One key of the program: [main] catches the [StopIteration] of the win
    loop and ends. *)
Definition key_step (ph : phase) (g : MazeGame) (key : Z) (r : Random)
  : result outcome :=
  match ph with
  | Playing => handle_input g key r
  | Won =>
      match handle_win_input g key r with
      | Raise StopIteration =>
          Ok {| game := g; rng := r; next := Quit; calls := [] |}
      | o => o
      end
  | Quit => Ok {| game := g; rng := r; next := Quit; calls := [] |}
  end.

(** ** Vocabulary of the properties *)

(** A grid of [h] rows of [w] cells, as [Maze.__init__] allocates it. *)
Definition wf_grid (w h : Z) (g : list (list Z)) : Prop :=
  length g = Z.to_nat h /\ Forall (fun row => length row = Z.to_nat w) g.

Definition wf_maze (m : Maze) : Prop := wf_grid (width m) (height m) (grid m).

Definition in_grid (m : Maze) (c : cell) : Prop :=
  0 <= c.1 < width m /\ 0 <= c.2 < height m.

#[global] Instance in_grid_dec m c : Decision (in_grid m c).
Proof. unfold in_grid. apply _. Defined.

(** The cell stored at column [x] of row [y], for non-negative indices. *)
Definition cell_at (g : list (list Z)) (x y : Z) : option Z :=
  row ← g !! Z.to_nat y; row !! Z.to_nat x.

(** A passage is a cell of the grid that holds 0. *)
Definition passage (m : Maze) (c : cell) : Prop :=
  in_grid m c /\ cell_at (grid m) c.1 c.2 = Some 0.

#[global] Instance passage_dec m c : Decision (passage m c).
Proof. unfold passage. apply _. Defined.

(** A wall is a cell of the grid that holds 1. *)
Definition wall (m : Maze) (c : cell) : Prop :=
  in_grid m c /\ cell_at (grid m) c.1 c.2 = Some 1.

(** Cells strictly inside the outer border. *)
Definition interior (m : Maze) (c : cell) : Prop :=
  1 <= c.1 <= width m - 2 /\ 1 <= c.2 <= height m - 2.

Definition on_border (m : Maze) (c : cell) : Prop :=
  in_grid m c /\
  (c.1 = 0 \/ c.1 = width m - 1 \/ c.2 = 0 \/ c.2 = height m - 1).

(** 4-directional adjacency. *)
Definition adj4 (a b : cell) : Prop :=
  Z.abs (a.1 - b.1) + Z.abs (a.2 - b.2) = 1.

#[global] Instance adj4_dec a b : Decision (adj4 a b).
Proof. unfold adj4. apply _. Defined.

(** One move of the search: from [u] to a cell that [neighbors] yields. *)
Definition step (m : Maze) (u v : cell) : Prop := adj4 u v /\ passage m v.

(** Consecutive elements of a list are related. *)
Fixpoint chain (R : cell -> cell -> Prop) (l : list cell) : Prop :=
  match l with
  | a :: l' =>
      match l' with
      | b :: _ => R a b /\ chain R l'
      | [] => True
      end
  | [] => True
  end.

(** A path from [a] to [b] through cells of [P], moving between
    4-adjacent cells; it is simple when no cell repeats. *)
Definition path (P : cell -> Prop) (a b : cell) (p : list cell) : Prop :=
  head p = Some a /\ last p = Some b /\ Forall P p /\ chain adj4 p.

Definition simple_path (P : cell -> Prop) (a b : cell) (p : list cell) : Prop :=
  path P a b p /\ NoDup p.

Definition unique_paths (P : cell -> Prop) : Prop :=
  forall a b, P a -> P b ->
    exists p, simple_path P a b p /\ forall q, simple_path P a b q -> q = p.

(** All cells of a [w] by [h] grid, and all pairs of 4-adjacent positions
    (each pair once: a cell with its right and its lower neighbour). *)
Definition all_cells (w h : Z) : list cell :=
  y ← seqZ 0 h; x ← seqZ 0 w; [(x, y)].

Definition all_links (w h : Z) : list (cell * cell) :=
  c ← all_cells w h; [(c, (c.1 + 1, c.2)); (c, (c.1, c.2 + 1))].

Definition count_cells (P : cell -> Prop) `{!forall c, Decision (P c)}
    (w h : Z) : nat :=
  length (filter P (all_cells w h)).

Definition count_links (P : cell -> Prop) `{!forall c, Decision (P c)}
    (w h : Z) : nat :=
  length (filter (fun e : cell * cell => P e.1 /\ P e.2) (all_links w h)).

(** The passage cells of a maze and its pairs of adjacent passage cells. *)
Definition passage_cells (m : Maze) : list cell :=
  filter (passage m) (all_cells (width m) (height m)).

Definition passage_links (m : Maze) : list (cell * cell) :=
  filter (fun e : cell * cell => passage m e.1 /\ passage m e.2)
         (all_links (width m) (height m)).

(** [k] is the least number of moves from [a] to [b]. *)
Definition shortest_distance (m : Maze) (a b : cell) (k : nat) : Prop :=
  nsteps (step m) k a b /\ forall k', nsteps (step m) k' a b -> (k <= k')%nat.

Definition reachable (m : Maze) (a b : cell) : Prop := rtc (step m) a b.

(** [P] extended with the cell [v]. *)
Definition with_leaf (P : cell -> Prop) (v c : cell) : Prop := P c \/ c = v.

#[global] Instance with_leaf_dec P `{!forall c, Decision (P c)} v c :
  Decision (with_leaf P v c).
Proof. unfold with_leaf. apply _. Defined.

(** ** Invariant of the generator loop

    Rooms are the cells with two odd coordinates; the other passages are
    the doors carved between two rooms. *)
Definition is_room (c : cell) : Prop := c.1 `mod` 2 = 1 /\ c.2 `mod` 2 = 1.

#[global] Instance is_room_dec c : Decision (is_room c).
Proof. unfold is_room. apply _. Defined.

Definition room (m : Maze) (c : cell) : Prop := passage m c /\ is_room c.
Definition door (m : Maze) (c : cell) : Prop := passage m c /\ ~ is_room c.

#[global] Instance room_dec m c : Decision (room m c).
Proof. unfold room. apply _. Defined.

#[global] Instance door_dec m c : Decision (door m c).
Proof. unfold door. apply _. Defined.

(** The rooms of a maze and its doors (the carved midpoints). *)
Definition room_cells (m : Maze) : list cell :=
  filter (room m) (all_cells (width m) (height m)).

Definition door_cells (m : Maze) : list cell :=
  filter (door m) (all_cells (width m) (height m)).

Record gen_inv (m : Maze) : Prop := mkGenInv {
  gi_wf : wf_maze m;
  gi_dims : 3 <= width m /\ 3 <= height m;
  gi_bits : forall x y v, 0 <= x -> 0 <= y ->
      cell_at (grid m) x y = Some v -> v = 0 \/ v = 1;
  gi_interior : forall c, passage m c -> interior m c;
  gi_parity : forall c, passage m c -> c.1 `mod` 2 = 1 \/ c.2 `mod` 2 = 1;
  gi_door_h : forall x y, passage m (x, y) -> x `mod` 2 = 0 ->
      passage m (x - 1, y) /\ passage m (x + 1, y);
  gi_door_v : forall x y, passage m (x, y) -> y `mod` 2 = 0 ->
      passage m (x, y - 1) /\ passage m (x, y + 1);
  gi_start : passage m (1, 1);
  gi_tree : unique_paths (passage m);
  gi_count : count_cells (passage m) (width m) (height m) =
             S (count_links (passage m) (width m) (height m));
  gi_rooms : count_cells (room m) (width m) (height m) =
             S (count_cells (door m) (width m) (height m))
}.

Definition stack_ok (m : Maze) (stack : list cell) : Prop :=
  Forall (fun c => passage m c /\ is_room c) stack.

(** The grid [m'] is [m] after carving from [(x, y)] in direction
    [(dx, dy)]: the target and the midpoint are set to 0. *)
Definition carved (m m' : Maze) (x y dx dy : Z) : Prop :=
  width m' = width m /\ height m' = height m /\ wf_maze m' /\
  forall x' y', 0 <= x' -> 0 <= y' ->
    cell_at (grid m') x' y' =
      if decide (x' = x + dx `div` 2 /\ y' = y + dy `div` 2) then Some 0
      else if decide (x' = x + dx /\ y' = y + dy) then Some 0
      else cell_at (grid m) x' y'.

(** ** Randomness *)





(** A sample seeded generator. *)
Definition seed0 : Random :=
  {| draws := fun n => Z.of_nat (n * n + 3 * n); cursor := 0 |}.



(** The rounding rule in the words of the specification: an even request
    is incremented by one, an odd one is kept. *)
Definition rounded_up_to_odd (n : Z) : Z := if Z.even n then n + 1 else n.

(** ** Invariant of the search loop

    [dm] records, for every key of the predecessor map, the length of its
    predecessor chain. *)
Record search_tree (m : Maze) (start : cell)
    (P : gmap cell (option cell)) (dm : gmap cell nat) : Prop := mkSearchTree {
  st_start_P : P !! start = Some None;
  st_start_d : dm !! start = Some 0%nat;
  st_dom : forall c, is_Some (P !! c) <-> is_Some (dm !! c);
  st_root : forall v, P !! v = Some None -> v = start;
  st_pred : forall v u, P !! v = Some (Some u) ->
      step m u v /\ exists d, dm !! u = Some d /\ dm !! v = Some (S d);
  st_size : forall v d, dm !! v = Some d -> (d < size P)%nat
}.

(** The queue holds cells of depth [d0] followed by cells of depth
    [d0 + 1]; every cell that has left the queue has all its neighbours
    discovered, except the pairs in [pend]. *)
Record bfs_inv (m : Maze) (start : cell) (pend : cell -> cell -> Prop)
    (Q : list cell) (P : gmap cell (option cell)) (dm : gmap cell nat)
    (d0 : nat) : Prop := mkBfsInv {
  bi_tree : search_tree m start P dm;
  bi_queue : exists Qa Qb, Q = Qa ++ Qb /\
      Forall (fun q => dm !! q = Some d0) Qa /\
      Forall (fun q => dm !! q = Some (S d0)) Qb;
  bi_depth : forall v d, dm !! v = Some d -> (d <= S d0)%nat;
  bi_closed : forall u d, dm !! u = Some d -> u ∉ Q ->
      forall v, step m u v ->
        pend u v \/ exists d', dm !! v = Some d' /\ (d' <= S d)%nat
}.

(** Cells of the grid that are not yet keys of the predecessor map. *)
Definition unvisited (m : Maze) (P : gmap cell (option cell)) : nat :=
  length (filter (fun c => P !! c = None) (all_cells (width m) (height m))).

(** What the search has established when its loop ends. *)
Record bfs_final (m : Maze) (start goal : cell)
    (P : gmap cell (option cell)) (dm : gmap cell nat) : Prop := mkBfsFinal {
  bf_tree : search_tree m start P dm;
  bf_shortest : forall d k, dm !! goal = Some d ->
      nsteps (step m) k start goal -> (d <= k)%nat;
  bf_complete : forall k, nsteps (step m) k start goal -> is_Some (dm !! goal)
}.

#[global] Instance step_dec m u v : Decision (step m u v).
Proof. unfold step. apply _. Defined.

#[global] Instance wf_maze_dec m : Decision (wf_maze m).
Proof. unfold wf_maze, wf_grid. apply _. Defined.

(** ** Game states *)

(** The states the program of [main] can be in when it waits for a key,
    for a game created as [MazeGame(stdscr, w, h)]. *)
Inductive reachable_state (w h : Z) : phase -> MazeGame -> Random -> Prop :=
  | reach_init r g r' cs :
      MazeGame_init w h r = Ok (g, r', cs) ->
      reachable_state w h Playing g r'
  | reach_key ph g r key o :
      reachable_state w h ph g r ->
      key_step ph g key r = Ok o ->
      reachable_state w h (next o) (game o) (rng o).

Record game_inv (g : MazeGame) : Prop := mkGameInv {
  gv_wf : wf_maze (maze g);
  gv_dims : 3 <= width (maze g) /\ 3 <= height (maze g);
  gv_border : forall c, on_border (maze g) c -> wall (maze g) c;
  gv_player : passage (maze g) (player_pos g)
}.

(** The four unit moves of the arrow keys. *)
Definition unit_moves : list (Z * Z) := [(0, -1); (0, 1); (-1, 0); (1, 0)].

(** No call of [solve] or [reconstruct_path] among the calls made. *)
Definition no_recompute (cs : list call) : Prop :=
  Forall (fun c => match c with
                   | CallSolve _ _ | CallReconstruct _ => False
                   | _ => True
                   end) cs.

(** The sentence "a move into a wall changes nothing and the game stays
    in [Playing]", for every game state. *)
Definition wall_move_keeps_playing : Prop :=
  forall g key r dx dy,
    keymap key = Some (dx, dy) ->
    grid_get (grid (maze g)) ((player_pos g).1 + dx) ((player_pos g).2 + dy)
      = Ok 1 ->
    exists o, handle_input g key r = Ok o /\ game o = g /\ next o = Playing.

(** ** Sample mazes and games *)

(** A hand-built 5 by 5 maze with the single path
    (1,1) (2,1) (3,1) (3,2) (3,3). *)
Definition maze5 : Maze :=
  {| width := 5; height := 5;
     grid := [[1; 1; 1; 1; 1];
              [1; 0; 0; 0; 1];
              [1; 1; 1; 0; 1];
              [1; 1; 1; 0; 1];
              [1; 1; 1; 1; 1]] |}.

(** Two passage regions with no connection: (1,1) and (3,1). *)
Definition maze_split : Maze :=
  {| width := 5; height := 3;
     grid := [[1; 1; 1; 1; 1];
              [1; 0; 1; 0; 1];
              [1; 1; 1; 1; 1]] |}.

(** The game [MazeGame(stdscr, 3, 3)] creates: the 3 by 3 maze has the
    single passage (1,1), which is both the start and the goal. *)
Definition game3 : MazeGame :=
  {| maze := {| width := 3; height := 3;
                grid := [[1; 1; 1]; [1; 0; 1]; [1; 1; 1]] |};
     player_pos := (1, 1);
     goal_pos := (1, 1);
     show_solution := false;
     solution_path := [(1, 1)] |}.

(** A game on the hand-built maze, the player at the start. *)
Definition game5 : MazeGame :=
  {| maze := maze5;
     player_pos := (1, 1);
     goal_pos := (3, 3);
     show_solution := false;
     solution_path := [(1, 1); (2, 1); (3, 1); (3, 2); (3, 3)] |}.

(** The generator state after [MazeGame(stdscr, 3, 3)] with [seed0]: the
    single iteration of the carving loop shuffled once (three draws). *)
Definition seed0_after3 : Random := {| draws := draws seed0; cursor := 3 |}.

(** The game [MazeGame(stdscr, 5, 5)] creates with [seed0], the generator
    state after it (seven iterations of the carving loop), and the game
    after the keys right, right, down, down. *)
Definition game5_made : MazeGame :=
  {| maze := {| width := 5; height := 5;
                grid := [[1; 1; 1; 1; 1];
                         [1; 0; 0; 0; 1];
                         [1; 1; 1; 0; 1];
                         [1; 0; 0; 0; 1];
                         [1; 1; 1; 1; 1]] |};
     player_pos := (1, 1);
     goal_pos := (3, 3);
     show_solution := false;
     solution_path := [(1, 1); (2, 1); (3, 1); (3, 2); (3, 3)] |}.

Definition seed0_after5 : Random := {| draws := draws seed0; cursor := 21 |}.

Definition game5_won : MazeGame :=
  {| maze := maze game5_made;
     player_pos := (3, 3);
     goal_pos := (3, 3);
     show_solution := false;
     solution_path := [(3, 3)] |}.

(** ** MazeGame.draw

    The calls [draw] makes on the curses window, in order.  (Whether
    curses accepts a position depends on the size of the terminal, which
    is not part of the program; each call is taken to return.) *)
Inductive screen_op :=
  | Clear
  | AddCh (y x : Z) (ch : string)
  | AddStr (y x : Z) (text : string)
  | Refresh.

(** The inner loop [for x in range(self.maze.width)] of one row. *)
Fixpoint draw_row (m : Maze) (y : Z) (xs : list Z) : result (list screen_op) :=
  match xs with
  | [] => Ok []
  | x :: xs' =>
      v ← grid_get (grid m) x y;
      rest ← draw_row m y xs';
      Ok (AddCh y x (if decide (v = 1) then "█" else " ") :: rest)
  end.

(** The outer loop [for y in range(self.maze.height)]. *)
Fixpoint draw_rows (m : Maze) (ys : list Z) : result (list screen_op) :=
  match ys with
  | [] => Ok []
  | y :: ys' =>
      row ← draw_row m y (seqZ 0 (width m));
      rest ← draw_rows m ys';
      Ok (row ++ rest)
  end.

(** [for (x, y) in self.solution_path], skipping the player and the goal. *)
Fixpoint draw_path (player goal : cell) (p : list cell) : list screen_op :=
  match p with
  | [] => []
  | (x, y) :: p' =>
      if decide ((x, y) <> player /\ (x, y) <> goal)
      then AddCh y x "." :: draw_path player goal p'
      else draw_path player goal p'
  end.

Definition instructions : list string :=
  ["Use arrow keys to move";
   "Press 's' to toggle solution";
   "Press 'n' to generate new maze";
   "Press 'q' to quit"].

Definition draw_instructions (offset_y : Z) : list screen_op :=
  imap (fun idx text => AddStr (offset_y + Z.of_nat idx) 0 text) instructions.

Definition draw (g : MazeGame) : result (list screen_op) :=
  cells ← draw_rows (maze g) (seqZ 0 (height (maze g)));
  Ok ([Clear] ++ cells
      ++ (if show_solution g && bool_decide (solution_path g <> [])
          then draw_path (player_pos g) (goal_pos g) (solution_path g)
          else [])
      ++ [AddCh (player_pos g).2 (player_pos g).1 "@";
          AddCh (goal_pos g).2 (goal_pos g).1 "X"]
      ++ draw_instructions (height (maze g) + 1)
      ++ [Refresh]).

(** What a window shows at row [y], column [x] after a list of calls,
    starting from [cur]: the last character written there. *)
Fixpoint shown (ops : list screen_op) (y x : Z) (cur : option string)
  : option string :=
  match ops with
  | [] => cur
  | Clear :: ops' => shown ops' y x None
  | AddCh y' x' ch :: ops' =>
      shown ops' y x (if decide (y' = y /\ x' = x) then Some ch else cur)
  | AddStr y' x' text :: ops' =>
      shown ops' y x
        (if decide (y' = y /\ x' <= x < x' + Z.of_nat (String.length text))
         then Some (String.substring (Z.to_nat (x - x')) 1 text) else cur)
  | Refresh :: ops' => shown ops' y x cur
  end.

(** The character [draw] is meant to leave on a cell of the grid. *)
Definition glyph (g : MazeGame) (c : cell) : string :=
  if decide (c = goal_pos g) then "X"
  else if decide (c = player_pos g) then "@"
  else if decide (show_solution g = true /\ c ∈ solution_path g) then "."
  else if decide (cell_at (grid (maze g)) c.1 c.2 = Some 1) then "█"
  else " ".

(** ** Completeness of the carving

    Every room that has left the stack has all its step-2 neighbours
    inside the border carved. *)
Definition rooms_closed (m : Maze) (stack : list cell) : Prop :=
  forall x y dx dy,
    room m (x, y) -> (x, y) ∉ stack -> (dx, dy) ∈ directions0 ->
    1 <= x + dx < width m - 1 -> 1 <= y + dy < height m - 1 ->
    passage m (x + dx, y + dy).

(** The map [solve] returns on [maze5] for start (1,1) and goal (2,1). *)
Definition preds5 : gmap cell (option cell) :=
  {[ (1, 1) := None; (2, 1) := Some (1, 1) ]}.

(** ** Invariant of the game states

    The maze of a game is always a generated one of the rounded
    dimensions the game was created with; the goal is its last room and
    the cached path is a shortest path from the player to the goal. *)
Record state_inv (w h : Z) (g : MazeGame) : Prop := mkStateInv {
  sv_gen : gen_inv (maze g);
  sv_closed : rooms_closed (maze g) [];
  sv_width : width (maze g) = odd_round w;
  sv_height : height (maze g) = odd_round h;
  sv_goal : goal_pos g = (width (maze g) - 2, height (maze g) - 2);
  sv_player : passage (maze g) (player_pos g);
  sv_path : path (passage (maze g)) (player_pos g) (goal_pos g) (solution_path g);
  sv_short : shortest_distance (maze g) (player_pos g) (goal_pos g)
               (pred (length (solution_path g)))
}.

(** In [Won] the player is on the goal; in [Playing] the player is on the
    goal only in the 3 by 3 game, where start and goal coincide. *)
Definition phase_ok (ph : phase) (g : MazeGame) : Prop :=
  (ph = Won -> player_pos g = goal_pos g) /\
  (ph = Playing -> player_pos g = goal_pos g ->
     width (maze g) = 3 /\ height (maze g) = 3).

(** [b] is the predecessor that the map records for [a]. *)
Definition pred_step (preds : gmap cell (option cell)) (a b : cell) : Prop :=
  preds !! a = Some (Some b).

(** ** MazeGame._show_win_message

    [max_x] is the width of the window, the second component of
    [stdscr.getmaxyx()]. *)
Definition message_lines : list string :=
  ["Congratulations! You've completed the maze.";
   "Press 'n' for a new maze or 'q' to quit."].

Definition _show_win_message (g : MazeGame) (max_x : Z) : list screen_op :=
  [Clear]
  ++ imap (fun idx line =>
             AddStr (height (maze g) `div` 2 + Z.of_nat idx)
                    (Z.max 0 ((max_x - Z.of_nat (String.length line)) `div` 2))
                    line)
          message_lines
  ++ [Refresh].

(** ** main

    The loop of [main] over the keys that [getch] returns, one after the
    other: the game is created with the default size, and each key is
    handled by [handle_input] or, after a win, by the loop of
    [handle_win_input]; the program ends on [q].  (The calls of [draw]
    between the keys do not change the game.) *)
Fixpoint play (keys : list Z) (ph : phase) (g : MazeGame) (r : Random)
  : result (phase * MazeGame * Random) :=
  match keys with
  | [] => Ok (ph, g, r)
  | key :: keys' =>
      match ph with
      | Quit => Ok (ph, g, r)
      | _ =>
          o ← key_step ph g key r;
          play keys' (next o) (game o) (rng o)
      end
  end.

Definition main (r : Random) (keys : list Z)
  : result (phase * MazeGame * Random) :=
  '(g, r', _) ← MazeGame_init 21 21 r;
  play keys Playing g r'.

(** * Proofs *)

(** ** Sequencing of outcomes *)

Lemma bind_Ok {A B} (c : result A) (f : A -> result B) (b : B) :
  c ≫= f = Ok b -> exists a, c = Ok a /\ f a = Ok b.
Proof. destruct c; simpl; intros; try discriminate; eauto. Qed.

Lemma result_bind_Ok {A B} (a : A) (f : A -> result B) : Ok a ≫= f = f a.
Proof. reflexivity. Qed.

(** ** Reading and writing inside a well-formed grid *)

Lemma py_getitem_nonneg {A} (l : list A) (i : Z) :
  0 <= i ->
  py_getitem l i =
    match l !! Z.to_nat i with Some a => Ok a | None => Raise IndexError end.
Proof.
  intros Hi. unfold py_getitem, py_index.
  destruct (decide (0 <= i < Z.of_nat (length l))) as [Hin|Hout]; simpl; [done|].
  destruct (decide (- Z.of_nat (length l) <= i < 0)); [lia|]. simpl.
  rewrite lookup_ge_None_2; [done | lia].
Qed.

Lemma py_setitem_in {A} (l : list A) (i : Z) (v : A) :
  0 <= i < Z.of_nat (length l) ->
  py_setitem l i v = Ok (<[Z.to_nat i := v]> l).
Proof.
  intros Hi. unfold py_setitem, py_index. by rewrite decide_True.
Qed.

Lemma py_setitem_out {A} (l : list A) (i : Z) (v : A) :
  Z.of_nat (length l) <= i -> py_setitem l i v = Raise IndexError.
Proof.
  intros Hi. unfold py_setitem, py_index.
  rewrite decide_False by lia. by rewrite decide_False by lia.
Qed.

Lemma py_getitem_out {A} (l : list A) (i : Z) :
  Z.of_nat (length l) <= i -> py_getitem l i = Raise IndexError.
Proof.
  intros Hi. unfold py_getitem, py_index.
  rewrite decide_False by lia. by rewrite decide_False by lia.
Qed.

Lemma grid_get_cell_at g x y :
  0 <= x -> 0 <= y ->
  grid_get g x y =
    match cell_at g x y with Some v => Ok v | None => Raise IndexError end.
Proof.
  intros Hx Hy. unfold grid_get, cell_at.
  rewrite py_getitem_nonneg by done.
  destruct (g !! Z.to_nat y) as [row|]; simpl; [|done].
  by rewrite py_getitem_nonneg.
Qed.

Lemma wf_grid_row w h g y row :
  wf_grid w h g -> g !! y = Some row -> length row = Z.to_nat w.
Proof.
  intros [_ Hrows] Hrow. rewrite Forall_forall in Hrows.
  apply Hrows. by eapply list_elem_of_lookup_2.
Qed.

Lemma cell_at_is_Some w h g x y :
  wf_grid w h g -> 0 <= x < w -> 0 <= y < h -> is_Some (cell_at g x y).
Proof.
  intros Hwf Hx Hy. unfold cell_at.
  destruct (lookup_lt_is_Some_2 g (Z.to_nat y)) as [row Hrow].
  { destruct Hwf as [Hlen _]. lia. }
  rewrite Hrow. simpl. apply lookup_lt_is_Some_2.
  rewrite (wf_grid_row _ _ _ _ _ Hwf Hrow). lia.
Qed.

Lemma grid_get_in w h g x y :
  wf_grid w h g -> 0 <= x < w -> 0 <= y < h ->
  exists v, grid_get g x y = Ok v /\ cell_at g x y = Some v.
Proof.
  intros Hwf Hx Hy.
  destruct (cell_at_is_Some w h g x y) as [v Hv]; try done.
  exists v. rewrite grid_get_cell_at by lia. by rewrite Hv.
Qed.

Lemma grid_set_in w h g x y v :
  wf_grid w h g -> 0 <= x < w -> 0 <= y < h ->
  exists g', grid_set g x y v = Ok g' /\ wf_grid w h g' /\
    forall x' y', 0 <= x' -> 0 <= y' ->
      cell_at g' x' y' =
        if decide (x' = x /\ y' = y) then Some v else cell_at g x' y'.
Proof.
  intros Hwf Hx Hy. unfold grid_set.
  destruct (lookup_lt_is_Some_2 g (Z.to_nat y)) as [row Hrow].
  { destruct Hwf as [Hlen _]. lia. }
  pose proof (wf_grid_row _ _ _ _ _ Hwf Hrow) as Hlen.
  rewrite py_getitem_nonneg by lia. rewrite Hrow. simpl.
  rewrite py_setitem_in by lia. simpl.
  rewrite py_setitem_in by (destruct Hwf; lia).
  eexists. split; [done|]. split.
  - destruct Hwf as [Hh Hrows]. split.
    + by rewrite length_insert.
    + apply Forall_insert; [done|]. by rewrite length_insert.
  - intros x' y' Hx' Hy'. unfold cell_at.
    destruct (decide (Z.to_nat y' = Z.to_nat y)) as [Hyy|Hyy].
    + rewrite Hyy. rewrite list_lookup_insert_eq by (destruct Hwf; lia).
      simpl. rewrite Hrow. simpl.
      destruct (decide (Z.to_nat x' = Z.to_nat x)) as [Hxx|Hxx].
      * rewrite Hxx. rewrite list_lookup_insert_eq by lia.
        rewrite decide_True; [done | lia].
      * rewrite list_lookup_insert_ne by done.
        rewrite decide_False; [done | lia].
    + rewrite list_lookup_insert_ne by done.
      rewrite decide_False; [done | lia].
Qed.

Lemma wf_alloc w h : wf_maze (Maze_alloc w h).
Proof.
  unfold wf_maze, wf_grid, Maze_alloc. simpl. split.
  - by rewrite length_replicate.
  - apply Forall_replicate. by rewrite length_replicate.
Qed.

Lemma cell_at_alloc w h x y v :
  cell_at (grid (Maze_alloc w h)) x y = Some v -> v = 1.
Proof.
  unfold cell_at, Maze_alloc. simpl. intros H.
  destruct (replicate _ _ !! Z.to_nat y) as [row|] eqn:Hrow; [|done].
  simpl in H. apply lookup_replicate in Hrow as [-> _].
  by apply lookup_replicate in H as [-> _].
Qed.

(** ** Paths in a set of cells *)

Lemma adj4_sym a b : adj4 a b -> adj4 b a.
Proof. unfold adj4. lia. Qed.

Lemma adj4_irrefl a : ~ adj4 a a.
Proof. unfold adj4. lia. Qed.

Lemma chain_app R l1 l2 :
  chain R (l1 ++ l2) <->
  chain R l1 /\ chain R l2 /\
  (forall x y, last l1 = Some x -> head l2 = Some y -> R x y).
Proof.
  induction l1 as [|a l1 IH]; simpl.
  - split; [intros H; split_and!; [done|done|] | tauto].
    intros x y Hx. discriminate.
  - destruct l1 as [|b l1]; simpl in *.
    + destruct l2 as [|c l2]; simpl.
      * split; [intros _; split_and!; [done|done|intros ??? [=]] | done].
      * split.
        -- intros [HR Hc]. split_and!; [done|done|]. by intros x y [= <-] [= <-].
        -- intros (_ & Hc & HR). split; [|done]. by apply HR.
    + rewrite IH. split.
      * intros (HR & Hc1 & Hc2 & Hl). split_and!; try done.
      * intros ((HR & Hc1) & Hc2 & Hl). split_and!; try done.
Qed.

Lemma chain_reverse R l :
  (forall a b, R a b -> R b a) -> chain R l -> chain R (reverse l).
Proof.
  intros Hsym. induction l as [|a l IH]; [done|].
  intros Hc. rewrite reverse_cons. apply chain_app.
  destruct l as [|b l]; [simpl; split_and!; try done; intros ?? [=]|].
  destruct Hc as [HR Hc]. split_and!; [by apply IH|done|].
  intros x y Hx [= <-]. rewrite last_reverse in Hx. simpl in Hx.
  injection Hx as <-. by apply Hsym.
Qed.

Lemma path_reverse P a b p : path P a b p -> path P b a (reverse p).
Proof.
  intros (Hh & Hl & HP & Hc). split_and!.
  - by rewrite head_reverse.
  - by rewrite last_reverse.
  - by apply Forall_reverse.
  - apply chain_reverse; [apply adj4_sym | done].
Qed.

Lemma simple_path_reverse P a b p :
  simple_path P a b p -> simple_path P b a (reverse p).
Proof.
  intros [Hp Hnd]. split; [by apply path_reverse | by rewrite reverse_Permutation].
Qed.

Lemma simple_path_loop P a p : simple_path P a a p -> p = [a].
Proof.
  intros [(Hh & Hl & _ & _) Hnd].
  destruct p as [|x p]; [done|]. injection Hh as ->.
  destruct p as [|y p]; [done|]. exfalso.
  rewrite last_cons_cons in Hl. apply last_Some_elem_of in Hl.
  by apply NoDup_cons in Hnd as [Hnot _].
Qed.

Lemma simple_path_single (P : cell -> Prop) a : P a -> simple_path P a a [a].
Proof.
  intros Ha. split; [split_and!; try done; by apply Forall_singleton|].
  apply NoDup_singleton.
Qed.

Lemma path_mono (P Q : cell -> Prop) a b p :
  (forall c, c ∈ p -> P c -> Q c) -> path P a b p -> path Q a b p.
Proof.
  intros HPQ (Hh & Hl & HP & Hc). split_and!; try done.
  rewrite Forall_forall in HP. apply Forall_forall. intros c Hc'. auto.
Qed.

Lemma unique_paths_iff (P Q : cell -> Prop) :
  (forall c, P c <-> Q c) -> unique_paths P -> unique_paths Q.
Proof.
  intros HPQ HU a b Ha Hb.
  destruct (HU a b) as (p & [Hp Hnd] & Huniq); [by apply HPQ..|].
  exists p. split.
  - split; [|done]. eapply path_mono; [|done]. intros c _. apply HPQ.
  - intros q [Hq Hndq]. apply Huniq. split; [|done].
    eapply path_mono; [|done]. intros c _. apply HPQ.
Qed.

(** A set with one cell has unique paths. *)
Lemma unique_paths_single (P : cell -> Prop) c0 :
  P c0 -> (forall c, P c -> c = c0) -> unique_paths P.
Proof.
  intros H0 Hall a b Ha Hb.
  rewrite (Hall a Ha), (Hall b Hb). exists [c0]. split.
  - by apply simple_path_single.
  - intros q Hq. by apply simple_path_loop in Hq.
Qed.

(** *** Attaching a leaf

    [v] is a new cell whose only neighbour in [P] is [u]. *)
Section leaf.
Context (P : cell -> Prop) (u v : cell).
Hypothesis Hv : ~ P v.
Hypothesis Hu : P u.
Hypothesis Huv : adj4 u v.
Hypothesis Honly : forall c, P c -> adj4 c v -> c = u.

Lemma leaf_not_inside a b p :
  simple_path (with_leaf P v) a b p -> a <> v -> b <> v -> v ∉ p.
Proof.
  intros [(Hh & Hl & HP & Hc) Hnd] Ha Hb Hin.
  apply list_elem_of_split in Hin as (l1 & l2 & ->).
  destruct (last l1) as [x|] eqn:Hx; cycle 1.
  { apply last_None in Hx as ->. simpl in Hh. congruence. }
  apply last_Some in Hx as [l1' ->].
  destruct l2 as [|y l2].
  { rewrite last_snoc in Hl. congruence. }
  rewrite <-(assoc_L (++)) in *. simpl in *.
  apply chain_app in Hc as (_ & Hc & _).
  destruct Hc as (Hxv & Hvy & _).
  apply NoDup_app in Hnd as (_ & Hdisj & Hnd).
  rewrite Forall_app in HP. destruct HP as [_ HP].
  apply Forall_cons in HP as [Hx HP]. apply Forall_cons in HP as [_ HP].
  apply Forall_cons in HP as [Hy _].
  apply NoDup_cons in Hnd as [Hx1 Hnd]. apply NoDup_cons in Hnd as [Hv1 _].
  assert (x = u) as ->.
  { apply Honly; [|done]. destruct Hx as [Hx| ->]; [done|].
    exfalso. apply Hx1. set_solver. }
  assert (y = u) as ->.
  { apply Honly; [|by apply adj4_sym]. destruct Hy as [Hy| ->]; [done|].
    exfalso. apply Hv1. set_solver. }
  apply Hx1. set_solver.
Qed.

Lemma leaf_free_path a b p :
  simple_path (with_leaf P v) a b p -> v ∉ p -> simple_path P a b p.
Proof.
  intros [Hp Hnd] Hnot. split; [|done].
  eapply path_mono; [|done]. intros c Hc [Hc'| ->]; done.
Qed.

Lemma path_to_leaf a p :
  simple_path (with_leaf P v) a v p -> a <> v ->
  exists p0, p = p0 ++ [v] /\ simple_path P a u p0.
Proof.
  intros [(Hh & Hl & HP & Hc) Hnd] Ha.
  apply last_Some in Hl as [p0 ->]. exists p0. split; [done|].
  apply NoDup_app in Hnd as (Hnd0 & Hdisj & _).
  apply Forall_app in HP as [HP _].
  apply chain_app in Hc as (Hc0 & _ & Hlast).
  destruct (last p0) as [x|] eqn:Hx; cycle 1.
  { apply last_None in Hx as ->. simpl in Hh. congruence. }
  assert (forall c, c ∈ p0 -> P c) as HP0.
  { intros c Hc. rewrite Forall_forall in HP.
    destruct (HP c Hc) as [?| ->]; [done|]. exfalso.
    apply (Hdisj v Hc). set_solver. }
  assert (x = u) as ->.
  { apply Honly; [|by apply Hlast]. apply HP0.
    by apply last_Some_elem_of. }
  split; [split_and!|]; try done.
  - destruct p0; [done|]. done.
  - by apply Forall_forall.
Qed.

Lemma path_to_leaf_intro a p0 :
  simple_path P a u p0 -> simple_path (with_leaf P v) a v (p0 ++ [v]).
Proof.
  intros [(Hh & Hl & HP & Hc) Hnd]. split; [split_and!|].
  - destruct p0; [done|]. done.
  - by rewrite last_snoc.
  - apply Forall_app. split.
    + eapply Forall_impl; [done|]. intros c Hc'. by left.
    + apply Forall_singleton. by right.
  - apply chain_app. split_and!; [done|done|].
    intros x y Hx [= <-]. congruence.
  - apply NoDup_app. split_and!; [done| |apply NoDup_singleton].
    intros c Hc' ->%list_elem_of_singleton.
    rewrite Forall_forall in HP. apply Hv. by apply HP.
Qed.

Lemma unique_paths_leaf : unique_paths P -> unique_paths (with_leaf P v).
Proof.
  intros HU a b Ha Hb.
  destruct (decide (a = v)) as [->|Hav], (decide (b = v)) as [->|Hbv].
  - exists [v]. split; [apply simple_path_single; by right|].
    intros q Hq. by apply simple_path_loop in Hq.
  - destruct Hb as [Hb|]; [|done].
    destruct (HU b u Hb Hu) as (p0 & Hp0 & Huniq).
    exists (reverse (p0 ++ [v])). split.
    + apply simple_path_reverse. by apply path_to_leaf_intro.
    + intros q Hq. apply simple_path_reverse in Hq.
      apply path_to_leaf in Hq as (q0 & Hq & Hq0); [|done].
      apply Huniq in Hq0 as ->. by rewrite <-Hq, reverse_involutive.
  - destruct Ha as [Ha|]; [|done].
    destruct (HU a u Ha Hu) as (p0 & Hp0 & Huniq).
    exists (p0 ++ [v]). split; [by apply path_to_leaf_intro|].
    intros q Hq. apply path_to_leaf in Hq as (q0 & -> & Hq0); [|done].
    by apply Huniq in Hq0 as ->.
  - destruct Ha as [Ha|]; [|done]. destruct Hb as [Hb|]; [|done].
    destruct (HU a b Ha Hb) as (p & [Hp Hnd] & Huniq).
    exists p. split.
    + split; [|done]. eapply path_mono; [|done]. intros c _ Hc. by left.
    + intros q Hq. apply Huniq. apply leaf_free_path; [done|].
      by eapply leaf_not_inside.
Qed.
End leaf.

(** ** Counting cells and adjacent pairs *)

Ltac zlia := Z.to_euclidean_division_equations; lia.

Lemma elem_of_all_cells w h c :
  c ∈ all_cells w h <-> 0 <= c.1 < w /\ 0 <= c.2 < h.
Proof.
  unfold all_cells. rewrite list_elem_of_bind. split.
  - intros (y & Hc & Hy). apply list_elem_of_bind in Hc as (x & Hc & Hx).
    apply list_elem_of_singleton in Hc as ->. simpl.
    apply elem_of_seqZ in Hx, Hy. lia.
  - intros [Hx Hy]. exists c.2. split; [|apply elem_of_seqZ; lia].
    apply list_elem_of_bind. exists c.1. split; [|apply elem_of_seqZ; lia].
    destruct c. simpl. apply list_elem_of_singleton. done.
Qed.

Lemma NoDup_all_cells w h : NoDup (all_cells w h).
Proof.
  unfold all_cells. apply NoDup_bind; [| |apply NoDup_seqZ].
  - intros y1 y2 c _ _ H1 H2.
    apply list_elem_of_bind in H1 as (x1 & ->%list_elem_of_singleton & _).
    apply list_elem_of_bind in H2 as (x2 & [=]%list_elem_of_singleton & _).
    done.
  - intros y _. apply NoDup_bind; [| |apply NoDup_seqZ].
    + intros x1 x2 c _ _ ->%list_elem_of_singleton [=]%list_elem_of_singleton.
      done.
    + intros x _. apply NoDup_singleton.
Qed.

Lemma length_all_cells w h :
  length (all_cells w h) = (Z.to_nat h * Z.to_nat w)%nat.
Proof.
  unfold all_cells.
  assert (forall (l : list Z) (k : nat) (f : Z -> list cell),
    (forall y, length (f y) = k) -> length (l ≫= f) = (length l * k)%nat) as Hb.
  { intros l k f Hf. induction l as [|a l IH]; [done|].
    rewrite bind_cons, length_app, IH, Hf. done. }
  rewrite (Hb _ (Z.to_nat w)).
  - by rewrite length_seqZ.
  - intros y. rewrite (Hb _ 1%nat); [|done]. rewrite length_seqZ. lia.
Qed.

Lemma elem_of_all_links w h e :
  e ∈ all_links w h <->
  e.1 ∈ all_cells w h /\
  (e.2 = (e.1.1 + 1, e.1.2) \/ e.2 = (e.1.1, e.1.2 + 1)).
Proof.
  unfold all_links. rewrite list_elem_of_bind. split.
  - intros (c & He & Hc).
    apply elem_of_cons in He as [->|He]; [simpl; tauto|].
    apply list_elem_of_singleton in He as ->. simpl. tauto.
  - intros [Hc He]. exists e.1. split; [|done]. destruct e as [a b].
    simpl in *. destruct He as [-> | ->]; set_solver.
Qed.

Lemma NoDup_all_links w h : NoDup (all_links w h).
Proof.
  unfold all_links. apply NoDup_bind; [| |apply NoDup_all_cells].
  - intros c1 c2 e _ _ H1 H2.
    assert (e.1 = c1) as <- by set_solver.
    set_solver.
  - intros c _. apply NoDup_cons. split; [|apply NoDup_singleton].
    intros [=]%list_elem_of_singleton. lia.
Qed.

Lemma link_adjacent w h a b : (a, b) ∈ all_links w h -> b.1 + b.2 = a.1 + a.2 + 1.
Proof.
  intros [_ He]%elem_of_all_links. simpl in He.
  destruct He as [-> | ->]; simpl; lia.
Qed.

Lemma adjacent_link w h a b :
  a ∈ all_cells w h -> b ∈ all_cells w h -> adj4 a b ->
  (a, b) ∈ all_links w h \/ (b, a) ∈ all_links w h.
Proof.
  intros Ha Hb Hadj. destruct a as [ax ay], b as [bx by_].
  unfold adj4 in Hadj. simpl in Hadj.
  assert ((bx = ax + 1 /\ by_ = ay) \/ (bx = ax /\ by_ = ay + 1) \/
          (ax = bx + 1 /\ ay = by_) \/ (ax = bx /\ ay = by_ + 1))
    as [[-> ->]|[[-> ->]|[[-> ->]|[-> ->]]]] by lia.
  - left. apply elem_of_all_links. simpl. tauto.
  - left. apply elem_of_all_links. simpl. tauto.
  - right. apply elem_of_all_links. simpl. tauto.
  - right. apply elem_of_all_links. simpl. tauto.
Qed.

Lemma length_filter_split {A} (P Q : A -> Prop)
    `{!forall x, Decision (P x)} `{!forall x, Decision (Q x)} (l : list A) :
  (forall x, x ∈ l -> P x -> Q x) ->
  length (filter Q l) =
    (length (filter P l) + length (filter (fun x => Q x /\ ~ P x) l))%nat.
Proof.
  induction l as [|a l IH]; intros HPQ; [done|].
  rewrite !filter_cons.
  assert (forall x, x ∈ l -> P x -> Q x) as HPQ' by (intros; apply HPQ; set_solver).
  specialize (IH HPQ').
  assert (P a -> Q a) as Ha by (apply HPQ; set_solver).
  repeat case_decide; simpl; try lia; tauto.
Qed.

Lemma filter_none {A} (P : A -> Prop) `{!forall x, Decision (P x)} (l : list A) :
  (forall x, x ∈ l -> ~ P x) -> filter P l = [].
Proof.
  induction l as [|a l IH]; intros Hl; [done|].
  rewrite filter_cons, decide_False by (apply Hl; set_solver).
  apply IH. intros x Hx. apply Hl. set_solver.
Qed.

Lemma length_one {A} (l : list A) (e : A) :
  NoDup l -> e ∈ l -> (forall x, x ∈ l -> x = e) -> length l = 1%nat.
Proof.
  intros Hnd He Hall. destruct l as [|a l]; [set_solver|].
  destruct l as [|b l]; [done|]. exfalso.
  assert (a = e) as -> by (apply Hall; set_solver).
  assert (b = e) as -> by (apply Hall; set_solver).
  apply NoDup_cons in Hnd as [Hnot _]. set_solver.
Qed.

Lemma count_cells_iff (P Q : cell -> Prop)
    `{!forall c, Decision (P c)} `{!forall c, Decision (Q c)} w h :
  (forall c, P c <-> Q c) -> count_cells P w h = count_cells Q w h.
Proof.
  intros HPQ. unfold count_cells. f_equal. by apply list_filter_iff.
Qed.

Lemma count_links_iff (P Q : cell -> Prop)
    `{!forall c, Decision (P c)} `{!forall c, Decision (Q c)} w h :
  (forall c, P c <-> Q c) -> count_links P w h = count_links Q w h.
Proof.
  intros HPQ. unfold count_links. f_equal. apply list_filter_iff.
  intros e. by rewrite !HPQ.
Qed.

Lemma count_cells_bound (P : cell -> Prop) `{!forall c, Decision (P c)} w h :
  (count_cells P w h <= Z.to_nat h * Z.to_nat w)%nat.
Proof. unfold count_cells. rewrite <-length_all_cells. apply length_filter. Qed.

Section leaf_count.
Context (P : cell -> Prop) `{!forall c, Decision (P c)} (u v : cell) (w h : Z).
Hypothesis Hv : ~ P v.
Hypothesis Hu : P u.
Hypothesis Huv : adj4 u v.
Hypothesis Honly : forall c, P c -> adj4 c v -> c = u.
Hypothesis Hvin : v ∈ all_cells w h.
Hypothesis Huin : u ∈ all_cells w h.

Lemma count_cells_leaf :
  count_cells (with_leaf P v) w h = S (count_cells P w h).
Proof.
  unfold count_cells.
  rewrite (length_filter_split P (with_leaf P v)); [|intros; by left].
  match goal with |- (_ + length ?l)%nat = _ => rewrite (length_one l v) end; [lia| | |].
  - apply NoDup_filter, NoDup_all_cells.
  - apply list_elem_of_filter. split; [|done]. split; [by right|done].
  - intros c [[[Hc| ->] Hn] _]%list_elem_of_filter; done.
Qed.

Lemma count_links_leaf :
  count_links (with_leaf P v) w h = S (count_links P w h).
Proof.
  unfold count_links.
  rewrite (length_filter_split (fun e : cell * cell => P e.1 /\ P e.2)
             (fun e : cell * cell => with_leaf P v e.1 /\ with_leaf P v e.2));
    [|intros e _ [? ?]; split; by left].
  assert (exists e0, e0 ∈ all_links w h /\ (e0 = (u, v) \/ e0 = (v, u)))
    as (e0 & He0 & Hor).
  { destruct (adjacent_link w h u v) as [Hl|Hl]; eauto. }
  assert (forall e, e ∈ all_links w h ->
            (with_leaf P v e.1 /\ with_leaf P v e.2) /\ ~ (P e.1 /\ P e.2) ->
            e = e0) as Hall.
  { intros [a b] He [[Ha Hb] Hn]. simpl in *.
    pose proof (link_adjacent _ _ _ _ He) as Hab.
    assert (adj4 a b) as Hadj.
    { apply elem_of_all_links in He as [_ He]. simpl in He. unfold adj4.
      destruct He as [-> | ->]; simpl; lia. }
    assert ((a, b) = (u, v) \/ (a, b) = (v, u)) as Huv'.
    { destruct Ha as [Ha| ->], Hb as [Hb| ->].
      - tauto.
      - left. f_equal. by apply Honly.
      - right. f_equal. apply Honly; [done|]. by apply adj4_sym.
      - by apply adj4_irrefl in Hadj. }
    destruct Hor as [-> | ->], Huv' as [Heq|Heq]; try done.
    + injection Heq as -> ->. apply link_adjacent in He, He0. lia.
    + injection Heq as -> ->. apply link_adjacent in He, He0. lia. }
  match goal with |- (_ + length ?l)%nat = _ => rewrite (length_one l e0) end; [lia| | |].
  - apply NoDup_filter, NoDup_all_links.
  - apply list_elem_of_filter. split; [|done].
    destruct Hor as [-> | ->]; simpl.
    + split; [split; [by left | by right] | tauto].
    + split; [split; [by right | by left] | tauto].
  - intros e [He1 He2]%list_elem_of_filter. by apply Hall.
Qed.
End leaf_count.

(** ** The generator *)

Lemma elem_of_swap {A} (x : list A) i j d : d ∈ swap x i j -> d ∈ x.
Proof.
  unfold swap.
  destruct (x !! i) as [a|] eqn:Hi; [|done].
  destruct (x !! j) as [b|] eqn:Hj; [|done].
  intros [k Hk]%list_elem_of_lookup.
  destruct (decide (j = k)) as [->|Hjk].
  - rewrite list_lookup_insert_eq in Hk.
    + injection Hk as <-. by eapply list_elem_of_lookup_2.
    + rewrite length_insert. by eapply lookup_lt_Some.
  - rewrite list_lookup_insert_ne in Hk by done.
    destruct (decide (i = k)) as [->|Hik].
    + rewrite list_lookup_insert_eq in Hk by (by eapply lookup_lt_Some).
      injection Hk as <-. by eapply list_elem_of_lookup_2.
    + rewrite list_lookup_insert_ne in Hk by done.
      by eapply list_elem_of_lookup_2.
Qed.

Lemma elem_of_shuffle_from {A} i (x : list A) r d :
  d ∈ (shuffle_from i x r).1 -> d ∈ x.
Proof.
  revert x r. induction i as [|i IH]; intros x r; simpl; [done|].
  intros Hd. apply IH in Hd. by apply elem_of_swap in Hd.
Qed.

Lemma elem_of_shuffle {A} (x : list A) r d : d ∈ (shuffle x r).1 -> d ∈ x.
Proof. apply elem_of_shuffle_from. Qed.

Lemma direction_cases dx dy :
  (dx, dy) ∈ directions0 ->
  (dx = 0 /\ dy = -2) \/ (dx = 0 /\ dy = 2) \/
  (dx = 2 /\ dy = 0) \/ (dx = -2 /\ dy = 0).
Proof.
  unfold directions0. rewrite !elem_of_cons, elem_of_nil.
  intros [[= -> ->]|[[= -> ->]|[[= -> ->]|[[= -> ->]|[]]]]]; lia.
Qed.

Lemma direction_mid dx dy :
  (dx, dy) ∈ directions0 -> dx = 2 * (dx `div` 2) /\ dy = 2 * (dy `div` 2).
Proof.
  intros [[-> ->]|[[-> ->]|[[-> ->]|[-> ->]]]]%direction_cases; done.
Qed.

Lemma carve_first_spec m x y dirs :
  wf_maze m -> (forall d, d ∈ dirs -> d ∈ directions0) ->
  carve_first m x y dirs = Ok None \/
  exists m' dx dy,
    carve_first m x y dirs = Ok (Some (m', (x + dx, y + dy))) /\
    (dx, dy) ∈ directions0 /\
    1 <= x + dx < width m - 1 /\ 1 <= y + dy < height m - 1 /\
    cell_at (grid m) (x + dx) (y + dy) = Some 1 /\
    carved m m' x y dx dy.
Proof.
  intros Hwf. induction dirs as [|[dx dy] dirs IH]; intros Hdirs; [by left|].
  simpl. assert (forall d, d ∈ dirs -> d ∈ directions0) as Hdirs'
    by (intros; apply Hdirs; set_solver).
  specialize (IH Hdirs').
  destruct (decide (1 <= x + dx < width m - 1 /\ 1 <= y + dy < height m - 1))
    as [[Hbx Hby]|_]; [|done].
  destruct (grid_get_in _ _ _ (x + dx) (y + dy) Hwf) as (v & Hget & Hv);
    [lia..|].
  rewrite Hget. simpl.
  destruct (decide (v = 1)) as [->|_]; [|done].
  right. assert ((dx, dy) ∈ directions0) as Hd by (apply Hdirs; set_solver).
  destruct (direction_mid _ _ Hd) as [Hdx Hdy].
  destruct (grid_set_in _ _ _ (x + dx) (y + dy) 0 Hwf) as (g1 & Hs1 & Hwf1 & Hg1);
    [lia..|].
  assert (Z.abs dx + Z.abs dy = 2) as Habs.
  { apply direction_cases in Hd. lia. }
  destruct (grid_set_in _ _ _ (x + dx `div` 2) (y + dy `div` 2) 0 Hwf1)
    as (g2 & Hs2 & Hwf2 & Hg2); [lia..|].
  rewrite Hs1. simpl. rewrite Hs2. simpl.
  eexists _, dx, dy. split_and!; try done; try lia.
  unfold carved. simpl. split_and!; try done.
  intros x' y' Hx' Hy'. rewrite Hg2 by done.
  case_decide; [done|]. by rewrite Hg1.
Qed.

Lemma passage_eq m a b a' b' :
  passage m (a, b) -> a = a' -> b = b' -> passage m (a', b').
Proof. by intros H <- <-. Qed.

Lemma direction_unit dx dy :
  (dx, dy) ∈ directions0 ->
  exists mx my, dx `div` 2 = mx /\ dy `div` 2 = my /\
    dx = 2 * mx /\ dy = 2 * my /\ Z.abs mx + Z.abs my = 1.
Proof.
  intros [[-> ->]|[[-> ->]|[[-> ->]|[-> ->]]]]%direction_cases;
    eexists _, _; split_and!; try reflexivity.
Qed.

Lemma passage_carved m m' x y dx dy c :
  (dx, dy) ∈ directions0 ->
  1 <= x + dx < width m - 1 -> 1 <= y + dy < height m - 1 ->
  carved m m' x y dx dy ->
  passage m' c <->
  with_leaf (with_leaf (passage m) (x + dx `div` 2, y + dy `div` 2))
            (x + dx, y + dy) c.
Proof.
  intros Hd Hbx Hby (Hw & Hh & Hwf' & Hcell).
  destruct (direction_unit _ _ Hd) as (mx & my & Hmx & Hmy & -> & -> & Habs).
  rewrite Hmx, Hmy in *.
  unfold passage, with_leaf, in_grid. rewrite Hw, Hh. destruct c as [cx cy].
  simpl. split.
  - intros [[Hx Hy] Hc]. rewrite Hcell in Hc by lia.
    repeat case_decide.
    + left. right. f_equal; lia.
    + right. f_equal; lia.
    + left. left. done.
  - intros [[[[Hx Hy] Hc] | [= -> ->]] | [= -> ->]].
    + split; [done|]. rewrite Hcell by lia. by repeat case_decide.
    + split; [lia|]. rewrite Hcell by lia. case_decide as Hd1; [done | by destruct Hd1].
    + split; [lia|]. rewrite Hcell by lia. repeat case_decide; try done. tauto.
Qed.

Lemma carve_inv m m' x y dx dy :
  gen_inv m -> passage m (x, y) -> is_room (x, y) ->
  (dx, dy) ∈ directions0 ->
  1 <= x + dx < width m - 1 -> 1 <= y + dy < height m - 1 ->
  cell_at (grid m) (x + dx) (y + dy) = Some 1 ->
  carved m m' x y dx dy ->
  gen_inv m' /\ (forall c, passage m c -> passage m' c) /\
  passage m' (x + dx, y + dy) /\ is_room (x + dx, y + dy) /\
  count_cells (passage m') (width m') (height m') =
    S (S (count_cells (passage m) (width m) (height m))).
Proof.
  intros Hinv Hxy [Hrx Hry] Hd Hbx Hby Hn Hcarved. simpl in Hrx, Hry.
  assert (forall c, passage m' c <->
     with_leaf (with_leaf (passage m) (x + dx `div` 2, y + dy `div` 2))
            (x + dx, y + dy) c) as Hpass.
  { intros c. by apply passage_carved. }
  destruct Hcarved as (Hw & Hh & Hwf' & Hcell).
  destruct (direction_unit _ _ Hd) as (mx & my & Hmx & Hmy & -> & -> & Habs).
  rewrite Hmx, Hmy in *. clear Hmx Hmy Hd.
  destruct Hinv as [Hwf Hdims Hbits Hint Hpar Hdh Hdv Hstart Htree Hcount Hrooms].
  pose proof (Hint _ Hxy) as [Hix Hiy]. simpl in Hix, Hiy.
  assert (~ passage m (x + 2 * mx, y + 2 * my)) as Hnn.
  { intros [_ Hc]. simpl in Hc. congruence. }
  assert (~ passage m (x + mx, y + my)) as Hnm.
  { intros Hm. apply Hnn.
    assert ((mx = 1 /\ my = 0) \/ (mx = -1 /\ my = 0) \/
            (mx = 0 /\ my = 1) \/ (mx = 0 /\ my = -1))
      as [[-> ->]|[[-> ->]|[[-> ->]|[-> ->]]]] by lia.
    - destruct (Hdh _ _ Hm) as [_ H]; [zlia|]. eapply passage_eq; [done|lia..].
    - destruct (Hdh _ _ Hm) as [H _]; [zlia|]. eapply passage_eq; [done|lia..].
    - destruct (Hdv _ _ Hm) as [_ H]; [zlia|]. eapply passage_eq; [done|lia..].
    - destruct (Hdv _ _ Hm) as [H _]; [zlia|]. eapply passage_eq; [done|lia..]. }
  assert (forall c, passage m c -> adj4 c (x + mx, y + my) -> c = (x, y)) as Honly1.
  { intros [cx cy] Hc Hadj. pose proof (Hpar _ Hc) as Hp.
    unfold adj4 in Hadj. simpl in *.
    destruct (decide (cx = x + 2 * mx /\ cy = y + 2 * my)) as [[-> ->]|Hne]; [done|].
    f_equal; zlia. }
  assert (forall c, with_leaf (passage m) (x + mx, y + my) c ->
            adj4 c (x + 2 * mx, y + 2 * my) -> c = (x + mx, y + my)) as Honly2.
  { intros [cx cy] [Hc|Hc] Hadj; [|done]. exfalso. apply Hnn.
    unfold adj4 in Hadj. simpl in Hadj.
    assert ((cx = x + 2 * mx + 1 /\ cy = y + 2 * my) \/
            (cx = x + 2 * mx - 1 /\ cy = y + 2 * my) \/
            (cx = x + 2 * mx /\ cy = y + 2 * my + 1) \/
            (cx = x + 2 * mx /\ cy = y + 2 * my - 1))
      as [[-> ->]|[[-> ->]|[[-> ->]|[-> ->]]]] by lia.
    - destruct (Hdh _ _ Hc) as [H _]; [zlia|]. eapply passage_eq; [done|lia..].
    - destruct (Hdh _ _ Hc) as [_ H]; [zlia|]. eapply passage_eq; [done|lia..].
    - destruct (Hdv _ _ Hc) as [H _]; [zlia|]. eapply passage_eq; [done|lia..].
    - destruct (Hdv _ _ Hc) as [_ H]; [zlia|]. eapply passage_eq; [done|lia..]. }
  assert (forall c, passage m c -> passage m' c) as Hmono.
  { intros c Hc. apply Hpass. by left; left. }
  assert (passage m' (x + mx, y + my)) as Hm' by (apply Hpass; left; by right).
  assert (passage m' (x + 2 * mx, y + 2 * my)) as Hn' by (apply Hpass; by right).
  assert (adj4 (x, y) (x + mx, y + my)) as Hadj1 by (unfold adj4; simpl; lia).
  assert (adj4 (x + mx, y + my) (x + 2 * mx, y + 2 * my)) as Hadj2
    by (unfold adj4; simpl; lia).
  assert (~ with_leaf (passage m) (x + mx, y + my) (x + 2 * mx, y + 2 * my))
    as Hnn'.
  { intros [H|[= H1 H2]]; [done|lia]. }
  split_and!; [constructor| | | |]; try done.
  - lia.
  - intros cx cy v Hx Hy. rewrite Hcell by done.
    repeat case_decide; [intros [= <-]; by left..|]. by apply Hbits.
  - intros c [[Hc| ->]| ->]%Hpass; unfold interior; rewrite ?Hw, ?Hh.
    + by apply Hint.
    + simpl. lia.
    + simpl. lia.
  - intros c [[Hc| ->]| ->]%Hpass; simpl.
    + by apply Hpar.
    + zlia.
    + zlia.
  - intros cx cy [[Hc|[= -> ->]]|[= -> ->]]%Hpass Hev.
    + destruct (Hdh _ _ Hc Hev). split; by apply Hmono.
    + assert (my = 0) as -> by zlia.
      assert (mx = 1 \/ mx = -1) as [-> | ->] by lia.
      * split; (eapply passage_eq; [|reflexivity|reflexivity]);
          [replace (x + 1 - 1) with x by lia; replace (y + 0) with y by lia;
           by apply Hmono
          |eapply passage_eq; [apply Hn'|lia..]].
      * split; (eapply passage_eq; [|reflexivity|reflexivity]);
          [eapply passage_eq; [apply Hn'|lia..]
          |replace (x + -1 + 1) with x by lia; replace (y + 0) with y by lia;
           by apply Hmono].
    + zlia.
  - intros cx cy [[Hc|[= -> ->]]|[= -> ->]]%Hpass Hev.
    + destruct (Hdv _ _ Hc Hev). split; by apply Hmono.
    + assert (mx = 0) as -> by zlia.
      assert (my = 1 \/ my = -1) as [-> | ->] by lia.
      * split; (eapply passage_eq; [|reflexivity|reflexivity]);
          [replace (y + 1 - 1) with y by lia; replace (x + 0) with x by lia;
           by apply Hmono
          |eapply passage_eq; [apply Hn'|lia..]].
      * split; (eapply passage_eq; [|reflexivity|reflexivity]);
          [eapply passage_eq; [apply Hn'|lia..]
          |replace (y + -1 + 1) with y by lia; replace (x + 0) with x by lia;
           by apply Hmono].
    + zlia.
  - by apply Hmono.
  - eapply unique_paths_iff; [intros c; symmetry; apply Hpass|].
    apply (unique_paths_leaf _ (x + mx, y + my)); try done; [by right|].
    by apply (unique_paths_leaf _ (x, y)).
  - rewrite Hw, Hh.
    rewrite (count_cells_iff _ _ _ _ Hpass), (count_links_iff _ _ _ _ Hpass).
    rewrite (count_cells_leaf _ _ _ _ Hnn'), (count_links_leaf _ (x + mx, y + my));
      try done; try (by right); try (apply elem_of_all_cells; simpl; lia).
    rewrite (count_cells_leaf _ _ _ _ Hnm), (count_links_leaf _ (x, y));
      try done; try (apply elem_of_all_cells; simpl; lia).
    by rewrite Hcount.
  - rewrite Hw, Hh.
    assert (forall c, room m' c <->
              with_leaf (room m) (x + 2 * mx, y + 2 * my) c) as Hr.
    { intros c. unfold room, with_leaf. rewrite Hpass. unfold with_leaf.
      split.
      - intros [[[Hc| ->]| ->] Hroom]; [by left| |by right].
        destruct Hroom as [H1 H2]. simpl in H1, H2. zlia.
      - intros [[Hc Hroom]| ->]; [split; [by left; left|done]|].
        split; [by right|]. split; simpl; zlia. }
    assert (forall c, door m' c <-> with_leaf (door m) (x + mx, y + my) c) as Hdr.
    { intros c. unfold door, with_leaf. rewrite Hpass. unfold with_leaf.
      split.
      - intros [[[Hc| ->]| ->] Hroom]; [by left|by right|].
        exfalso. apply Hroom. split; simpl; zlia.
      - intros [[Hc Hroom]| ->]; [split; [by left; left|done]|].
        split; [left; by right|]. intros [H1 H2]. simpl in H1, H2. zlia. }
    rewrite (count_cells_iff _ _ _ _ Hr), (count_cells_iff _ _ _ _ Hdr).
    rewrite !count_cells_leaf;
      [by rewrite Hrooms|by intros [? _]|apply elem_of_all_cells; simpl; lia
      |by intros [? _]|apply elem_of_all_cells; simpl; lia].
  - split; simpl; zlia.
  - rewrite Hw, Hh. rewrite (count_cells_iff _ _ _ _ Hpass).
    rewrite (count_cells_leaf _ _ _ _ Hnn'), (count_cells_leaf _ _ _ _ Hnm);
      try done; apply elem_of_all_cells; simpl; lia.
Qed.

Lemma generate_loop_inv fuel m stack dirs r :
  gen_inv m -> stack_ok m stack ->
  (forall d, d ∈ dirs -> d ∈ directions0) ->
  (2 * (Z.to_nat (height m) * Z.to_nat (width m)) + length stack
     < fuel + 2 * count_cells (passage m) (width m) (height m))%nat ->
  exists m' r',
    generate_loop fuel m stack dirs r = Ok (m', r') /\
    gen_inv m' /\ width m' = width m /\ height m' = height m.
Proof.
  revert m stack dirs r.
  induction fuel as [|fuel IH]; intros m stack dirs r Hinv Hstack Hdirs Hfuel.
  { pose proof (count_cells_bound (passage m) (width m) (height m)). lia. }
  simpl. destruct stack as [|[x y] below]; [by eexists _, _|].
  destruct (shuffle dirs r) as [dirs' r'] eqn:Hsh.
  assert (forall d, d ∈ dirs' -> d ∈ directions0) as Hdirs'.
  { intros d Hd. apply Hdirs. apply (elem_of_shuffle dirs r). by rewrite Hsh. }
  apply Forall_cons in Hstack as [[Hxy Hroom] Hbelow].
  destruct (carve_first_spec m x y dirs' (gi_wf _ Hinv) Hdirs')
    as [Hnone|(m' & dx & dy & Hsome & Hd & Hbx & Hby & Hwall & Hcarved)].
  - rewrite Hnone. simpl. apply IH; try done. simpl in Hfuel. lia.
  - rewrite Hsome. simpl.
    destruct (carve_inv _ _ _ _ _ _ Hinv Hxy Hroom Hd Hbx Hby Hwall Hcarved)
      as (Hinv' & Hmono & Hn & Hnroom & Hcnt).
    destruct Hcarved as (Hw & Hh & _).
    destruct (IH m' ((x + dx, y + dy) :: (x, y) :: below) dirs' r')
      as (m'' & r'' & Hloop & Hinv'' & Hw'' & Hh''); try done.
    + apply Forall_cons. split; [done|]. apply Forall_cons. split; [auto|].
      eapply Forall_impl; [done|]. intros c [Hc Hr]. auto.
    + rewrite Hcnt, Hw, Hh. simpl in *. lia.
    + exists m'', r''. split_and!; [done|done|congruence..].
Qed.

Lemma start_cell_inv w h g :
  3 <= odd_round w -> 3 <= odd_round h ->
  grid_set (grid (Maze_alloc w h)) 1 1 0 = Ok g ->
  gen_inv (with_grid (Maze_alloc w h) g) /\
  count_cells (passage (with_grid (Maze_alloc w h) g))
    (odd_round w) (odd_round h) = 1%nat.
Proof.
  intros Hw Hh Hset.
  destruct (grid_set_in _ _ _ 1 1 0 (wf_alloc w h)) as (g' & Hset' & Hwf & Hcell);
    [simpl; lia..|].
  rewrite Hset in Hset'. injection Hset' as <-.
  set (m := with_grid (Maze_alloc w h) g).
  assert (forall c, passage m c <-> with_leaf (fun _ => False) (1, 1) c) as Hpass.
  { intros [cx cy]. unfold passage, with_leaf, in_grid. simpl. split.
    - intros [[Hx Hy] Hc]. rewrite Hcell in Hc by lia. right.
      case_decide as Hd; [f_equal; lia|]. by apply cell_at_alloc in Hc.
    - intros [[]|[= -> ->]]. split; [lia|]. by rewrite Hcell. }
  assert (passage m (1, 1)) as Hstart by (apply Hpass; by right).
  assert (forall c, passage m c -> c = (1, 1)) as Hone.
  { intros c [[]| ->]%Hpass. done. }
  assert (count_cells (passage m) (odd_round w) (odd_round h) = 1%nat) as Hcnt.
  { rewrite (count_cells_iff _ _ _ _ Hpass).
    rewrite count_cells_leaf; [|tauto|apply elem_of_all_cells; simpl; lia].
    unfold count_cells. rewrite filter_none; [done|]. by intros ? ? []. }
  split; [constructor|done]; try done.
  - simpl. intros cx cy v Hx Hy. rewrite Hcell by done.
    case_decide; [intros [= <-]; by left|].
    intros ->%cell_at_alloc. by right.
  - intros c ->%Hone. unfold interior. simpl. lia.
  - intros c ->%Hone. by left.
  - intros x y [= -> ->]%Hone. zlia.
  - intros x y [= -> ->]%Hone. zlia.
  - by apply (unique_paths_single _ (1, 1)).
  - simpl. rewrite Hcnt. f_equal. unfold count_links.
    rewrite filter_none; [done|]. intros [a b] He [Ha Hb]. simpl in *.
    apply Hone in Ha as ->. apply Hone in Hb as ->.
    apply link_adjacent in He. simpl in He. lia.
  - simpl.
    assert (forall c, room m c <-> with_leaf (fun _ => False) (1, 1) c) as Hr.
    { intros c. unfold room. rewrite Hpass. unfold with_leaf. split.
      - intros [[[]| ->] _]. by right.
      - intros [[]| ->]. split; [by right|done]. }
    rewrite (count_cells_iff _ _ _ _ Hr).
    rewrite count_cells_leaf; [|tauto|apply elem_of_all_cells; simpl; lia].
    unfold count_cells. rewrite !filter_none; [done| |by intros ? ? []].
    intros c _ [Hc Hroom]. apply Hone in Hc as ->. by apply Hroom.
Qed.

(** ** Properties of constructed mazes *)

Lemma Maze_init_inv w h r :
  3 <= odd_round w -> 3 <= odd_round h ->
  exists m r', Maze_init w h r = Ok (m, r') /\ gen_inv m /\
    width m = odd_round w /\ height m = odd_round h.
Proof.
  intros Hw Hh. unfold Maze_init, _generate.
  destruct (grid_set_in _ _ _ 1 1 0 (wf_alloc w h)) as (g & Hset & _);
    [simpl; lia..|].
  rewrite Hset, result_bind_Ok.
  destruct (start_cell_inv w h g Hw Hh Hset) as [Hinv Hcnt].
  destruct (generate_loop_inv (generate_fuel (Maze_alloc w h))
              (with_grid (Maze_alloc w h) g) [(1, 1)] directions0 r)
    as (m & r' & Hloop & Hinv' & Hw' & Hh'); try done.
  - apply Forall_singleton. split; [apply (gi_start _ Hinv)|done].
  - simpl. rewrite Hcnt. unfold generate_fuel. simpl.
    rewrite Z2Nat.inj_mul by lia. lia.
  - by exists m, r'.
Qed.

Lemma odd_round_spec n : odd_round n = rounded_up_to_odd n.
Proof.
  unfold odd_round, rounded_up_to_odd. rewrite Zeven_mod.
  case_decide as Hn.
  - by rewrite Hn.
  - rewrite (proj2 (Z.eqb_neq _ _)); done.
Qed.

Lemma carve_first_dims m x y dirs m' n :
  carve_first m x y dirs = Ok (Some (m', n)) ->
  width m' = width m /\ height m' = height m.
Proof.
  induction dirs as [|[dx dy] dirs IH]; simpl; [done|].
  case_decide; [|done].
  destruct (grid_get _ _ _) as [v| |]; simpl; try done.
  case_decide; [|done].
  destruct (grid_set (grid m) _ _ _) as [g1| |]; simpl; try done.
  destruct (grid_set g1 _ _ _) as [g2| |]; simpl; try done.
  by intros [= <- _].
Qed.

Lemma generate_loop_dims fuel m stack dirs r m' r' :
  generate_loop fuel m stack dirs r = Ok (m', r') ->
  width m' = width m /\ height m' = height m.
Proof.
  revert m stack dirs r. induction fuel as [|fuel IH]; intros m stack dirs r;
    simpl; [done|].
  destruct stack as [|[x y] below]; [by intros [= <- _]|].
  destruct (shuffle dirs r) as [dirs' r1].
  destruct (carve_first m x y dirs') as [[[m1 n]|]| |] eqn:Hc; simpl; try done.
  - intros [Hw Hh]%IH. apply carve_first_dims in Hc as [Hw1 Hh1]. split; congruence.
  - apply IH.
Qed.

Lemma Maze_init_dims w h r m r' :
  Maze_init w h r = Ok (m, r') ->
  width m = odd_round w /\ height m = odd_round h.
Proof.
  unfold Maze_init, _generate. intros (g & _ & Hloop)%bind_Ok.
  by apply generate_loop_dims in Hloop.
Qed.

(** C1: for requested sizes whose rounded width and height are at least 3,
    the constructor returns a maze whose passage cells form a tree under
    4-adjacency: every passage cell is joined to (1,1) by a path of
    passage cells, the number of passage cells is the number of adjacent
    passage pairs plus one (in terms of carving steps: the number of rooms
    is the number of carved doors plus one), and between any two passage
    cells there is exactly one simple path. *)
Theorem generated_maze_is_tree w h r :
  3 <= odd_round w -> 3 <= odd_round h ->
  exists m r', Maze_init w h r = Ok (m, r') /\
    (forall c, passage m c -> exists p, path (passage m) (1, 1) c p) /\
    length (passage_cells m) = S (length (passage_links m)) /\
    length (room_cells m) = S (length (door_cells m)) /\
    (forall a b, passage m a -> passage m b ->
       exists p, simple_path (passage m) a b p /\
                 forall q, simple_path (passage m) a b q -> q = p).
Proof.
  intros Hw Hh.
  destruct (Maze_init_inv w h r Hw Hh) as (m & r' & Hinit & Hinv & _).
  exists m, r'.
  split_and!; [done| |apply (gi_count _ Hinv)|apply (gi_rooms _ Hinv)
              |apply (gi_tree _ Hinv)].
  intros c Hc.
  destruct (gi_tree _ Hinv (1, 1) c (gi_start _ Hinv) Hc) as (p & [Hp _] & _).
  by exists p.
Qed.

Lemma generated_maze_is_tree_witness :
  exists m r', Maze_init 5 5 seed0 = Ok (m, r') /\
    (forall c, passage m c -> exists p, path (passage m) (1, 1) c p) /\
    length (passage_cells m) = S (length (passage_links m)) /\
    length (room_cells m) = S (length (door_cells m)) /\
    (forall a b, passage m a -> passage m b ->
       exists p, simple_path (passage m) a b p /\
                 forall q, simple_path (passage m) a b q -> q = p).
Proof. apply (generated_maze_is_tree 5 5 seed0); by vm_compute. Defined.

Lemma degenerate_row_raises w h r :
  odd_round h <= 1 -> Maze_init w h r = Raise IndexError.
Proof.
  intros Hh. unfold Maze_init, _generate, grid_set.
  rewrite py_getitem_out; [done|]. simpl. rewrite length_replicate. lia.
Qed.

Lemma degenerate_column_raises w h r :
  odd_round w <= 1 -> Maze_init w h r = Raise IndexError.
Proof.
  intros Hw. destruct (decide (odd_round h <= 1)) as [Hh|Hh].
  { by apply degenerate_row_raises. }
  unfold Maze_init, _generate, grid_set.
  rewrite py_getitem_nonneg by lia. simpl.
  rewrite lookup_replicate_2 by lia. simpl.
  rewrite py_setitem_out; [done|]. rewrite length_replicate. lia.
Qed.

(** The iteration budget of the generator is never exhausted. *)
Lemma Maze_init_in_budget w h r : Maze_init w h r <> OutOfFuel.
Proof.
  destruct (decide (3 <= odd_round w)) as [Hw|Hw];
    [destruct (decide (3 <= odd_round h)) as [Hh|Hh]|].
  - destruct (Maze_init_inv w h r Hw Hh) as (m & r' & -> & _). done.
  - rewrite degenerate_row_raises; [done|].
    unfold odd_round in *. case_decide; zlia.
  - rewrite degenerate_column_raises; [done|].
    unfold odd_round in *. case_decide; zlia.
Qed.

(** C3 (the code does not meet it): when the rounded width or the rounded
    height is 1, the constructor does not complete; marking the start
    cell, [self.grid[1][1] = 0], indexes outside the allocated grid and
    raises [IndexError]. *)
Theorem degenerate_maze_raises w h r :
  odd_round w = 1 \/ odd_round h = 1 -> Maze_init w h r = Raise IndexError.
Proof.
  intros [Hw|Hh].
  - apply degenerate_column_raises. lia.
  - apply degenerate_row_raises. lia.
Qed.

Lemma degenerate_maze_raises_witness :
  Maze_init 1 5 seed0 = Raise IndexError.
Proof. apply (degenerate_maze_raises 1 5 seed0). left. reflexivity. Defined.

(** C4: the stored width is the requested width plus one when the request
    is even and the request itself when it is odd, and the same for the
    height, independently; a maze is constructed whenever both requests
    are at least 2; Maze(4, 6) is 5 by 7 and Maze(5, 5) is 5 by 5. *)
Theorem odd_dimension_normalization w h r :
  1 <= w -> 1 <= h ->
  (width (Maze_alloc w h) = rounded_up_to_odd w /\
   height (Maze_alloc w h) = rounded_up_to_odd h) /\
  (forall m r', Maze_init w h r = Ok (m, r') ->
     width m = rounded_up_to_odd w /\ height m = rounded_up_to_odd h) /\
  (2 <= w -> 2 <= h -> exists m r', Maze_init w h r = Ok (m, r')) /\
  (exists m r', Maze_init 4 6 r = Ok (m, r') /\ width m = 5 /\ height m = 7) /\
  (exists m r', Maze_init 5 5 r = Ok (m, r') /\ width m = 5 /\ height m = 5).
Proof.
  intros Hw Hh. split_and!.
  - apply odd_round_spec.
  - apply odd_round_spec.
  - intros m r' Hinit. rewrite <-!odd_round_spec. by eapply Maze_init_dims.
  - intros Hw2 Hh2.
    destruct (Maze_init_inv w h r) as (m & r' & Hinit & _);
      [unfold odd_round; case_decide; zlia..|].
    by exists m, r'.
  - destruct (Maze_init_inv 4 6 r) as (m & r' & Hinit & _ & Hwm & Hhm);
      [done..|]. by exists m, r'.
  - destruct (Maze_init_inv 5 5 r) as (m & r' & Hinit & _ & Hwm & Hhm);
      [done..|]. by exists m, r'.
Qed.

Lemma odd_dimension_normalization_witness :
  (width (Maze_alloc 4 6) = 5 /\ height (Maze_alloc 4 6) = 7) /\
  (forall m r', Maze_init 4 6 seed0 = Ok (m, r') -> width m = 5 /\ height m = 7) /\
  (2 <= 4 -> 2 <= 6 -> exists m r', Maze_init 4 6 seed0 = Ok (m, r')) /\
  (exists m r', Maze_init 4 6 seed0 = Ok (m, r') /\ width m = 5 /\ height m = 7) /\
  (exists m r', Maze_init 5 5 seed0 = Ok (m, r') /\ width m = 5 /\ height m = 5).
Proof. apply (odd_dimension_normalization 4 6 seed0); lia. Defined.

(** ** The search *)

Lemma neighbors_from_spec m x y offs :
  wf_maze m ->
  exists ns, neighbors_from m x y offs = Ok ns /\
    forall v, v ∈ ns <->
      passage m v /\ exists dx dy, (dx, dy) ∈ offs /\ v = (x + dx, y + dy).
Proof.
  intros Hwf. induction offs as [|[dx dy] offs (ns & IH & Hns)].
  { exists []. split; [done|]. intros v. split; [by intros ?%elem_of_nil|].
    intros (_ & dx & dy & ?%elem_of_nil & _). done. }
  simpl. case_decide as Hin.
  - destruct (grid_get_in _ _ _ (x + dx) (y + dy) Hwf) as (c & Hget & Hc);
      [lia..|].
    rewrite Hget, result_bind_Ok, IH, result_bind_Ok.
    eexists. split; [done|]. intros v. case_decide as Hc0.
    + subst c. rewrite elem_of_cons, Hns. split.
      * intros [->|(Hp & dx' & dy' & Hd & ->)].
        -- split; [done|]. exists dx, dy. split; [left|done].
        -- split; [done|]. exists dx', dy'. split; [by right|done].
      * intros (Hp & dx' & dy' & [[= -> ->]|Hd]%elem_of_cons & ->);
          [by left|]. right. split; [done|]. by exists dx', dy'.
    + rewrite Hns. split.
      * intros (Hp & dx' & dy' & Hd & ->). split; [done|].
        exists dx', dy'. split; [by right|done].
      * intros (Hp & dx' & dy' & [[= -> ->]|Hd]%elem_of_cons & ->).
        -- destruct Hp as [_ Hp]. simpl in Hp. congruence.
        -- split; [done|]. by exists dx', dy'.
  - exists ns. split; [done|]. intros v. rewrite Hns. split.
    + intros (Hp & dx' & dy' & Hd & ->). split; [done|].
      exists dx', dy'. split; [by right|done].
    + intros (Hp & dx' & dy' & [[= -> ->]|Hd]%elem_of_cons & ->).
      * by destruct Hp as [Hp _].
      * split; [done|]. by exists dx', dy'.
Qed.

Lemma neighbors_spec m c :
  wf_maze m ->
  exists ns, neighbors m c.1 c.2 = Ok ns /\ forall v, v ∈ ns <-> step m c v.
Proof.
  intros Hwf.
  destruct (neighbors_from_spec m c.1 c.2 neighbor_offsets Hwf) as (ns & Hn & Hns).
  exists ns. split; [done|]. intros v. rewrite Hns. unfold step.
  destruct c as [x y], v as [vx vy]. simpl. split.
  - intros (Hp & dx & dy & Hd & [= -> ->]). split; [|done].
    unfold neighbor_offsets in Hd. rewrite !elem_of_cons, elem_of_nil in Hd.
    unfold adj4. simpl.
    destruct Hd as [[= -> ->]|[[= -> ->]|[[= -> ->]|[[= -> ->]|[]]]]]; lia.
  - intros [Hadj Hp]. split; [done|]. exists (vx - x), (vy - y).
    split; [|f_equal; lia]. unfold adj4 in Hadj. simpl in Hadj.
    unfold neighbor_offsets. rewrite !elem_of_cons.
    assert ((vx - x = 0 /\ vy - y = -1) \/ (vx - x = 0 /\ vy - y = 1) \/
            (vx - x = 1 /\ vy - y = 0) \/ (vx - x = -1 /\ vy - y = 0))
      as [[-> ->]|[[-> ->]|[[-> ->]|[-> ->]]]] by lia; tauto.
Qed.

Lemma bfs_inv_pend m start (pend pend' : cell -> cell -> Prop) Q P dm d0 :
  (forall u v, u ∉ Q -> pend u v -> pend' u v \/
      exists d d', dm !! u = Some d /\ dm !! v = Some d' /\ (d' <= S d)%nat) ->
  bfs_inv m start pend Q P dm d0 -> bfs_inv m start pend' Q P dm d0.
Proof.
  intros Hp [Ht Hq Hd Hc]. split; try done.
  intros u d Hu HuQ v Hv.
  destruct (Hc u d Hu HuQ v Hv) as [Hpend|?]; [|by right].
  destruct (Hp u v HuQ Hpend) as [?|(d1 & d' & Hu' & Hv' & Hle)]; [by left|].
  right. exists d'. split; [done|]. congruence.
Qed.

Lemma search_tree_visited m start P dm c :
  search_tree m start P dm -> P !! c = None <-> dm !! c = None.
Proof.
  intros Ht. rewrite !eq_None_not_Some. by rewrite (st_dom _ _ _ _ Ht).
Qed.

(** Discovering one more cell [n] from the cell [h] of depth [d0]. *)
Lemma bfs_inv_insert m start pend Q P dm d0 h n :
  bfs_inv m start pend Q P dm d0 ->
  (forall u v, pend u v -> u = h) ->
  dm !! h = Some d0 -> P !! n = None -> step m h n ->
  bfs_inv m start (fun u v => pend u v /\ v <> n)
          (Q ++ [n]) (<[n := Some h]> P) (<[n := S d0]> dm) d0.
Proof.
  intros [Ht (Qa & Qb & -> & HQa & HQb) Hd Hc] Hpend Hh Hn Hstep.
  pose proof (proj1 (search_tree_visited _ _ _ _ n Ht) Hn) as Hdn.
  assert (forall c d, dm !! c = Some d -> c <> n) as Hne by (intros c d ? ->; congruence).
  assert (forall c d, dm !! c = Some d -> <[n := S d0]> dm !! c = Some d) as Hkeep.
  { intros c d Hcd. rewrite lookup_insert_ne; [done|]. intros <-. congruence. }
  destruct Ht as [HsP Hsd Hdom Hroot Hpred Hsize]. split; [split|..].
  - rewrite lookup_insert_ne; [done|]. intros <-. congruence.
  - by apply Hkeep.
  - intros c. destruct (decide (n = c)) as [<-|Hnc].
    + rewrite !lookup_insert_eq. split; eauto.
    + by rewrite !lookup_insert_ne.
  - intros v Hv. destruct (decide (n = v)) as [<-|Hnv].
    + rewrite lookup_insert_eq in Hv. done.
    + rewrite lookup_insert_ne in Hv by done. auto.
  - intros v u Hv. destruct (decide (n = v)) as [<-|Hnv].
    + rewrite lookup_insert_eq in Hv. injection Hv as <-. split; [done|].
      exists d0. split; [by apply Hkeep|]. by rewrite lookup_insert_eq.
    + rewrite lookup_insert_ne in Hv by done.
      destruct (Hpred v u Hv) as (Hs & d & Hu & Hv'). split; [done|].
      exists d. split; by apply Hkeep.
  - intros v d Hv. rewrite map_size_insert_None by done.
    destruct (decide (n = v)) as [<-|Hnv].
    + rewrite lookup_insert_eq in Hv. injection Hv as <-.
      apply Hsize in Hh. lia.
    + rewrite lookup_insert_ne in Hv by done. apply Hsize in Hv. lia.
  - exists Qa, (Qb ++ [n]). split; [by rewrite (assoc_L (++))|]. split.
    + eapply Forall_impl; [done|]. intros q Hq. by apply Hkeep.
    + apply Forall_app. split.
      * eapply Forall_impl; [done|]. intros q Hq. by apply Hkeep.
      * apply Forall_singleton. by rewrite lookup_insert_eq.
  - intros v d Hv. destruct (decide (n = v)) as [<-|Hnv].
    + rewrite lookup_insert_eq in Hv. injection Hv as <-. lia.
    + rewrite lookup_insert_ne in Hv by done. eauto.
  - intros u d Hu HuQ v Hv.
    assert (u <> n) as Hun by set_solver.
    rewrite lookup_insert_ne in Hu by done.
    assert (u ∉ Qa ++ Qb) as HuQ' by set_solver.
    destruct (decide (v = n)) as [->|Hvn].
    + right. exists (S d0). rewrite lookup_insert_eq. split; [done|].
      destruct (Hc u d Hu HuQ' n Hv) as [Hp|(d' & Hd' & _)]; [|congruence].
      apply Hpend in Hp as ->. assert (d = d0) as -> by congruence. lia.
    + destruct (Hc u d Hu HuQ' v Hv) as [Hp|(d' & Hd' & Hle)].
      * by left.
      * right. exists d'. split; [by apply Hkeep|done].
Qed.

Lemma unvisited_insert (m : Maze) (P : gmap cell (option cell))
    (n : cell) (x : option cell) :
  P !! n = None -> in_grid m n ->
  (S (unvisited m (<[n := x]> P)) <= unvisited m P)%nat.
Proof.
  intros Hn Hin. unfold unvisited.
  rewrite (length_filter_split (fun c => <[n := x]> P !! c = None)
                               (fun c => P !! c = None)).
  - assert (0 < length (filter (fun c => P !! c = None /\ ~ <[n := x]> P !! c = None)
                         (all_cells (width m) (height m))))%nat; [|lia].
    assert (n ∈ filter (fun c => P !! c = None /\ ~ <[n := x]> P !! c = None)
                       (all_cells (width m) (height m))) as Hel.
    { apply list_elem_of_filter. split; [|by apply elem_of_all_cells].
      split; [done|]. by rewrite lookup_insert_eq. }
    destruct (filter _ _); [by apply elem_of_nil in Hel | simpl; lia].
  - intros c _ Hc. apply lookup_insert_None in Hc. tauto.
Qed.

Lemma discover_inv m start h todo Q P dm d0 Q' P' :
  bfs_inv m start (fun u v => u = h /\ v ∈ todo) Q P dm d0 ->
  dm !! h = Some d0 ->
  (forall n, n ∈ todo -> step m h n) ->
  discover h todo Q P = (Q', P') ->
  exists dm', bfs_inv m start (fun _ _ => False) Q' P' dm' d0 /\
    (2 * unvisited m P' + length Q' <= 2 * unvisited m P + length Q)%nat.
Proof.
  revert Q P dm. induction todo as [|n todo IH]; intros Q P dm Hinv Hh Hstep.
  - simpl. intros [= <- <-]. exists dm. split; [|done].
    eapply bfs_inv_pend; [|done]. intros u v _ [_ []%elem_of_nil].
  - simpl. case_decide as Hn.
    + intros Hdisc.
      assert (step m h n) as Hhn by (apply Hstep; set_solver).
      assert (h <> n) as Hne.
      { intros ->. apply (search_tree_visited _ _ _ _ n (bi_tree _ _ _ _ _ _ _ Hinv)) in Hn.
        congruence. }
      destruct (IH (Q ++ [n]) (<[n := Some h]> P) (<[n := S d0]> dm))
        as (dm' & Hinv' & Hle); try done.
      * eapply bfs_inv_pend; [|eapply (bfs_inv_insert _ _ _ _ _ _ _ h n); try done].
        -- intros u v _ [[-> Hv] Hvn]. left. split; [done|]. set_solver.
        -- by intros u v [-> _].
      * by rewrite lookup_insert_ne.
      * intros n' Hn'. apply Hstep. set_solver.
      * exists dm'. split; [done|].
        pose proof (unvisited_insert m P n (Some h) Hn (proj1 (proj2 Hhn))).
        rewrite length_app in Hle. simpl in Hle. lia.
    + apply (IH Q P dm); try done.
      * eapply bfs_inv_pend; [|done]. intros u v _ [-> Hv].
        apply elem_of_cons in Hv as [->|Hv]; [|by left]. right.
        assert (is_Some (dm !! n)) as [d' Hd'].
        { apply (st_dom _ _ _ _ (bi_tree _ _ _ _ _ _ _ Hinv)).
          by apply not_eq_None_Some. }
        exists d0, d'. split_and!; try done.
        by apply (bi_depth _ _ _ _ _ _ _ Hinv n).
      * intros n' Hn'. apply Hstep. set_solver.
Qed.

Lemma bfs_closed_paths m start Q P dm d0 bound :
  bfs_inv m start (fun _ _ => False) Q P dm d0 ->
  (forall q dq, q ∈ Q -> dm !! q = Some dq -> (bound <= dq)%nat) ->
  forall k v, nsteps (step m) k start v -> (k < bound)%nat ->
    exists d, dm !! v = Some d /\ (d <= k)%nat.
Proof.
  intros Hinv Hq. induction k as [|k IH]; intros v Hpath Hk.
  - inversion Hpath; subst. exists 0%nat. split; [|done].
    apply (st_start_d _ _ _ _ (bi_tree _ _ _ _ _ _ _ Hinv)).
  - apply nsteps_inv_r in Hpath as (u & Hpath & Hstep).
    destruct (IH u Hpath) as (d & Hd & Hle); [lia|].
    assert (u ∉ Q) as HuQ.
    { intros Hu. specialize (Hq u d Hu Hd). lia. }
    destruct (bi_closed _ _ _ _ _ _ _ Hinv u d Hd HuQ v Hstep)
      as [[]|(d' & Hd' & Hle')].
    exists d'. split; [done|lia].
Qed.

Lemma bfs_inv_head m start h rest P dm d0 :
  bfs_inv m start (fun _ _ => False) (h :: rest) P dm d0 ->
  exists d1, dm !! h = Some d1 /\
    bfs_inv m start (fun _ _ => False) (h :: rest) P dm d1 /\
    forall q dq, q ∈ h :: rest -> dm !! q = Some dq -> (d1 <= dq)%nat.
Proof.
  intros Hinv. destruct (bi_queue _ _ _ _ _ _ _ Hinv) as (Qa & Qb & HQ & HQa & HQb).
  destruct Qa as [|a Qa].
  - simpl in HQ. subst Qb. exists (S d0).
    pose proof HQb as HQb'. apply Forall_cons in HQb' as [Hh _].
    split; [done|]. split.
    + destruct Hinv as [Ht _ Hd Hc]. split; try done.
      * exists (h :: rest), []. rewrite app_nil_r. split_and!; try done.
      * intros v d Hv. apply Hd in Hv. lia.
    + intros q dq Hq Hdq. rewrite Forall_forall in HQb.
      specialize (HQb q Hq). assert (dq = S d0) by congruence. lia.
  - injection HQ as <- ->. exists d0.
    pose proof HQa as HQa'. apply Forall_cons in HQa' as [Hh _].
    split; [done|]. split; [done|].
    intros q dq Hq Hdq. rewrite Forall_forall in HQa, HQb.
    rewrite app_comm_cons in Hq. apply elem_of_app in Hq as [Hq|Hq].
    + specialize (HQa q Hq). assert (dq = d0) by congruence. lia.
    + specialize (HQb q Hq). assert (dq = S d0) by congruence. lia.
Qed.

(** Removing the head [h] of the queue, with its neighbours [ns] pending. *)
Lemma bfs_inv_pop m start h rest P dm d0 (ns : list cell) :
  bfs_inv m start (fun _ _ => False) (h :: rest) P dm d0 ->
  dm !! h = Some d0 ->
  (forall v, step m h v -> v ∈ ns) ->
  bfs_inv m start (fun u v => u = h /\ v ∈ ns) rest P dm d0.
Proof.
  intros [Ht (Qa & Qb & HQ & HQa & HQb) Hd Hc] Hh Hns. split; try done.
  - destruct Qa as [|a Qa].
    + simpl in HQ. subst Qb. apply Forall_cons in HQb as [Hh' _].
      rewrite Hh in Hh'. injection Hh'. lia.
    + injection HQ as <- ->. apply Forall_cons in HQa as [_ HQa]. by exists Qa, Qb.
  - intros u d Hu HuQ v Hv. destruct (decide (u = h)) as [->|Hne].
    + left. split; [done|]. by apply Hns.
    + destruct (Hc u d Hu) with (v := v) as [[]|?]; [set_solver|done|by right].
Qed.

Lemma solve_loop_inv fuel m start goal Q P dm d0 :
  wf_maze m ->
  bfs_inv m start (fun _ _ => False) Q P dm d0 ->
  (2 * unvisited m P + length Q < fuel)%nat ->
  exists P' dm', solve_loop fuel m goal Q P = Ok P' /\ bfs_final m start goal P' dm'.
Proof.
  intros Hwf. revert Q P dm d0.
  induction fuel as [|fuel IH]; intros Q P dm d0 Hinv Hfuel; [lia|].
  simpl. destruct Q as [|h rest].
  { exists P, dm. split; [done|]. split.
    - apply (bi_tree _ _ _ _ _ _ _ Hinv).
    - intros d k Hd Hpath.
      destruct (bfs_closed_paths _ _ _ _ _ _ (S k) Hinv) with (k := k) (v := goal)
        as (d' & Hd' & Hle); [by intros ?? ?%elem_of_nil|done|lia|].
      congruence.
    - intros k Hpath.
      destruct (bfs_closed_paths _ _ _ _ _ _ (S k) Hinv) with (k := k) (v := goal)
        as (d' & Hd' & Hle); [by intros ?? ?%elem_of_nil|done|lia|].
      by eexists. }
  destruct (bfs_inv_head _ _ _ _ _ _ _ Hinv) as (d1 & Hh & Hinv1 & Hmin).
  case_decide as Hgoal.
  { subst h. exists P, dm. split; [done|]. split.
    - apply (bi_tree _ _ _ _ _ _ _ Hinv).
    - intros d k Hd Hpath. assert (d = d1) as -> by congruence.
      destruct (decide (k < d1)%nat) as [Hlt|]; [|lia].
      destruct (bfs_closed_paths _ _ _ _ _ _ d1 Hinv1 Hmin k goal Hpath Hlt)
        as (d' & Hd' & Hle).
      assert (d' = d1) by congruence. lia.
    - intros _ _. by eexists. }
  destruct (neighbors_spec m h Hwf) as (ns & Hns & Hspec).
  rewrite Hns, result_bind_Ok.
  destruct (discover h ns rest P) as [Q' P'] eqn:Hdisc.
  destruct (discover_inv m start h ns rest P dm d1 Q' P') as (dm' & Hinv' & Hle);
    try done.
  - apply bfs_inv_pop; [done|done|]. intros v. apply Hspec.
  - intros n. apply Hspec.
  - apply (IH Q' P' dm' d1); [done|]. simpl in Hfuel. lia.
Qed.

Lemma area_bound w h : (Z.to_nat h * Z.to_nat w <= Z.to_nat (w * h))%nat.
Proof.
  destruct (decide (0 <= w)), (decide (0 <= h)).
  - rewrite Z2Nat.inj_mul by done. lia.
  - replace (Z.to_nat h) with 0%nat by lia. lia.
  - replace (Z.to_nat w) with 0%nat by lia. lia.
  - replace (Z.to_nat w) with 0%nat by lia. lia.
Qed.

Lemma bfs_inv_start m start :
  bfs_inv m start (fun _ _ => False) [start]
          {[start := None]} {[start := 0%nat]} 0.
Proof.
  split; [split|..].
  - apply lookup_singleton_eq.
  - apply lookup_singleton_eq.
  - intros c. destruct (decide (start = c)) as [<-|Hne].
    + rewrite !lookup_singleton_eq. split; eauto.
    + rewrite !lookup_singleton_ne by done. done.
  - intros v Hv. apply lookup_singleton_Some in Hv as [-> _]. done.
  - intros v u Hv. apply lookup_singleton_Some in Hv as [_ [=]].
  - intros v d Hv. apply lookup_singleton_Some in Hv as [_ <-].
    rewrite map_size_singleton. lia.
  - exists [start], []. split_and!; [done| |done].
    apply Forall_singleton. apply lookup_singleton_eq.
  - intros v d Hv. apply lookup_singleton_Some in Hv as [_ <-]. lia.
  - intros u d Hu Hnot. apply lookup_singleton_Some in Hu as [<- _].
    set_solver.
Qed.

Lemma solve_loop_start m start goal :
  wf_maze m ->
  exists P dm,
    solve_loop (solve_fuel m) m goal [start] {[start := None]} = Ok P /\
    bfs_final m start goal P dm.
Proof.
  intros Hwf. eapply solve_loop_inv; [done|apply bfs_inv_start|].
  unfold solve_fuel, unvisited. simpl.
  pose proof (length_filter (fun c : cell => ({[start := None]} : gmap cell (option cell)) !! c = None)
                (all_cells (width m) (height m))) as Hlen.
  rewrite length_all_cells in Hlen.
  pose proof (area_bound (width m) (height m)). lia.
Qed.

(** *** Reading a path off the predecessor map *)

Lemma chain_nsteps (R : cell -> cell -> Prop) p a b :
  head p = Some a -> last p = Some b -> chain R p ->
  nsteps R (pred (length p)) a b.
Proof.
  revert a. induction p as [|x p IH]; intros a Hh Hl Hc; [done|].
  injection Hh as ->. destruct p as [|y p].
  - injection Hl as ->. constructor.
  - destruct Hc as [HR Hc]. rewrite last_cons_cons in Hl.
    simpl. econstructor; [done|]. by apply (IH y).
Qed.

Lemma tree_path m start P dm :
  search_tree m start P dm ->
  forall d v, dm !! v = Some d ->
    exists p, length p = S d /\ head p = Some start /\ last p = Some v /\
      chain (step m) p /\
      forall fuel acc, (d < fuel)%nat ->
        reconstruct_loop fuel P (Some v) acc = Ok (p ++ reverse acc).
Proof.
  intros [HsP Hsd Hdom Hroot Hpred Hsize].
  induction d as [|d IH]; intros v Hv.
  - assert (is_Some (P !! v)) as [x Hx] by (apply Hdom; eauto).
    destruct x as [u|].
    { destruct (Hpred v u Hx) as (_ & d & _ & Hv'). congruence. }
    apply Hroot in Hx as Hvs. subst v. exists [start]. split_and!; try done.
    intros fuel acc Hf. destruct fuel as [|fuel]; [lia|]. simpl.
    rewrite Hx. destruct fuel; simpl; by rewrite reverse_snoc.
  - assert (is_Some (P !! v)) as [x Hx] by (apply Hdom; eauto).
    destruct x as [u|]; cycle 1.
    { apply Hroot in Hx. subst v. congruence. }
    destruct (Hpred v u Hx) as (Hstep & d' & Hu & Hv').
    assert (d' = d) as -> by congruence.
    destruct (IH u Hu) as (p & Hlen & Hhead & Hlast & Hchain & Hrec).
    exists (p ++ [v]). split_and!.
    + rewrite length_app. simpl. lia.
    + destruct p; [done|]. done.
    + apply last_snoc.
    + apply chain_app. split_and!; [done|done|].
      intros x y Hx' [= <-]. congruence.
    + intros fuel acc Hf. destruct fuel as [|fuel]; [lia|]. simpl.
      rewrite Hx. rewrite Hrec by lia. by rewrite reverse_snoc, <-(assoc_L (++)).
Qed.

Lemma chain_step_path m a b p :
  passage m a -> head p = Some a -> last p = Some b ->
  chain (step m) p -> path (passage m) a b p.
Proof.
  intros Ha Hh Hl Hc. split_and!; try done.
  - clear Hl. revert a Ha Hh Hc. induction p as [|x p IH]; intros a Ha Hh Hc; [done|].
    injection Hh as ->. apply Forall_cons. split; [done|].
    destruct p as [|y p]; [done|]. destruct Hc as [[_ Hy] Hc].
    by apply (IH y).
  - clear Hh Hl. induction p as [|x p IH]; [done|].
    destruct p as [|y p]; [done|]. destruct Hc as [[Hadj _] Hc].
    split; [done|]. by apply IH.
Qed.

Lemma path_chain_step m a b p :
  path (passage m) a b p -> chain (step m) p.
Proof.
  intros (_ & _ & HP & Hc). induction p as [|x p IH]; [done|].
  destruct p as [|y p]; [done|]. destruct Hc as [Hadj Hc].
  apply Forall_cons in HP as [_ HP]. split; [|by apply IH].
  split; [done|]. by apply Forall_cons in HP as [Hy _].
Qed.

Lemma reconstruct_loop_weaken (f1 f2 : nat) (P1 P2 : gmap cell (option cell))
    (cur : option cell) (acc p : list cell) :
  P1 ⊆ P2 -> (f1 <= f2)%nat ->
  reconstruct_loop f1 P1 cur acc = Ok p ->
  reconstruct_loop f2 P2 cur acc = Ok p.
Proof.
  intros Hsub. revert f2 cur acc.
  induction f1 as [|f1 IH]; intros f2 cur acc Hf; destruct cur as [c|]; simpl.
  - by destruct (P1 !! c).
  - destruct f2; done.
  - destruct (P1 !! c) as [x|] eqn:Hc; [|done].
    destruct f2 as [|f2]; [lia|]. simpl.
    rewrite (lookup_weaken _ _ _ _ Hc Hsub). apply IH. lia.
  - destruct f2; done.
Qed.

(** *** The search without the early exit *)

Lemma discover_subseteq (h : cell) (ns Q : list cell)
    (P : gmap cell (option cell)) Q' P' :
  discover h ns Q P = (Q', P') -> P ⊆ P'.
Proof.
  revert Q P. induction ns as [|n ns IH]; intros Q P; simpl.
  - by intros [= _ <-].
  - case_decide as Hn.
    + intros Hd%IH. etrans; [|done]. by apply insert_subseteq.
    + apply IH.
Qed.

Lemma discover_queue (h : cell) (ns Q : list cell)
    (P : gmap cell (option cell)) Q' P' q :
  discover h ns Q P = (Q', P') -> q ∈ Q' -> q ∈ Q \/ q ∈ ns.
Proof.
  revert Q P. induction ns as [|n ns IH]; intros Q P; simpl.
  - intros [= <- _]. by left.
  - case_decide as Hn.
    + intros Hd Hq. destruct (IH _ _ Hd Hq) as [Hq'|Hq']; set_solver.
    + intros Hd Hq. destruct (IH _ _ Hd Hq) as [Hq'|Hq']; set_solver.
Qed.

Lemma solve_loop_no_exit_mono (fuel : nat) (m : Maze) (Q : list cell)
    (P P' : gmap cell (option cell)) :
  solve_loop_no_exit fuel m Q P = Ok P' -> P ⊆ P'.
Proof.
  revert Q P. induction fuel as [|fuel IH]; intros Q P; simpl; [done|].
  destruct Q as [|h rest]; [by intros [= <-]|].
  intros (ns & Hns & Hloop)%bind_Ok.
  destruct (discover h ns rest P) as [Q1 P1] eqn:Hd.
  apply IH in Hloop. apply discover_subseteq in Hd. by etrans.
Qed.

Lemma solve_loop_prefix (fuel : nat) (m : Maze) (goal : cell) (Q : list cell)
    (P P1 P2 : gmap cell (option cell)) :
  solve_loop fuel m goal Q P = Ok P1 ->
  solve_loop_no_exit fuel m Q P = Ok P2 -> P1 ⊆ P2.
Proof.
  revert Q P. induction fuel as [|fuel IH]; intros Q P; simpl; [done|].
  destruct Q as [|h rest]; [by intros [= <-] [= <-]|].
  case_decide as Hg.
  - intros [= <-] (ns & Hns & Hloop)%bind_Ok.
    destruct (discover h ns rest P) as [Q1 P1'] eqn:Hd.
    apply solve_loop_no_exit_mono in Hloop. apply discover_subseteq in Hd.
    by etrans.
  - intros (ns & Hns & Hloop)%bind_Ok (ns' & Hns' & Hloop')%bind_Ok.
    assert (ns' = ns) as -> by congruence.
    destruct (discover h ns rest P) as [Q1 P1'] eqn:Hd.
    by apply (IH Q1 P1').
Qed.

Lemma solve_loop_never_goal (fuel : nat) (m : Maze) (g : cell) (Q : list cell)
    (P : gmap cell (option cell)) :
  wf_maze m -> ~ in_grid m g -> g ∉ Q ->
  solve_loop fuel m g Q P = solve_loop_no_exit fuel m Q P.
Proof.
  intros Hwf Hg. revert Q P.
  induction fuel as [|fuel IH]; intros Q P HQ; simpl; [done|].
  destruct Q as [|h rest]; [done|].
  rewrite decide_False by set_solver.
  destruct (neighbors_spec m h Hwf) as (ns & Hns & Hspec).
  rewrite Hns, !result_bind_Ok.
  destruct (discover h ns rest P) as [Q1 P1] eqn:Hd.
  apply IH. intros Hq. destruct (discover_queue _ _ _ _ _ _ _ Hd Hq) as [?|Hin].
  - set_solver.
  - apply Hspec in Hin as [_ [Hin _]]. done.
Qed.

Lemma solve_loop_no_exit_total m start :
  wf_maze m ->
  exists P, solve_loop_no_exit (solve_fuel m) m [start] {[start := None]} = Ok P.
Proof.
  intros Hwf.
  set (g := if decide (start = (-1, -1)) then (-2, -2) else (-1, -1) : cell).
  assert (~ in_grid m g) as Hg.
  { unfold g, in_grid. case_decide; simpl; lia. }
  assert (g ∉ [start]) as Hq.
  { unfold g. case_decide; set_solver. }
  destruct (solve_loop_start m start g Hwf) as (P & dm & Hloop & _).
  exists P. by rewrite <-(solve_loop_never_goal _ _ g).
Qed.

(** ** Properties of the solver *)

Lemma solve_unfold m start goal P0 :
  solve_loop (solve_fuel m) m goal [start] {[start := None]} = Ok P0 ->
  solve m start goal = Ok (if decide (is_Some (P0 !! goal)) then P0 else ∅).
Proof. intros H. unfold solve. by rewrite H. Qed.

Lemma solve_no_exit_unfold m start goal P0 :
  solve_loop_no_exit (solve_fuel m) m [start] {[start := None]} = Ok P0 ->
  solve_no_exit m start goal =
    Ok (if decide (is_Some (P0 !! goal)) then P0 else ∅).
Proof. intros H. unfold solve_no_exit. by rewrite H. Qed.

Lemma search_tree_reachable m start P dm v :
  search_tree m start P dm -> is_Some (P !! v) ->
  exists d, dm !! v = Some d /\ nsteps (step m) d start v.
Proof.
  intros Ht Hv. apply (st_dom _ _ _ _ Ht) in Hv as [d Hd]. exists d.
  split; [done|].
  destruct (tree_path _ _ _ _ Ht d v Hd) as (p & Hlen & Hh & Hl & Hc & _).
  replace d with (pred (length p)) by (by rewrite Hlen). by apply chain_nsteps.
Qed.

(** The solver on the hand-built mazes. *)
Example solve_maze5 :
  (preds ← solve maze5 (1, 1) (3, 3); reconstruct_path preds (3, 3))
  = Ok [(1, 1); (2, 1); (3, 1); (3, 2); (3, 3)].
Proof. by vm_compute. Qed.

Example solve_maze_split : solve maze_split (1, 1) (3, 1) = Ok ∅.
Proof. by vm_compute. Qed.

(** C2: for a well-formed maze and passage cells [start] and [goal] with
    [goal] reachable from [start], [solve] followed by [reconstruct_path]
    returns a list that begins with [start], ends with [goal], moves only
    between 4-adjacent passage cells and has as many moves as the shortest
    distance from [start] to [goal]; no path from [start] to [goal] is
    shorter; and the search without the early exit yields the same list. *)
Theorem solve_shortest_path m start goal :
  wf_maze m -> passage m start -> passage m goal -> reachable m start goal ->
  exists preds p,
    solve m start goal = Ok preds /\
    reconstruct_path preds goal = Ok p /\
    path (passage m) start goal p /\
    shortest_distance m start goal (pred (length p)) /\
    (forall q, path (passage m) start goal q -> (length p <= length q)%nat) /\
    exists preds',
      solve_no_exit m start goal = Ok preds' /\
      reconstruct_path preds' goal = Ok p.
Proof.
  intros Hwf Hs Hg Hreach.
  destruct (solve_loop_start m start goal Hwf) as (P & dm & Hloop & [Ht Hshort Hcompl]).
  apply rtc_nsteps in Hreach as [k0 Hk0].
  pose proof (Hcompl k0 Hk0) as [d Hd].
  assert (is_Some (P !! goal)) as HPg by (apply (st_dom _ _ _ _ Ht); eauto).
  destruct (tree_path _ _ _ _ Ht d goal Hd) as (p & Hlen & Hh & Hl & Hc & Hrec).
  assert (reconstruct_path P goal = Ok p) as HrecP.
  { unfold reconstruct_path. rewrite Hrec; [by rewrite app_nil_r|].
    by apply (st_size _ _ _ _ Ht goal). }
  exists P, p. split_and!.
  - rewrite (solve_unfold _ _ _ _ Hloop). by rewrite decide_True.
  - done.
  - by apply chain_step_path.
  - split.
    + by apply chain_nsteps.
    + intros k' Hk'. rewrite Hlen. simpl. by apply (Hshort d).
  - intros q Hq. pose proof (path_chain_step _ _ _ _ Hq) as Hcq.
    destruct Hq as (Hhq & Hlq & _).
    pose proof (chain_nsteps _ _ _ _ Hhq Hlq Hcq) as Hn.
    apply (Hshort d) in Hn; [|done].
    destruct q as [|x q]; [done|]. simpl in *. lia.
  - destruct (solve_loop_no_exit_total m start Hwf) as (P2 & Hloop2).
    pose proof (solve_loop_prefix _ _ _ _ _ _ _ Hloop Hloop2) as Hsub.
    exists P2. split.
    + rewrite (solve_no_exit_unfold _ _ _ _ Hloop2). rewrite decide_True; [done|].
      destruct HPg as [x Hx]. exists x. by eapply lookup_weaken.
    + unfold reconstruct_path in *.
      eapply reconstruct_loop_weaken; [done| |done].
      by apply map_subseteq_size.
Qed.

Lemma solve_shortest_path_witness :
  exists preds p,
    solve maze5 (1, 1) (3, 3) = Ok preds /\
    reconstruct_path preds (3, 3) = Ok p /\
    path (passage maze5) (1, 1) (3, 3) p /\
    shortest_distance maze5 (1, 1) (3, 3) (pred (length p)) /\
    (forall q, path (passage maze5) (1, 1) (3, 3) q -> (length p <= length q)%nat) /\
    exists preds',
      solve_no_exit maze5 (1, 1) (3, 3) = Ok preds' /\
      reconstruct_path preds' (3, 3) = Ok p.
Proof.
  apply (solve_shortest_path maze5 (1, 1) (3, 3)).
  - apply (bool_decide_unpack _). by vm_compute.
  - apply (bool_decide_unpack _). by vm_compute.
  - apply (bool_decide_unpack _). by vm_compute.
  - apply (rtc_nsteps_2 4).
    apply (nsteps_l _ _ _ (2, 1)); [apply (bool_decide_unpack _); by vm_compute|].
    apply (nsteps_l _ _ _ (3, 1)); [apply (bool_decide_unpack _); by vm_compute|].
    apply (nsteps_l _ _ _ (3, 2)); [apply (bool_decide_unpack _); by vm_compute|].
    apply (nsteps_l _ _ _ (3, 3)); [apply (bool_decide_unpack _); by vm_compute|].
    apply nsteps_O.
Defined.

(** C5: for a well-formed maze and cells [start] and [goal] of the grid,
    [solve] returns normally, and the map it returns is empty exactly
    when [goal] cannot be reached from [start] by moves to adjacent
    passage cells. *)
Theorem solve_empty_iff_unreachable m start goal :
  wf_maze m -> in_grid m start -> in_grid m goal ->
  exists preds,
    solve m start goal = Ok preds /\
    (preds = ∅ <-> ~ reachable m start goal).
Proof.
  intros Hwf _ _.
  destruct (solve_loop_start m start goal Hwf) as (P & dm & Hloop & [Ht Hshort Hcompl]).
  eexists. split; [by apply solve_unfold|].
  case_decide as HPg.
  - split.
    + intros ->. destruct HPg as [x Hx]. by rewrite lookup_empty in Hx.
    + intros Hnot. exfalso. apply Hnot.
      destruct (search_tree_reachable _ _ _ _ _ Ht HPg) as (d & _ & Hn).
      by eapply rtc_nsteps_2.
  - split; [|done]. intros _ [k Hk]%rtc_nsteps. apply HPg.
    apply (st_dom _ _ _ _ Ht). by apply (Hcompl k).
Qed.

(** C8: [solve(c, c)] returns the map with the single entry from [c] to
    no predecessor, and [reconstruct_path] on that map with goal [c]
    returns the one-element list [[c]]; in particular for [c = (1, 1)]. *)
Theorem solve_same_cell m c :
  solve m c c = Ok {[c := None]} /\
  reconstruct_path {[c := None]} c = Ok [c] /\
  (preds ← solve m (1, 1) (1, 1); reconstruct_path preds (1, 1)) = Ok [(1, 1)].
Proof.
  assert (forall c : cell, solve m c c = Ok {[c := None]}) as Hsolve.
  { intros c'. unfold solve, solve_fuel. simpl. rewrite decide_True by done.
    rewrite result_bind_Ok. rewrite decide_True; [done|].
    rewrite lookup_singleton_eq. by eexists. }
  assert (forall c : cell,
    reconstruct_path ({[c := None]} : gmap cell (option cell)) c = Ok [c]) as Hrec.
  { intros c'. unfold reconstruct_path. rewrite map_size_singleton. simpl.
    by rewrite lookup_singleton_eq. }
  split_and!; [done|done|]. by rewrite Hsolve, result_bind_Ok.
Qed.

Lemma solve_empty_iff_unreachable_witness :
  exists preds,
    solve maze5 (1, 1) (3, 3) = Ok preds /\
    (preds = ∅ <-> ~ reachable maze5 (1, 1) (3, 3)).
Proof.
  apply (solve_empty_iff_unreachable maze5 (1, 1) (3, 3)).
  - apply (bool_decide_unpack _). by vm_compute.
  - apply (bool_decide_unpack _). by vm_compute.
  - apply (bool_decide_unpack _). by vm_compute.
Defined.

(** ** The game *)

Lemma compute_solution_total m a b :
  wf_maze m -> exists p cs, compute_solution m a b = Ok (p, cs).
Proof.
  intros Hwf.
  destruct (solve_loop_start m a b Hwf) as (P & dm & Hloop & [Ht _ _]).
  unfold compute_solution. rewrite (solve_unfold _ _ _ _ Hloop), result_bind_Ok.
  destruct (decide (is_Some (P !! b))) as [HPb|HPb].
  - case_decide; [by eexists _, _|].
    apply (st_dom _ _ _ _ Ht) in HPb as [d Hd].
    destruct (tree_path _ _ _ _ Ht d b Hd) as (p & _ & _ & _ & _ & Hrec).
    unfold reconstruct_path. rewrite Hrec by (by apply (st_size _ _ _ _ Ht b)).
    rewrite result_bind_Ok. by eexists _, _.
  - rewrite decide_True by done. by eexists _, _.
Qed.

Lemma gen_inv_border m c : gen_inv m -> on_border m c -> wall m c.
Proof.
  intros Hinv [Hin Hb]. split; [done|].
  destruct Hin as [Hx Hy].
  destruct (cell_at_is_Some _ _ _ c.1 c.2 (gi_wf _ Hinv) Hx Hy) as [v Hv].
  destruct (gi_bits _ Hinv c.1 c.2 v) as [-> | ->]; [lia|lia|done| |done].
  exfalso. assert (passage m c) as Hp by done.
  apply (gi_interior _ Hinv) in Hp as [? ?]. lia.
Qed.

Lemma game_inv_interior g c :
  game_inv g -> passage (maze g) c -> interior (maze g) c.
Proof.
  intros [Hwf Hdims Hborder _] [[Hx Hy] Hc]. unfold interior.
  destruct (decide (c.1 = 0 \/ c.1 = width (maze g) - 1 \/
                    c.2 = 0 \/ c.2 = height (maze g) - 1)) as [Hb|Hb]; [|lia].
  destruct (Hborder c) as [_ Hw]; [done|]. congruence.
Qed.

Lemma odd_round_ge n : n <= odd_round n.
Proof. unfold odd_round. case_decide; lia. Qed.

Lemma fresh_game_inv w h r :
  3 <= odd_round w -> 3 <= odd_round h ->
  exists m r' p cs,
    Maze_init w h r = Ok (m, r') /\
    compute_solution m (1, 1) (width m - 2, height m - 2) = Ok (p, cs) /\
    game_inv {| maze := m; player_pos := (1, 1);
                goal_pos := (width m - 2, height m - 2);
                show_solution := false; solution_path := p |}.
Proof.
  intros Hw Hh.
  destruct (Maze_init_inv w h r Hw Hh) as (m & r' & Hinit & Hinv & Hwm & Hhm).
  destruct (compute_solution_total m (1, 1) (width m - 2, height m - 2)
              (gi_wf _ Hinv)) as (p & cs & Hsol).
  exists m, r', p, cs. split_and!; [done|done|].
  split; simpl.
  - apply (gi_wf _ Hinv).
  - apply (gi_dims _ Hinv).
  - intros c. by apply gen_inv_border.
  - apply (gi_start _ Hinv).
Qed.

Lemma MazeGame_init_total w h r :
  3 <= odd_round w -> 3 <= odd_round h ->
  exists g r' cs, MazeGame_init w h r = Ok (g, r', cs) /\ game_inv g.
Proof.
  intros Hw Hh.
  destruct (fresh_game_inv w h r Hw Hh) as (m & r' & p & cs & Hinit & Hsol & Hinv).
  unfold MazeGame_init. rewrite Hinit, result_bind_Ok. cbv beta iota.
  rewrite Hsol, result_bind_Ok. by eexists _, _, _.
Qed.

Lemma MazeGame_init_inv w h r g r' cs :
  3 <= odd_round w -> 3 <= odd_round h ->
  MazeGame_init w h r = Ok (g, r', cs) -> game_inv g.
Proof.
  intros Hw Hh Hg.
  destruct (MazeGame_init_total w h r Hw Hh) as (g1 & r1 & cs1 & Hinit & Hinv).
  congruence.
Qed.

Lemma new_maze_total g r :
  game_inv g ->
  exists g' r' cs, new_maze g r = Ok (g', r', cs) /\ game_inv g'.
Proof.
  intros [_ [Hw Hh] _ _].
  destruct (fresh_game_inv (width (maze g)) (height (maze g)) r)
    as (m & r' & p & cs & Hinit & Hsol & Hinv).
  { pose proof (odd_round_ge (width (maze g))). lia. }
  { pose proof (odd_round_ge (height (maze g))). lia. }
  unfold new_maze. rewrite Hinit, result_bind_Ok. cbv beta iota.
  rewrite Hsol, result_bind_Ok. by eexists _, _, _.
Qed.

Lemma check_win_game g r cs : game (check_win g r cs) = g.
Proof. unfold check_win. by case_decide. Qed.

Lemma check_win_rng g r cs : rng (check_win g r cs) = r.
Proof. unfold check_win. by case_decide. Qed.

Lemma keymap_unit key dx dy :
  keymap key = Some (dx, dy) -> (dx, dy) ∈ unit_moves.
Proof.
  unfold keymap, unit_moves. repeat case_decide; intros [= <- <-]; set_solver.
Qed.

(** The read [grid[new_y][new_x]] of a move from a cell inside the
    border. *)
Lemma move_target_in_grid g dx dy :
  game_inv g -> (dx, dy) ∈ unit_moves ->
  in_grid (maze g) ((player_pos g).1 + dx, (player_pos g).2 + dy) /\
  exists v,
    grid_get (grid (maze g)) ((player_pos g).1 + dx) ((player_pos g).2 + dy)
      = Ok v /\
    cell_at (grid (maze g)) ((player_pos g).1 + dx) ((player_pos g).2 + dy)
      = Some v.
Proof.
  intros Hinv Hd.
  pose proof (game_inv_interior _ _ Hinv (gv_player _ Hinv)) as [Hx Hy].
  assert (Z.abs dx + Z.abs dy = 1) as Habs.
  { unfold unit_moves in Hd. rewrite !elem_of_cons, elem_of_nil in Hd.
    destruct Hd as [[= -> ->]|[[= -> ->]|[[= -> ->]|[[= -> ->]|[]]]]]; done. }
  assert (0 <= (player_pos g).1 + dx < width (maze g)) as Hx' by lia.
  assert (0 <= (player_pos g).2 + dy < height (maze g)) as Hy' by lia.
  split; [done|]. by apply (grid_get_in _ _ _ _ _ (gv_wf _ Hinv)).
Qed.

Lemma handle_input_inv g key r :
  game_inv g -> exists o, handle_input g key r = Ok o /\ game_inv (game o).
Proof.
  intros Hinv. unfold handle_input.
  destruct (keymap key) as [[dx dy]|] eqn:Hkey.
  - destruct (move_target_in_grid g dx dy Hinv (keymap_unit _ _ _ Hkey))
      as (Hin & v & Hget & Hcell).
    rewrite Hget, result_bind_Ok. case_decide as Hv.
    + subst v.
      destruct (compute_solution_total (maze g)
                  ((player_pos g).1 + dx, (player_pos g).2 + dy) (goal_pos g)
                  (gv_wf _ Hinv)) as (p & cs & Hsol).
      rewrite Hsol, result_bind_Ok. cbv beta iota.
      eexists. split; [done|]. rewrite check_win_game.
      destruct Hinv as [Hwf Hdims Hborder Hplayer]. by split.
    + eexists. split; [done|]. by rewrite check_win_game.
  - case_decide; [by eexists|]. case_decide.
    + eexists. split; [done|]. rewrite check_win_game.
      destruct Hinv as [Hwf Hdims Hborder Hplayer]. by split.
    + case_decide.
      * destruct (new_maze_total g r Hinv) as (g' & r' & cs & Hnew & Hinv').
        rewrite Hnew, result_bind_Ok. cbv beta iota.
        eexists. split; [done|]. by rewrite check_win_game.
      * eexists. split; [done|]. by rewrite check_win_game.
Qed.

Lemma key_step_inv ph g key r :
  game_inv g -> exists o, key_step ph g key r = Ok o /\ game_inv (game o).
Proof.
  intros Hinv. destruct ph; simpl.
  - by apply handle_input_inv.
  - unfold handle_win_input. case_decide; [by eexists|].
    case_decide; [|by eexists].
    destruct (new_maze_total g r Hinv) as (g' & r' & cs & Hnew & Hinv').
    rewrite Hnew, result_bind_Ok. cbv beta iota. by eexists.
  - by eexists.
Qed.

Lemma reachable_state_inv w h ph g r :
  3 <= odd_round w -> 3 <= odd_round h ->
  reachable_state w h ph g r -> game_inv g.
Proof.
  intros Hw Hh. induction 1 as [r g r' cs Hinit|ph g r key o Hreach IH Hstep].
  - by eapply (MazeGame_init_inv w h r).
  - destruct (key_step_inv ph g key r IH) as (o' & Hstep' & Hinv).
    congruence.
Qed.

(** C10: in every state a game created with rounded width and height of
    at least 3 can reach, every cell on the outer boundary of the grid is
    a wall and the player stands on a passage cell strictly inside the
    boundary; so for each of the four unit moves the cell that
    [handle_input] reads lies inside the grid and the read succeeds, and
    every key is handled without an exception. *)
Theorem reachable_states_bordered w h ph g r :
  3 <= odd_round w -> 3 <= odd_round h ->
  reachable_state w h ph g r ->
  (3 <= width (maze g) /\ 3 <= height (maze g)) /\
  (forall c, on_border (maze g) c -> wall (maze g) c) /\
  passage (maze g) (player_pos g) /\
  interior (maze g) (player_pos g) /\
  (forall dx dy, (dx, dy) ∈ unit_moves ->
     in_grid (maze g) ((player_pos g).1 + dx, (player_pos g).2 + dy) /\
     exists v, grid_get (grid (maze g))
                 ((player_pos g).1 + dx) ((player_pos g).2 + dy) = Ok v) /\
  (forall key, exists o, key_step ph g key r = Ok o).
Proof.
  intros Hw Hh Hreach.
  pose proof (reachable_state_inv w h ph g r Hw Hh Hreach) as Hinv.
  split_and!.
  - apply (gv_dims _ Hinv).
  - apply (gv_dims _ Hinv).
  - apply (gv_border _ Hinv).
  - apply (gv_player _ Hinv).
  - apply (game_inv_interior _ _ Hinv (gv_player _ Hinv)).
  - intros dx dy Hd.
    destruct (move_target_in_grid g dx dy Hinv Hd) as (Hin & v & Hget & _).
    split; [done|]. by exists v.
  - intros key. destruct (key_step_inv ph g key r Hinv) as (o & Hstep & _).
    by exists o.
Qed.

Lemma game3_created :
  MazeGame_init 3 3 seed0 =
    Ok (game3, seed0_after3,
        [CallMaze 3 3; CallSolve (1, 1) (1, 1); CallReconstruct (1, 1)]).
Proof. by vm_compute. Qed.

Lemma reachable_states_bordered_witness :
  (3 <= width (maze game3) /\ 3 <= height (maze game3)) /\
  (forall c, on_border (maze game3) c -> wall (maze game3) c) /\
  passage (maze game3) (player_pos game3) /\
  interior (maze game3) (player_pos game3) /\
  (forall dx dy, (dx, dy) ∈ unit_moves ->
     in_grid (maze game3) ((player_pos game3).1 + dx, (player_pos game3).2 + dy) /\
     exists v, grid_get (grid (maze game3))
                 ((player_pos game3).1 + dx) ((player_pos game3).2 + dy) = Ok v) /\
  (forall key, exists o, key_step Playing game3 key seed0_after3 = Ok o).
Proof.
  apply (reachable_states_bordered 3 3 Playing game3 seed0_after3).
  - by vm_compute.
  - by vm_compute.
  - apply (reach_init 3 3 seed0 game3 seed0_after3 _ game3_created).
Defined.

(** C6, as the code has it: a move whose target cell is a wall leaves the
    maze, the player position, the goal, the visibility flag and the
    cached path unchanged, consumes no randomness and recomputes nothing;
    the game stays in [Playing] when the player is not on the goal cell,
    and the win check that ends every key handling moves it to [Won]
    when the player already stands on the goal cell. *)
Theorem wall_move_is_noop g key r dx dy :
  keymap key = Some (dx, dy) ->
  grid_get (grid (maze g)) ((player_pos g).1 + dx) ((player_pos g).2 + dy)
    = Ok 1 ->
  exists o, handle_input g key r = Ok o /\
    game o = g /\ rng o = r /\ no_recompute (calls o) /\
    (player_pos g <> goal_pos g -> next o = Playing) /\
    (player_pos g = goal_pos g -> next o = Won).
Proof.
  intros Hkey Hwall. unfold handle_input. rewrite Hkey, Hwall, result_bind_Ok.
  rewrite decide_False by done. eexists. split; [done|].
  unfold check_win. case_decide; simpl; split_and!; try done.
  - apply Forall_singleton. done.
  - apply Forall_nil. done.
Qed.

Lemma wall_move_is_noop_witness :
  exists o, handle_input game5 KEY_UP seed0 = Ok o /\
    game o = game5 /\ rng o = seed0 /\ no_recompute (calls o) /\
    (player_pos game5 <> goal_pos game5 -> next o = Playing) /\
    (player_pos game5 = goal_pos game5 -> next o = Won).
Proof.
  apply (wall_move_is_noop game5 KEY_UP seed0 0 (-1)); reflexivity.
Defined.

(** C6, counterexample to the sentence as written: in the game that
    [MazeGame(stdscr, 3, 3)] creates the player starts on the goal cell;
    the arrow key up targets the wall (1,0), the move is rejected, and
    the win check leaves [Playing] for [Won]. *)
Lemma wall_move_leaves_playing :
  (exists cs, MazeGame_init 3 3 seed0 = Ok (game3, seed0_after3, cs)) /\
  grid_get (grid (maze game3)) 1 0 = Ok 1 /\
  (exists o, handle_input game3 KEY_UP seed0_after3 = Ok o /\
             game o = game3 /\ next o = Won) /\
  ~ wall_move_keeps_playing.
Proof.
  split_and!.
  - eexists. by vm_compute.
  - reflexivity.
  - eexists. split; [reflexivity|]. split; reflexivity.
  - intros Hclaim.
    destruct (Hclaim game3 KEY_UP seed0_after3 0 (-1)) as (o & Ho & _ & Hnext);
      [reflexivity..|].
    vm_compute in Ho. injection Ho as <-. discriminate Hnext.
Qed.

(** C7: the key [s] (or [S]) flips the visibility flag and nothing else:
    the maze, the player position, the goal cell and the cached path are
    the same afterwards, the random generator is untouched, and neither
    [solve] nor [reconstruct_path] is called. *)
Theorem toggle_flips_flag_only g key r :
  key = ord_s \/ key = ord_S ->
  exists o, handle_input g key r = Ok o /\
    maze (game o) = maze g /\
    player_pos (game o) = player_pos g /\
    goal_pos (game o) = goal_pos g /\
    solution_path (game o) = solution_path g /\
    show_solution (game o) = negb (show_solution g) /\
    rng o = r /\
    no_recompute (calls o).
Proof.
  intros Hkey. unfold handle_input.
  assert (keymap key = None) as -> by (destruct Hkey as [-> | ->]; reflexivity).
  rewrite decide_False by (unfold ord_s, ord_S, ord_q, ord_Q in *; lia).
  rewrite decide_True by done.
  eexists. split; [done|]. rewrite check_win_game, check_win_rng. simpl.
  split_and!; try done.
  unfold check_win. case_decide; simpl.
  - apply Forall_singleton. done.
  - apply Forall_nil. done.
Qed.

Lemma toggle_flips_flag_only_witness :
  exists o, handle_input game5 ord_s seed0 = Ok o /\
    maze (game o) = maze game5 /\
    player_pos (game o) = player_pos game5 /\
    goal_pos (game o) = goal_pos game5 /\
    solution_path (game o) = solution_path game5 /\
    show_solution (game o) = negb (show_solution game5) /\
    rng o = seed0 /\
    no_recompute (calls o).
Proof. apply (toggle_flips_flag_only game5 ord_s seed0). by left. Defined.

(** ** The generator carves every room *)

Lemma elem_of_swap_keeps {A} (x : list A) i j d : d ∈ x -> d ∈ swap x i j.
Proof.
  unfold swap.
  destruct (x !! i) as [a|] eqn:Hi; [|done].
  destruct (x !! j) as [b|] eqn:Hj; [|done].
  intros [k Hk]%list_elem_of_lookup.
  pose proof (lookup_lt_Some _ _ _ Hi) as Hli.
  pose proof (lookup_lt_Some _ _ _ Hj) as Hlj.
  destruct (decide (k = i)) as [->|Hki].
  - assert (d = a) as -> by congruence.
    apply list_elem_of_lookup. exists j.
    rewrite list_lookup_insert_eq; [done|]. by rewrite length_insert.
  - destruct (decide (k = j)) as [->|Hkj].
    + assert (d = b) as -> by congruence.
      apply list_elem_of_lookup. exists i.
      rewrite list_lookup_insert_ne by done.
      by rewrite list_lookup_insert_eq.
    + apply list_elem_of_lookup. exists k.
      by rewrite !list_lookup_insert_ne.
Qed.

Lemma elem_of_shuffle_from_keeps {A} i (x : list A) r d :
  d ∈ x -> d ∈ (shuffle_from i x r).1.
Proof.
  revert x r. induction i as [|i IH]; intros x r Hd; simpl; [done|].
  apply IH. by apply elem_of_swap_keeps.
Qed.

Lemma elem_of_shuffle_keeps {A} (x : list A) r d :
  d ∈ x -> d ∈ (shuffle x r).1.
Proof. apply elem_of_shuffle_from_keeps. Qed.

Lemma carve_first_none m x y dirs dx dy :
  wf_maze m -> carve_first m x y dirs = Ok None ->
  (dx, dy) ∈ dirs ->
  1 <= x + dx < width m - 1 -> 1 <= y + dy < height m - 1 ->
  cell_at (grid m) (x + dx) (y + dy) <> Some 1.
Proof.
  intros Hwf. induction dirs as [|[dx' dy'] dirs IH]; intros Hnone Hd Hbx Hby.
  { by apply elem_of_nil in Hd. }
  simpl in Hnone.
  destruct (decide (1 <= x + dx' < width m - 1 /\ 1 <= y + dy' < height m - 1))
    as [[Hbx' Hby']|Hout].
  - destruct (grid_get_in _ _ _ (x + dx') (y + dy') Hwf) as (v & Hget & Hv);
      [lia..|].
    rewrite Hget, result_bind_Ok in Hnone.
    destruct (decide (v = 1)) as [->|Hv1].
    + destruct (grid_set _ _ _ _) as [g1| |]; [|done..].
      rewrite result_bind_Ok in Hnone.
      destruct (grid_set g1 _ _ _) as [g2| |]; done.
    + apply elem_of_cons in Hd as [[= -> ->]|Hd]; [congruence|by apply IH].
  - apply elem_of_cons in Hd as [[= -> ->]|Hd]; [tauto|by apply IH].
Qed.

Lemma generate_loop_full fuel m stack dirs r :
  gen_inv m -> stack_ok m stack -> rooms_closed m stack ->
  (forall d, d ∈ dirs <-> d ∈ directions0) ->
  (2 * (Z.to_nat (height m) * Z.to_nat (width m)) + length stack
     < fuel + 2 * count_cells (passage m) (width m) (height m))%nat ->
  exists m' r',
    generate_loop fuel m stack dirs r = Ok (m', r') /\
    gen_inv m' /\ rooms_closed m' [].
Proof.
  revert m stack dirs r.
  induction fuel as [|fuel IH]; intros m stack dirs r Hinv Hstack Hclosed Hdirs Hfuel.
  { pose proof (count_cells_bound (passage m) (width m) (height m)). lia. }
  simpl. destruct stack as [|[x y] below]; [by eexists _, _|].
  destruct (shuffle dirs r) as [dirs' r'] eqn:Hsh.
  assert (forall d, d ∈ dirs' <-> d ∈ directions0) as Hdirs'.
  { intros d. rewrite <-Hdirs. replace dirs' with (shuffle dirs r).1 by (by rewrite Hsh).
    split; [apply elem_of_shuffle | apply elem_of_shuffle_keeps]. }
  apply Forall_cons in Hstack as [[Hxy Hroom] Hbelow].
  destruct (carve_first_spec m x y dirs' (gi_wf _ Hinv))
    as [Hnone|(m' & dx & dy & Hsome & Hd & Hbx & Hby & Hwall & Hcarved)].
  { intros d. apply Hdirs'. }
  - rewrite Hnone, result_bind_Ok. apply IH; try done; [|simpl in Hfuel; lia].
    intros cx cy dx dy Hc Hnot Hd Hbx Hby.
    destruct (decide ((cx, cy) = (x, y))) as [[= -> ->]|Hne].
    + pose proof (carve_first_none m x y dirs' dx dy (gi_wf _ Hinv) Hnone
                    (proj2 (Hdirs' _) Hd) Hbx Hby) as Hnot1.
      destruct (cell_at_is_Some _ _ _ (x + dx) (y + dy) (gi_wf _ Hinv))
        as [v Hv]; [lia..|].
      destruct (gi_bits _ Hinv (x + dx) (y + dy) v) as [-> | ->];
        [lia|lia|done| |done].
      split; [split; simpl; lia|done].
    + apply Hclosed; try done. set_solver.
  - rewrite Hsome, result_bind_Ok.
    destruct (carve_inv _ _ _ _ _ _ Hinv Hxy Hroom Hd Hbx Hby Hwall Hcarved)
      as (Hinv' & Hmono & Hn & Hnroom & Hcnt).
    pose proof (fun c => passage_carved m m' x y dx dy c Hd Hbx Hby Hcarved) as Hpass.
    destruct (direction_unit _ _ Hd) as (mx & my & Hmx & Hmy & Hdx & Hdy & Habs).
    destruct Hcarved as (Hw & Hh & _).
    apply (IH m' ((x + dx, y + dy) :: (x, y) :: below) dirs' r'); try done.
    + apply Forall_cons. split; [done|]. apply Forall_cons. split; [auto|].
      eapply Forall_impl; [done|]. intros c [Hc Hr]. auto.
    + intros cx cy dx' dy' [Hc Hcroom] Hnot Hd' Hbx' Hby'.
      apply Hmono. rewrite Hw in Hbx'. rewrite Hh in Hby'.
      apply Hclosed; try done; [|set_solver].
      split; [|done]. apply Hpass in Hc as [[Hc|Hc]|Hc]; [done| |set_solver].
      exfalso. injection Hc as -> ->.
      destruct Hcroom as [H1 H2], Hroom as [H3 H4]. simpl in *. zlia.
    + rewrite Hcnt, Hw, Hh. simpl in *. lia.
Qed.

Lemma Maze_init_full w h r :
  3 <= odd_round w -> 3 <= odd_round h ->
  exists m r', Maze_init w h r = Ok (m, r') /\ gen_inv m /\ rooms_closed m [] /\
    width m = odd_round w /\ height m = odd_round h.
Proof.
  intros Hw Hh.
  destruct (Maze_init_inv w h r Hw Hh) as (m & r' & Hinit & Hinv & Hwm & Hhm).
  exists m, r'. split_and!; try done.
  revert Hinit. unfold Maze_init, _generate.
  destruct (grid_set_in _ _ _ 1 1 0 (wf_alloc w h)) as (g & Hset & _);
    [simpl; lia..|].
  rewrite Hset, result_bind_Ok.
  destruct (start_cell_inv w h g Hw Hh Hset) as [Hinv0 Hcnt].
  destruct (generate_loop_full (generate_fuel (Maze_alloc w h))
              (with_grid (Maze_alloc w h) g) [(1, 1)] directions0 r)
    as (m1 & r1 & Hloop & _ & Hclosed); try done.
  - apply Forall_singleton. split; [apply (gi_start _ Hinv0)|done].
  - intros x y dx dy [Hc _] Hnot. exfalso. apply Hnot.
    assert (forall c, passage (with_grid (Maze_alloc w h) g) c -> c = (1, 1)) as Hone.
    { intros c Hp. pose proof (gi_interior _ Hinv0 c Hp) as _.
      destruct (grid_set_in _ _ _ 1 1 0 (wf_alloc w h)) as (g' & Hset' & _ & Hcell);
        [simpl; lia..|].
      rewrite Hset in Hset'. injection Hset' as <-.
      destruct Hp as [[Hx Hy] Hp]. simpl in Hp. rewrite Hcell in Hp by lia.
      case_decide as Hd; [destruct c; simpl in *; f_equal; lia|].
      by apply cell_at_alloc in Hp. }
    rewrite (Hone _ Hc). set_solver.
  - simpl. rewrite Hcnt. unfold generate_fuel. simpl.
    rewrite Z2Nat.inj_mul by lia. lia.
  - rewrite Hloop. by intros [= <- _].
Qed.

(** All rooms of a closed maze are carved: walk from (1,1) in steps of 2. *)
Lemma closed_rooms_carved m :
  gen_inv m -> rooms_closed m [] ->
  forall c, is_room c -> interior m c -> passage m c.
Proof.
  intros Hinv Hclosed.
  assert (forall n x y, Z.to_nat (x + y) = n -> is_room (x, y) ->
            interior m (x, y) -> passage m (x, y)) as Hind.
  { induction n as [n IH] using lt_wf_ind. intros x y Hn Hroom Hint.
    destruct Hroom as [Hrx Hry], Hint as [Hix Hiy]. simpl in *.
    destruct (decide (x = 1 /\ y = 1)) as [[-> ->]|Hne].
    { apply (gi_start _ Hinv). }
    destruct (decide (1 < x)) as [Hx|Hx].
    - assert (passage m (x - 2, y)) as Hp.
      { apply (IH (Z.to_nat (x - 2 + y))); [lia|done| |].
        - split; simpl; zlia.
        - split; simpl; zlia. }
      eapply passage_eq; [apply (Hclosed (x - 2) y 2 0)|lia..]; try done.
      + split; [done|]. split; simpl; zlia.
      + set_solver.
      + unfold directions0. set_solver.
      + lia.
      + lia.
    - assert (passage m (x, y - 2)) as Hp.
      { apply (IH (Z.to_nat (x + (y - 2)))); [zlia|done| |].
        - split; simpl; zlia.
        - split; simpl; zlia. }
      eapply passage_eq; [apply (Hclosed x (y - 2) 0 2)|lia..]; try done.
      + split; [done|]. split; simpl; zlia.
      + set_solver.
      + unfold directions0. set_solver.
      + lia.
      + lia. }
  intros [x y] Hroom Hint. by apply (Hind _ x y eq_refl).
Qed.

Lemma odd_round_odd n : odd_round n `mod` 2 = 1.
Proof. unfold odd_round. case_decide; zlia. Qed.

(** X1: for rounded sizes of at least 3 the generator carves every room:
    each cell with two odd coordinates inside the border is a passage of
    the maze it returns, and so is the cell (width-2, height-2) that the
    game uses as its goal. *)
Theorem generated_rooms_all_carved w h r :
  3 <= odd_round w -> 3 <= odd_round h ->
  exists m r', Maze_init w h r = Ok (m, r') /\
    (forall c, is_room c -> interior m c -> passage m c) /\
    passage m (width m - 2, height m - 2).
Proof.
  intros Hw Hh.
  destruct (Maze_init_full w h r Hw Hh) as (m & r' & Hinit & Hinv & Hcl & Hwm & Hhm).
  exists m, r'. split; [done|].
  pose proof (closed_rooms_carved m Hinv Hcl) as Hall. split; [done|].
  pose proof (odd_round_odd w). pose proof (odd_round_odd h).
  apply Hall.
  - split; simpl; rewrite ?Hwm, ?Hhm; zlia.
  - split; simpl; rewrite ?Hwm, ?Hhm; lia.
Qed.

Lemma generated_rooms_all_carved_witness :
  exists m r', Maze_init 7 5 seed0 = Ok (m, r') /\
    (forall c, is_room c -> interior m c -> passage m c) /\
    passage m (width m - 2, height m - 2).
Proof. apply (generated_rooms_all_carved 7 5 seed0); by vm_compute. Defined.

(** X2: the grid of a generated maze has [height] rows of [width] cells,
    each 0 or 1; every cell of the outer border is a wall, and so is
    every cell with two even coordinates; a passage with an even
    coordinate is a door: the two cells on either side of it along that
    axis are passages. *)
Theorem generated_maze_layout w h r :
  3 <= odd_round w -> 3 <= odd_round h ->
  exists m r', Maze_init w h r = Ok (m, r') /\
    wf_maze m /\
    (forall c, in_grid m c -> wall m c \/ passage m c) /\
    (forall c, on_border m c -> wall m c) /\
    (forall c, in_grid m c -> c.1 `mod` 2 = 0 -> c.2 `mod` 2 = 0 -> wall m c) /\
    (forall x y, passage m (x, y) -> x `mod` 2 = 0 ->
       passage m (x - 1, y) /\ passage m (x + 1, y)) /\
    (forall x y, passage m (x, y) -> y `mod` 2 = 0 ->
       passage m (x, y - 1) /\ passage m (x, y + 1)).
Proof.
  intros Hw Hh.
  destruct (Maze_init_inv w h r Hw Hh) as (m & r' & Hinit & Hinv & _).
  exists m, r'.
  assert (forall c, in_grid m c -> wall m c \/ passage m c) as Hbits.
  { intros c Hin. pose proof Hin as [Hx Hy].
    destruct (cell_at_is_Some _ _ _ c.1 c.2 (gi_wf _ Hinv) Hx Hy) as [v Hv].
    destruct (gi_bits _ Hinv c.1 c.2 v) as [-> | ->]; [lia|lia|done|by right|by left]. }
  split_and!; try done.
  - apply (gi_wf _ Hinv).
  - intros c. by apply gen_inv_border.
  - intros c Hin H1 H2. destruct (Hbits c Hin) as [?|Hp]; [done|].
    apply (gi_parity _ Hinv) in Hp. lia.
  - apply (gi_door_h _ Hinv).
  - apply (gi_door_v _ Hinv).
Qed.

Lemma generated_maze_layout_witness :
  exists m r', Maze_init 7 5 seed0 = Ok (m, r') /\
    wf_maze m /\
    (forall c, in_grid m c -> wall m c \/ passage m c) /\
    (forall c, on_border m c -> wall m c) /\
    (forall c, in_grid m c -> c.1 `mod` 2 = 0 -> c.2 `mod` 2 = 0 -> wall m c) /\
    (forall x y, passage m (x, y) -> x `mod` 2 = 0 ->
       passage m (x - 1, y) /\ passage m (x + 1, y)) /\
    (forall x y, passage m (x, y) -> y `mod` 2 = 0 ->
       passage m (x, y - 1) /\ passage m (x, y + 1)).
Proof. apply (generated_maze_layout 7 5 seed0); by vm_compute. Defined.

(** *** The size of a generated maze *)

Lemma filter_ext_elem {A} (P Q : A -> Prop)
    `{!forall x, Decision (P x)} `{!forall x, Decision (Q x)} (l : list A) :
  (forall x, x ∈ l -> P x <-> Q x) -> filter P l = filter Q l.
Proof.
  induction l as [|a l IH]; intros Hl; [done|].
  rewrite !filter_cons. rewrite IH by (intros; apply Hl; set_solver).
  assert (P a <-> Q a) as Ha by (apply Hl; set_solver).
  repeat case_decide; tauto || done.
Qed.

Lemma count_odd_below n :
  length (filter (fun x => x `mod` 2 = 1) (seqZ 0 (Z.of_nat n)))
  = Z.to_nat (Z.of_nat n `div` 2).
Proof.
  induction n as [|n IH]; [done|].
  rewrite seqZ_S, filter_app, length_app, IH, filter_cons, filter_nil.
  case_decide; simpl; zlia.
Qed.

Lemma length_filter_row (A B : Z -> Prop)
    `{!forall x, Decision (A x)} `{!forall y, Decision (B y)}
    (xs : list Z) (y : Z) :
  length (filter (fun c : cell => A c.1 /\ B c.2) (x ← xs; [(x, y)]))
  = if decide (B y) then length (filter A xs) else 0%nat.
Proof.
  unfold cell. induction xs as [|x xs IH].
  { destruct (decide (B y)); reflexivity. }
  rewrite bind_cons, filter_app, length_app, IH.
  rewrite !filter_cons, filter_nil. simpl.
  repeat case_decide; simpl; tauto || lia.
Qed.

Lemma length_filter_grid (A B : Z -> Prop)
    `{!forall x, Decision (A x)} `{!forall y, Decision (B y)}
    (xs ys : list Z) :
  length (filter (fun c : cell => A c.1 /\ B c.2)
                 (y ← ys; x ← xs; [(x, y)]))
  = (length (filter B ys) * length (filter A xs))%nat.
Proof.
  pose proof (length_filter_row A B xs) as Hrow.
  unfold cell in *. induction ys as [|y ys IH]; [done|].
  rewrite bind_cons, filter_app, length_app, IH, Hrow.
  rewrite filter_cons. case_decide; simpl; lia.
Qed.

Lemma count_room_positions w h :
  0 <= w -> 0 <= h ->
  length (filter is_room (all_cells w h))
  = Z.to_nat ((w `div` 2) * (h `div` 2)).
Proof.
  intros Hw Hh.
  pose proof (length_filter_grid (fun x => x `mod` 2 = 1) (fun y => y `mod` 2 = 1)
                (seqZ 0 w) (seqZ 0 h)) as Hgrid.
  assert (filter is_room (all_cells w h)
          = filter (fun c : cell => c.1 `mod` 2 = 1 /\ c.2 `mod` 2 = 1)
                   (all_cells w h)) as -> by (by apply list_filter_iff).
  unfold all_cells. etrans; [exact Hgrid|].
  rewrite <-(Z2Nat.id w), <-(Z2Nat.id h) by done.
  rewrite !count_odd_below, !Z2Nat.id by done.
  rewrite Z2Nat.inj_mul by zlia. lia.
Qed.

(** X3: a generated maze of (rounded) width [w] and height [h] has
    exactly (w div 2) * (h div 2) rooms, one door fewer, and therefore
    twice that number minus one passage cells, whatever the random
    draws. *)
Theorem generated_maze_size w h r :
  3 <= odd_round w -> 3 <= odd_round h ->
  exists m r', Maze_init w h r = Ok (m, r') /\
    length (room_cells m) = Z.to_nat ((width m `div` 2) * (height m `div` 2)) /\
    S (length (door_cells m)) = length (room_cells m) /\
    S (length (passage_cells m)) = (2 * length (room_cells m))%nat.
Proof.
  intros Hw Hh.
  destruct (Maze_init_full w h r Hw Hh) as (m & r' & Hinit & Hinv & Hcl & Hwm & Hhm).
  exists m, r'. split; [done|].
  pose proof (closed_rooms_carved m Hinv Hcl) as Hall.
  pose proof (odd_round_odd w). pose proof (odd_round_odd h).
  assert (length (room_cells m)
          = Z.to_nat ((width m `div` 2) * (height m `div` 2))) as Hrooms.
  { rewrite <-count_room_positions by lia. unfold room_cells. f_equal.
    apply filter_ext_elem. intros c [Hx Hy]%elem_of_all_cells. unfold room.
    split; [tauto|]. intros Hr. split; [|done]. apply Hall; [done|].
    destruct Hr as [H1 H2]. unfold interior. rewrite Hwm, Hhm in *. zlia. }
  pose proof (gi_rooms _ Hinv) as Hrd. unfold count_cells in Hrd.
  fold (room_cells m) in Hrd. fold (door_cells m) in Hrd.
  split_and!; [done|lia|].
  unfold passage_cells.
  rewrite (length_filter_split (room m) (passage m)) by (by intros c _ [? _]).
  fold (room_cells m).
  replace (filter (fun x => passage m x /\ ~ room m x) _) with (door_cells m).
  - lia.
  - unfold door_cells. apply list_filter_iff. intros c. unfold door, room. tauto.
Qed.

Lemma generated_maze_size_witness :
  exists m r', Maze_init 7 5 seed0 = Ok (m, r') /\
    length (room_cells m) = Z.to_nat ((width m `div` 2) * (height m `div` 2)) /\
    S (length (door_cells m)) = length (room_cells m) /\
    S (length (passage_cells m)) = (2 * length (room_cells m))%nat.
Proof. apply (generated_maze_size 7 5 seed0); by vm_compute. Defined.
(** ** The draws of a constructor call *)
















(** ** More on the solver *)

Lemma neighbors_from_sublist m x y offs ns :
  neighbors_from m x y offs = Ok ns ->
  ns `sublist_of` ((fun d : Z * Z => (x + d.1, y + d.2)) <$> offs).
Proof.
  revert ns. induction offs as [|[dx dy] offs IH]; intros ns; simpl.
  { by intros [= <-]. }
  case_decide.
  - intros (v & _ & Hrest)%bind_Ok. apply bind_Ok in Hrest as (tl & Htl & Hns).
    injection Hns as <-. case_decide.
    + apply sublist_skip. by apply IH.
    + apply sublist_cons. by apply IH.
  - intros Hns. apply sublist_cons. by apply IH.
Qed.

Lemma NoDup_neighbor_targets x y :
  NoDup ((fun d : Z * Z => (x + d.1, y + d.2)) <$> neighbor_offsets).
Proof.
  unfold neighbor_offsets. simpl.
  repeat (apply NoDup_cons; split;
          [rewrite ?elem_of_cons, elem_of_nil; intros H;
           repeat (destruct H as [H|H]); try done; injection H; lia|]).
  apply NoDup_nil. done.
Qed.

(** X4: on a well-formed grid [neighbors(x, y)] never raises; it yields
    exactly the passage cells of the grid that are 4-adjacent to (x, y),
    each once, in the order up, down, right, left. *)
Theorem neighbors_yields m c :
  wf_maze m ->
  exists ns, neighbors m c.1 c.2 = Ok ns /\
    (forall v, v ∈ ns <-> adj4 c v /\ passage m v) /\
    NoDup ns /\
    ns `sublist_of` [(c.1, c.2 - 1); (c.1, c.2 + 1); (c.1 + 1, c.2); (c.1 - 1, c.2)].
Proof.
  intros Hwf. destruct (neighbors_spec m c Hwf) as (ns & Hns & Hspec).
  exists ns. split; [done|]. split; [apply Hspec|].
  pose proof (neighbors_from_sublist _ _ _ _ _ Hns) as Hsub.
  split.
  - eapply sublist_NoDup; [apply NoDup_neighbor_targets|apply Hsub].
  - unfold neighbor_offsets in Hsub. simpl in Hsub.
    replace (c.1 + 0) with c.1 in Hsub by lia.
    replace (c.2 + 0) with c.2 in Hsub by lia.
    replace (c.1 + -1) with (c.1 - 1) in Hsub by lia.
    replace (c.2 + -1) with (c.2 - 1) in Hsub by lia. done.
Qed.

Lemma neighbors_yields_witness :
  exists ns, neighbors maze5 (3, 1).1 (3, 1).2 = Ok ns /\
    (forall v, v ∈ ns <-> adj4 (3, 1) v /\ passage maze5 v) /\
    NoDup ns /\
    ns `sublist_of` [((3, 1).1, (3, 1).2 - 1); ((3, 1).1, (3, 1).2 + 1);
                     ((3, 1).1 + 1, (3, 1).2); ((3, 1).1 - 1, (3, 1).2)].
Proof.
  apply (neighbors_yields maze5 (3, 1)).
  apply (bool_decide_unpack _). by vm_compute.
Defined.

Lemma solve_Ok_inv m start goal preds :
  wf_maze m -> solve m start goal = Ok preds ->
  exists P dm, bfs_final m start goal P dm /\
    preds = if decide (is_Some (P !! goal)) then P else ∅.
Proof.
  intros Hwf Hsolve.
  destruct (solve_loop_start m start goal Hwf) as (P & dm & Hloop & Hfinal).
  rewrite (solve_unfold _ _ _ _ Hloop) in Hsolve. injection Hsolve as <-.
  by exists P, dm.
Qed.

Lemma tree_key_path m start P dm c :
  search_tree m start P dm -> is_Some (P !! c) ->
  exists p, reconstruct_path P c = Ok p /\
    head p = Some start /\ last p = Some c /\ chain (step m) p.
Proof.
  intros Ht Hc. apply (st_dom _ _ _ _ Ht) in Hc as [d Hd].
  destruct (tree_path _ _ _ _ Ht d c Hd) as (p & Hlen & Hh & Hl & Hch & Hrec).
  exists p. split_and!; try done.
  unfold reconstruct_path. rewrite Hrec; [by rewrite app_nil_r|].
  by apply (st_size _ _ _ _ Ht c).
Qed.

(** X5: a non-empty map returned by [solve] on a well-formed grid is a
    tree of predecessors rooted at [start]: [start] maps to no
    predecessor and [goal] is a key; every other key maps to a key that
    is 4-adjacent to it, and is itself a passage cell; and
    [reconstruct_path] succeeds on every key, giving a list of moves
    from [start] to that key. *)
Theorem solve_map_is_tree m start goal preds :
  wf_maze m -> solve m start goal = Ok preds -> preds <> ∅ ->
  preds !! start = Some None /\
  is_Some (preds !! goal) /\
  forall c, is_Some (preds !! c) ->
    (c <> start ->
       exists u, preds !! c = Some (Some u) /\ adj4 u c /\ passage m c /\
                 is_Some (preds !! u)) /\
    exists p, reconstruct_path preds c = Ok p /\
      head p = Some start /\ last p = Some c /\ chain (step m) p.
Proof.
  intros Hwf Hsolve Hne.
  destruct (solve_Ok_inv _ _ _ _ Hwf Hsolve) as (P & dm & [Ht _ _] & ->).
  case_decide as Hg; [|done].
  split_and!; [apply (st_start_P _ _ _ _ Ht)|done|].
  intros c Hc. split; [|by eapply tree_key_path].
  intros Hcs. destruct Hc as [[u|] Hu].
  - destruct (st_pred _ _ _ _ Ht c u Hu) as ([Hadj Hp] & d & Hdu & _).
    exists u. split_and!; try done. apply (st_dom _ _ _ _ Ht). eauto.
  - by apply (st_root _ _ _ _ Ht) in Hu.
Qed.

Lemma solve_map_is_tree_witness :
  preds5 !! (1, 1) = Some None /\
  is_Some (preds5 !! (2, 1)) /\
  forall c, is_Some (preds5 !! c) ->
    (c <> (1, 1) ->
       exists u, preds5 !! c = Some (Some u) /\ adj4 u c /\ passage maze5 c /\
                 is_Some (preds5 !! u)) /\
    exists p, reconstruct_path preds5 c = Ok p /\
      head p = Some (1, 1) /\ last p = Some c /\ chain (step maze5) p.
Proof.
  apply (solve_map_is_tree maze5 (1, 1) (2, 1) preds5).
  - apply (bool_decide_unpack _). by vm_compute.
  - by vm_compute.
  - intros H. apply (f_equal (fun P : gmap cell (option cell) => P !! (1, 1))) in H.
    by vm_compute in H.
Defined.

(** ** The outcomes of [reconstruct_path] *)

Lemma pred_step_det (preds : gmap cell (option cell)) (a b1 b2 : cell) :
  pred_step preds a b1 -> pred_step preds a b2 -> b1 = b2.
Proof. unfold pred_step. congruence. Qed.

(** The number of steps to a cell without a predecessor is unique. *)
Lemma pred_steps_unique (preds : gmap cell (option cell)) (n m : nat) (a c : cell) :
  (forall b, ~ pred_step preds c b) ->
  nsteps (pred_step preds) n a c -> nsteps (pred_step preds) m a c -> n = m.
Proof.
  intros Hend. revert m a.
  induction n as [|n IH]; intros m a Hn Hm.
  - inversion Hn; subst. inversion Hm as [|? ? b ? Hs]; subst; [done|].
    by destruct (Hend b).
  - inversion Hn as [|? ? b ? Hs Hrest]; subst.
    inversion Hm as [|m' ? b' ? Hs' Hrest']; subst.
    + by destruct (Hend b).
    + f_equal. apply (IH m' b); [done|].
      by rewrite (pred_step_det preds a b b').
Qed.

(** A chain that ends stays a chain when a cell before it is deleted. *)
Lemma pred_steps_delete (preds : gmap cell (option cell)) (N k : nat) (c0 y c : cell) :
  (forall b, ~ pred_step preds c b) ->
  nsteps (pred_step preds) N c0 c -> (k < N)%nat ->
  nsteps (pred_step preds) k y c ->
  nsteps (pred_step (delete c0 preds)) k y c.
Proof.
  intros Hend HN. revert y.
  induction k as [|k IH]; intros y Hk Hy.
  - inversion Hy; subst. constructor.
  - inversion Hy as [|? ? b ? Hs Hrest]; subst.
    assert (y <> c0) as Hne.
    { intros ->. pose proof (pred_steps_unique preds _ _ _ _ Hend HN Hy). lia. }
    econstructor; [|apply IH; [lia|done]].
    unfold pred_step. by rewrite lookup_delete_ne.
Qed.

(** A chain that ends visits every key at most once. *)
Lemma pred_steps_bound (n : nat) :
  forall (preds : gmap cell (option cell)) (c0 c : cell),
    (forall b, ~ pred_step preds c b) ->
    nsteps (pred_step preds) n c0 c ->
    (n + (if preds !! c is Some _ then 1 else 0) <= size preds)%nat.
Proof.
  induction n as [|n IH]; intros preds c0 c Hend Hn.
  - destruct (preds !! c) as [x|] eqn:Hc; [|lia].
    assert (size preds <> 0%nat); [|lia].
    intros Hz. apply map_size_empty_inv in Hz. subst preds. by rewrite lookup_empty in Hc.
  - inversion Hn as [|? ? b ? Hs Hrest]; subst.
    assert (delete c0 preds !! c = preds !! c) as Hc.
    { apply lookup_delete_ne. intros <-. by destruct (Hend b). }
    assert (forall b', ~ pred_step (delete c0 preds) c b') as Hend'.
    { intros b'. unfold pred_step. rewrite Hc. apply Hend. }
    pose proof (IH (delete c0 preds) b c Hend'
                  (pred_steps_delete preds (S n) n c0 b c Hend Hn ltac:(lia) Hrest)) as Hle.
    rewrite Hc in Hle.
    assert (size preds = S (size (delete c0 preds))) as ->; [|lia].
    rewrite <- (insert_delete_id preds c0 (Some b)) at 1 by exact Hs.
    rewrite map_size_insert_None; [done|]. apply lookup_delete_eq.
Qed.

(** What the loop does on a chain of [n] steps that ends in [c]. *)
Lemma reconstruct_loop_chain (preds : gmap cell (option cell)) (n : nat) :
  forall (fuel : nat) (c0 c : cell) (acc : list cell),
    nsteps (pred_step preds) n c0 c ->
    (preds !! c = None -> (n <= fuel)%nat ->
       reconstruct_loop fuel preds (Some c0) acc = Raise KeyError) /\
    (preds !! c = Some None -> (n < fuel)%nat ->
       exists p, reconstruct_loop fuel preds (Some c0) acc = Ok p).
Proof.
  induction n as [|n IH]; intros fuel c0 c acc Hn.
  - inversion Hn; subst. split; intros Hc Hf.
    + destruct fuel; simpl; by rewrite Hc.
    + destruct fuel as [|fuel]; [lia|]. simpl. rewrite Hc.
      eexists. by destruct fuel.
  - inversion Hn as [|? ? b ? Hs Hrest]; subst.
    destruct fuel as [|fuel].
    { split; intros; lia. }
    destruct (IH fuel b c (acc ++ [c0]) Hrest) as [IH1 IH2].
    simpl. rewrite Hs. split; intros Hc Hf.
    + apply IH1; [done|lia].
    + apply IH2; [done|lia].
Qed.

(** What an outcome of the loop says about the chain. *)
Lemma reconstruct_loop_outcome (preds : gmap cell (option cell)) (fuel : nat) :
  forall (c0 : cell) (acc : list cell),
    match reconstruct_loop fuel preds (Some c0) acc with
    | Ok _ => exists c, rtc (pred_step preds) c0 c /\ preds !! c = Some None
    | Raise e => e = KeyError /\
                 exists c, rtc (pred_step preds) c0 c /\ preds !! c = None
    | OutOfFuel => True
    end.
Proof.
  induction fuel as [|fuel IH]; intros c0 acc; simpl.
  - destruct (preds !! c0) as [x|] eqn:Hc; [done|].
    split; [done|]. by exists c0.
  - destruct (preds !! c0) as [[b|]|] eqn:Hc.
    + specialize (IH b (acc ++ [c0])).
      destruct (reconstruct_loop fuel preds (Some b) (acc ++ [c0])) as [p|e|]; [| |done].
      * destruct IH as (c & Hr & Hl). exists c. split; [|done].
        by eapply rtc_l.
      * destruct IH as (-> & c & Hr & Hl). split; [done|]. exists c. split; [|done].
        by eapply rtc_l.
    + destruct fuel; by exists c0.
    + split; [done|]. by exists c0.
Qed.

(** The list that the loop returns. *)
Lemma reconstruct_loop_Ok (preds : gmap cell (option cell)) (fuel : nat) :
  forall (c0 : cell) (acc p : list cell),
    reconstruct_loop fuel preds (Some c0) acc = Ok p ->
    exists q, p = q ++ reverse acc /\ last q = Some c0 /\
      (exists root, head q = Some root /\ preds !! root = Some None) /\
      chain (fun a b => pred_step preds b a) q.
Proof.
  induction fuel as [|fuel IH]; intros c0 acc p; simpl.
  - by destruct (preds !! c0).
  - destruct (preds !! c0) as [[b|]|] eqn:Hc; [| |done].
    + intros Hp. destruct (IH b (acc ++ [c0]) p Hp) as (q & -> & Hl & (root & Hh & Hroot) & Hch).
      exists (q ++ [c0]). split_and!.
      * by rewrite reverse_snoc, <- (assoc_L (++)).
      * apply last_snoc.
      * exists root. split; [|done]. by destruct q.
      * apply chain_app. split_and!; [done|done|].
        intros x y Hx [= <-]. unfold pred_step. congruence.
    + intros Hp. assert (p = reverse (acc ++ [c0])) as -> by (destruct fuel; simpl in Hp; congruence).
      exists [c0]. split_and!; try done.
      * by rewrite reverse_snoc.
      * by exists c0.
Qed.

(** X6: [reconstruct_path] raises [KeyError] exactly when the chain of
    predecessors that starts at [goal] arrives at a cell that is not a
    key of the map (so also when [goal] itself is not a key, and on the
    empty map), and it raises nothing else; it returns a list exactly
    when the chain arrives at a key whose predecessor is [None], and the
    list then starts with that key, ends with [goal], and each of its
    cells is the recorded predecessor of the next; and the budget of the
    loop runs out only on a chain that never ends, where the loop of the
    source does not terminate. *)
Theorem reconstruct_path_outcome (preds : gmap cell (option cell)) (goal : cell) :
  (reconstruct_path preds goal = Raise KeyError <->
     exists c, rtc (pred_step preds) goal c /\ preds !! c = None) /\
  (forall e, reconstruct_path preds goal = Raise e -> e = KeyError) /\
  ((exists p, reconstruct_path preds goal = Ok p) <->
     exists c, rtc (pred_step preds) goal c /\ preds !! c = Some None) /\
  (forall p, reconstruct_path preds goal = Ok p ->
     (exists root, head p = Some root /\ preds !! root = Some None) /\
     last p = Some goal /\
     chain (fun a b => pred_step preds b a) p) /\
  (reconstruct_path preds goal = OutOfFuel <->
     forall c, rtc (pred_step preds) goal c -> exists b, pred_step preds c b).
Proof.
  assert (forall c, rtc (pred_step preds) goal c -> preds !! c = None ->
            reconstruct_path preds goal = Raise KeyError) as Hkey.
  { intros c Hr Hc. apply rtc_nsteps in Hr as [n Hn].
    assert (forall b, ~ pred_step preds c b) as Hend
      by (intros b; unfold pred_step; by rewrite Hc).
    pose proof (pred_steps_bound n preds goal c Hend Hn) as Hle. rewrite Hc in Hle.
    apply (reconstruct_loop_chain preds n (size preds) goal c [] Hn); [done|lia]. }
  assert (forall c, rtc (pred_step preds) goal c -> preds !! c = Some None ->
            exists p, reconstruct_path preds goal = Ok p) as Hok.
  { intros c Hr Hc. apply rtc_nsteps in Hr as [n Hn].
    assert (forall b, ~ pred_step preds c b) as Hend
      by (intros b; unfold pred_step; by rewrite Hc).
    pose proof (pred_steps_bound n preds goal c Hend Hn) as Hle. rewrite Hc in Hle.
    apply (reconstruct_loop_chain preds n (size preds) goal c [] Hn); [done|lia]. }
  pose proof (reconstruct_loop_outcome preds (size preds) goal []) as Hout.
  fold (reconstruct_path preds goal) in Hout.
  split_and!.
  - split.
    + intros Hr. rewrite Hr in Hout. by destruct Hout.
    + intros (c & Hr & Hc). by apply (Hkey c).
  - intros e Hr. rewrite Hr in Hout. by destruct Hout.
  - split.
    + intros [p Hr]. by rewrite Hr in Hout.
    + intros (c & Hr & Hc). by apply (Hok c).
  - intros p Hp.
    destruct (reconstruct_loop_Ok preds (size preds) goal [] p Hp)
      as (q & -> & Hl & Hroot & Hch).
    rewrite reverse_nil, app_nil_r. by split_and!.
  - split.
    + intros Hr c Hc. destruct (preds !! c) as [[b|]|] eqn:Hl.
      * by exists b.
      * destruct (Hok c Hc Hl) as [p Hp]. congruence.
      * pose proof (Hkey c Hc Hl). congruence.
    + intros Hall. destruct (reconstruct_path preds goal) as [p|e|]; [| |done].
      * destruct Hout as (c & Hr & Hc). destruct (Hall c Hr) as [b Hb].
        unfold pred_step in Hb. congruence.
      * destruct Hout as (_ & c & Hr & Hc). destruct (Hall c Hr) as [b Hb].
        unfold pred_step in Hb. congruence.
Qed.


Lemma passage_path_reachable m a b p : path (passage m) a b p -> reachable m a b.
Proof.
  intros Hp. pose proof (path_chain_step _ _ _ _ Hp) as Hc.
  destruct Hp as (Hh & Hl & _). eapply rtc_nsteps_2. by apply chain_nsteps.
Qed.

Lemma compute_solution_shortest m start goal :
  wf_maze m -> passage m start ->
  exists p cs, compute_solution m start goal = Ok (p, cs) /\
    (~ reachable m start goal -> p = []) /\
    (reachable m start goal ->
       path (passage m) start goal p /\
       shortest_distance m start goal (pred (length p))).
Proof.
  intros Hwf Hs.
  destruct (solve_loop_start m start goal Hwf) as (P & dm & Hloop & [Ht Hshort Hcompl]).
  unfold compute_solution. rewrite (solve_unfold _ _ _ _ Hloop), result_bind_Ok.
  destruct (decide (is_Some (P !! goal))) as [HPg|HPg].
  - rewrite decide_False; cycle 1.
    { intros ->. destruct HPg as [x Hx]. by rewrite lookup_empty in Hx. }
    destruct (search_tree_reachable _ _ _ _ _ Ht HPg) as (d & Hd & Hn).
    destruct (tree_path _ _ _ _ Ht d goal Hd) as (p & Hlen & Hh & Hl & Hc & Hrec).
    unfold reconstruct_path. rewrite Hrec by (by apply (st_size _ _ _ _ Ht goal)).
    rewrite result_bind_Ok, app_nil_r. eexists _, _. split; [done|]. split.
    + intros Hnot. exfalso. apply Hnot. by eapply rtc_nsteps_2.
    + intros _. split; [by apply chain_step_path|]. split.
      * by apply chain_nsteps.
      * intros k' Hk'. rewrite Hlen. simpl. by apply (Hshort d).
  - rewrite decide_True by done. eexists _, _. split; [done|]. split; [done|].
    intros [k Hk]%rtc_nsteps. exfalso. apply HPg.
    apply (st_dom _ _ _ _ Ht). by apply (Hcompl k).
Qed.

(** X7: the idiom [preds = solve(a, b)] followed by
    [reconstruct_path(preds, b) if preds else []], which the game uses
    for its cached path, never raises on a well-formed grid when [a] is
    a passage: it gives the empty list when [b] cannot be reached from
    [a], and otherwise a shortest path of passage cells from [a] to
    [b]. *)
Theorem cached_path_computation m a b :
  wf_maze m -> passage m a ->
  exists p cs, compute_solution m a b = Ok (p, cs) /\
    (p = [] <-> ~ reachable m a b) /\
    (reachable m a b ->
       path (passage m) a b p /\
       shortest_distance m a b (pred (length p))).
Proof.
  intros Hwf Ha.
  destruct (compute_solution_shortest m a b Hwf Ha) as (p & cs & Hsol & Hno & Hyes).
  exists p, cs. split_and!; try done. split; [|done].
  intros -> Hr. destruct (Hyes Hr) as [(Hh & _) _]. done.
Qed.

Lemma cached_path_computation_witness :
  exists p cs, compute_solution maze_split (1, 1) (3, 1) = Ok (p, cs) /\
    (p = [] <-> ~ reachable maze_split (1, 1) (3, 1)) /\
    (reachable maze_split (1, 1) (3, 1) ->
       path (passage maze_split) (1, 1) (3, 1) p /\
       shortest_distance maze_split (1, 1) (3, 1) (pred (length p))).
Proof.
  apply (cached_path_computation maze_split (1, 1) (3, 1)).
  - apply (bool_decide_unpack _). by vm_compute.
  - apply (bool_decide_unpack _). by vm_compute.
Defined.

(** ** More on the game *)

(** A path can be cut down to a simple one. *)
Lemma path_simplify (P : cell -> Prop) a b p :
  path P a b p ->
  exists q, simple_path P a b q /\ (q = p \/ (length q < length p)%nat).
Proof.
  revert a. induction p as [|x p IH]; intros a (Hh & Hl & HP & Hc); [done|].
  simpl in Hh. assert (x = a) as -> by congruence. clear Hh.
  apply Forall_cons in HP as [Ha HP].
  destruct p as [|y p].
  { injection Hl as <-. exists [a]. split; [by apply simple_path_single|by left]. }
  destruct Hc as [Hay Hc]. rewrite last_cons_cons in Hl.
  destruct (IH y) as (q & [(Hqh & Hql & HqP & Hqc) Hqnd] & Hq); [by split_and!|].
  destruct (decide (a ∈ q)) as [Hin|Hnot].
  - apply list_elem_of_split in Hin as (l1 & l2 & ->).
    exists (a :: l2). split.
    + split; [split_and!|].
      * done.
      * by rewrite last_app_cons in Hql.
      * by apply Forall_app in HqP as [_ ?].
      * by apply chain_app in Hqc as (_ & ? & _).
      * by apply NoDup_app in Hqnd as (_ & _ & ?).
    + right. destruct Hq as [Hq|Hq].
      * rewrite <-Hq. simpl. rewrite length_app. simpl. lia.
      * rewrite length_app in Hq. simpl in *. lia.
  - exists (a :: q). split.
    + split; [split_and!|].
      * done.
      * destruct q; [done|]. by rewrite last_cons_cons.
      * by apply Forall_cons.
      * destruct q as [|z q]; [done|]. injection Hqh as ->. done.
      * by apply NoDup_cons.
    + destruct Hq as [->|Hq]; [by left|right; simpl in *; lia].
Qed.

Lemma shortest_path_simple m a b p :
  path (passage m) a b p ->
  shortest_distance m a b (pred (length p)) ->
  simple_path (passage m) a b p.
Proof.
  intros Hp [_ Hmin].
  destruct (path_simplify _ _ _ _ Hp) as (q & Hq & [->|Hlt]); [done|].
  exfalso. destruct Hq as [Hq _].
  pose proof (path_chain_step _ _ _ _ Hq) as Hc.
  destruct Hq as (Hh & Hl & _).
  pose proof (Hmin _ (chain_nsteps _ _ _ _ Hh Hl Hc)).
  destruct q; [done|]. destruct p; simpl in *; lia.
Qed.

Lemma tree_reachable m a b :
  gen_inv m -> passage m a -> passage m b -> reachable m a b.
Proof.
  intros Hinv Ha Hb.
  destruct (gi_tree _ Hinv a b Ha Hb) as (p & [Hp _] & _).
  by eapply passage_path_reachable.
Qed.

Lemma odd_round_idem n : odd_round (odd_round n) = odd_round n.
Proof. unfold odd_round. repeat case_decide; zlia. Qed.

Lemma goal_is_passage m :
  gen_inv m -> rooms_closed m [] ->
  width m `mod` 2 = 1 -> height m `mod` 2 = 1 ->
  passage m (width m - 2, height m - 2).
Proof.
  intros Hinv Hcl Hw Hh. pose proof (gi_dims _ Hinv) as [? ?].
  apply (closed_rooms_carved m Hinv Hcl).
  - split; simpl; zlia.
  - split; simpl; lia.
Qed.

Lemma fresh_state_inv w h r :
  3 <= odd_round w -> 3 <= odd_round h ->
  exists m r' p cs,
    Maze_init w h r = Ok (m, r') /\
    compute_solution m (1, 1) (width m - 2, height m - 2) = Ok (p, cs) /\
    state_inv w h {| maze := m; player_pos := (1, 1);
                     goal_pos := (width m - 2, height m - 2);
                     show_solution := false; solution_path := p |}.
Proof.
  intros Hw Hh.
  destruct (Maze_init_full w h r Hw Hh) as (m & r' & Hinit & Hinv & Hcl & Hwm & Hhm).
  assert (passage m (width m - 2, height m - 2)) as Hgoal.
  { apply goal_is_passage; try done; rewrite ?Hwm, ?Hhm; apply odd_round_odd. }
  destruct (compute_solution_shortest m (1, 1) (width m - 2, height m - 2)
              (gi_wf _ Hinv) (gi_start _ Hinv)) as (p & cs & Hsol & _ & Hyes).
  destruct Hyes as [Hp Hshort].
  { apply tree_reachable; [done|apply (gi_start _ Hinv)|done]. }
  exists m, r', p, cs. split_and!; try done.
  split; simpl; try done. apply (gi_start _ Hinv).
Qed.

Lemma MazeGame_init_state w h r :
  3 <= odd_round w -> 3 <= odd_round h ->
  exists g r' cs, MazeGame_init w h r = Ok (g, r', cs) /\
    state_inv w h g /\ player_pos g = (1, 1) /\ show_solution g = false.
Proof.
  intros Hw Hh.
  destruct (fresh_state_inv w h r Hw Hh) as (m & r' & p & cs & Hinit & Hsol & Hinv).
  unfold MazeGame_init. rewrite Hinit, result_bind_Ok. cbv beta iota.
  rewrite Hsol, result_bind_Ok. by eexists _, _, _.
Qed.

Lemma new_maze_state w h g r :
  3 <= odd_round w -> 3 <= odd_round h -> state_inv w h g ->
  exists g' r' cs, new_maze g r = Ok (g', r', cs) /\
    state_inv w h g' /\ player_pos g' = (1, 1) /\ show_solution g' = false /\
    Forall (fun c => c <> CallShowWin) cs.
Proof.
  intros Hw Hh Hinv.
  destruct (fresh_state_inv (width (maze g)) (height (maze g)) r)
    as (m & r' & p & cs & Hinit & Hsol & Hinv').
  { rewrite (sv_width _ _ _ Hinv), odd_round_idem. done. }
  { rewrite (sv_height _ _ _ Hinv), odd_round_idem. done. }
  unfold new_maze. rewrite Hinit, result_bind_Ok. cbv beta iota.
  rewrite Hsol, result_bind_Ok. eexists _, _, _. split; [done|].
  split_and!; try done.
  - destruct Hinv' as [? ? Hw' Hh' ? ? ? ?]. split; try done.
    + rewrite Hw', (sv_width _ _ _ Hinv). apply odd_round_idem.
    + rewrite Hh', (sv_height _ _ _ Hinv). apply odd_round_idem.
  - apply Forall_cons. split; [done|].
    unfold compute_solution in Hsol.
    apply bind_Ok in Hsol as (preds & _ & Hsol).
    case_decide.
    + injection Hsol as _ <-. by repeat constructor.
    + apply bind_Ok in Hsol as (pp & _ & [= _ <-]). by repeat constructor.
Qed.

Lemma fresh_phase_ok g :
  goal_pos g = (width (maze g) - 2, height (maze g) - 2) ->
  player_pos g = (1, 1) -> phase_ok Playing g.
Proof.
  intros Hg Hp. split; [done|]. intros _. rewrite Hg, Hp. intros [= ? ?]. lia.
Qed.

Lemma check_win_phase_ok g r cs : phase_ok (next (check_win g r cs)) g.
Proof.
  unfold check_win. case_decide; simpl; split; try done.
Qed.

Lemma handle_input_state w h g key r :
  3 <= odd_round w -> 3 <= odd_round h -> state_inv w h g ->
  exists o, handle_input g key r = Ok o /\
    state_inv w h (game o) /\ phase_ok (next o) (game o).
Proof.
  intros Hw Hh Hinv. unfold handle_input.
  assert (game_inv g) as Hginv.
  { destruct Hinv as [Hgen ? ? ? ? ? ? ?]. split; try done.
    - apply (gi_wf _ Hgen).
    - apply (gi_dims _ Hgen).
    - intros c. by apply gen_inv_border. }
  destruct (keymap key) as [[dx dy]|] eqn:Hkey.
  - destruct (move_target_in_grid g dx dy Hginv (keymap_unit _ _ _ Hkey))
      as (Hin & v & Hget & Hcell).
    rewrite Hget, result_bind_Ok. case_decide as Hv.
    + subst v.
      assert (passage (maze g) ((player_pos g).1 + dx, (player_pos g).2 + dy))
        as Htarget by done.
      destruct (compute_solution_shortest (maze g)
                  ((player_pos g).1 + dx, (player_pos g).2 + dy) (goal_pos g)
                  (gv_wf _ Hginv) Htarget) as (p & cs & Hsol & _ & Hyes).
      destruct Hyes as [Hp Hshort].
      { apply tree_reachable; [apply (sv_gen _ _ _ Hinv)|done|].
        rewrite (sv_goal _ _ _ Hinv). apply goal_is_passage.
        - apply (sv_gen _ _ _ Hinv).
        - apply (sv_closed _ _ _ Hinv).
        - rewrite (sv_width _ _ _ Hinv). apply odd_round_odd.
        - rewrite (sv_height _ _ _ Hinv). apply odd_round_odd. }
      rewrite Hsol, result_bind_Ok. cbv beta iota.
      eexists. split; [done|]. rewrite check_win_game.
      split; [|apply check_win_phase_ok].
      destruct Hinv as [? ? ? ? ? ? ? ?]. by split.
    + eexists. split; [done|]. rewrite check_win_game.
      split; [done|apply check_win_phase_ok].
  - case_decide.
    { eexists. split; [done|]. split; [done|]. by split. }
    case_decide.
    + eexists. split; [done|]. rewrite check_win_game.
      split; [|apply check_win_phase_ok].
      destruct Hinv as [? ? ? ? ? ? ? ?]. by split.
    + case_decide.
      * destruct (new_maze_state w h g r Hw Hh Hinv)
          as (g' & r' & cs & Hnew & Hinv' & _).
        rewrite Hnew, result_bind_Ok. cbv beta iota.
        eexists. split; [done|]. rewrite check_win_game.
        split; [done|apply check_win_phase_ok].
      * eexists. split; [done|]. rewrite check_win_game.
        split; [done|apply check_win_phase_ok].
Qed.

Lemma key_step_state w h ph g key r :
  3 <= odd_round w -> 3 <= odd_round h ->
  state_inv w h g -> phase_ok ph g ->
  exists o, key_step ph g key r = Ok o /\
    state_inv w h (game o) /\ phase_ok (next o) (game o).
Proof.
  intros Hw Hh Hinv Hph. destruct ph; simpl.
  - by apply handle_input_state.
  - unfold handle_win_input. case_decide.
    { eexists. split; [done|]. split; [done|]. by split. }
    case_decide; [|by eexists].
    destruct (new_maze_state w h g r Hw Hh Hinv)
      as (g' & r' & cs & Hnew & Hinv' & Hp & _).
    rewrite Hnew, result_bind_Ok. cbv beta iota.
    eexists. split; [done|]. split; [done|]. simpl.
    apply fresh_phase_ok; [apply (sv_goal _ _ _ Hinv')|done].
  - eexists. split; [done|]. split; [done|]. by split.
Qed.

Lemma reachable_state_full w h ph g r :
  3 <= odd_round w -> 3 <= odd_round h ->
  reachable_state w h ph g r -> state_inv w h g /\ phase_ok ph g.
Proof.
  intros Hw Hh. induction 1 as [r g r' cs Hinit|ph g r key o Hreach [IH1 IH2] Hstep].
  - destruct (MazeGame_init_state w h r Hw Hh) as (g1 & r1 & cs1 & Hinit1 & Hinv & Hp & _).
    assert (g1 = g) as -> by congruence.
    split; [done|]. apply fresh_phase_ok; [apply (sv_goal _ _ _ Hinv)|done].
  - destruct (key_step_state w h ph g key r Hw Hh IH1 IH2) as (o' & Hstep' & Hinv & Hph).
    assert (o' = o) as -> by congruence. done.
Qed.

(** A run of [main]'s loop from a reachable state ends in one. *)
Lemma play_reaches w h keys :
  forall ph g r ph' g' r',
    reachable_state w h ph g r ->
    play keys ph g r = Ok (ph', g', r') ->
    reachable_state w h ph' g' r'.
Proof.
  induction keys as [|key keys IH]; intros ph g r ph' g' r' Hreach Hplay.
  { by injection Hplay as <- <- <-. }
  assert (ph = Quit \/
          exists o, key_step ph g key r = Ok o /\
                    play keys (next o) (game o) (rng o) = Ok (ph', g', r'))
    as [->|(o & Hstep & Hrest)].
  { destruct ph; [right|right|by left]; cbn [play] in Hplay;
      (destruct (key_step _ g key r) as [o| |] eqn:Hstep; [|done..]);
      rewrite result_bind_Ok in Hplay; by exists o. }
  - by injection Hplay as <- <- <-.
  - apply (IH _ _ _ _ _ _ (reach_key w h ph g r key o Hreach Hstep) Hrest).
Qed.

Lemma game5_made_reachable : reachable_state 5 5 Playing game5_made seed0_after5.
Proof.
  apply (reach_init 5 5 seed0 game5_made seed0_after5
           [CallMaze 5 5; CallSolve (1, 1) (3, 3); CallReconstruct (3, 3)]).
  by vm_compute.
Qed.

Lemma game5_won_reachable : reachable_state 5 5 Won game5_won seed0_after5.
Proof.
  apply (play_reaches 5 5 [KEY_RIGHT; KEY_RIGHT; KEY_DOWN; KEY_DOWN]
           Playing game5_made seed0_after5); [apply game5_made_reachable|].
  by vm_compute.
Qed.

Lemma game3_reachable : reachable_state 3 3 Playing game3 seed0_after3.
Proof. apply (reach_init 3 3 seed0 game3 seed0_after3 _ game3_created). Qed.

(** X8: in every state a game with rounded sizes of at least 3 can
    reach, the goal is the cell (width-2, height-2) and is a passage,
    and the cached solution path is a shortest path of passage cells
    from the player to the goal; it repeats no cell and is the only
    simple path between them. *)
Theorem cached_path_is_shortest w h ph g r :
  3 <= odd_round w -> 3 <= odd_round h ->
  reachable_state w h ph g r ->
  goal_pos g = (width (maze g) - 2, height (maze g) - 2) /\
  passage (maze g) (goal_pos g) /\
  simple_path (passage (maze g)) (player_pos g) (goal_pos g) (solution_path g) /\
  shortest_distance (maze g) (player_pos g) (goal_pos g)
    (pred (length (solution_path g))) /\
  (forall q, simple_path (passage (maze g)) (player_pos g) (goal_pos g) q ->
             q = solution_path g).
Proof.
  intros Hw Hh Hreach.
  destruct (reachable_state_full w h ph g r Hw Hh Hreach) as [Hinv _].
  pose proof (shortest_path_simple _ _ _ _ (sv_path _ _ _ Hinv) (sv_short _ _ _ Hinv))
    as Hsimple.
  assert (passage (maze g) (goal_pos g)) as Hgoal.
  { destruct (sv_path _ _ _ Hinv) as (_ & Hl & HP & _).
    rewrite Forall_forall in HP. apply HP. by apply last_Some_elem_of. }
  split_and!; try done.
  - apply (sv_goal _ _ _ Hinv).
  - apply (sv_short _ _ _ Hinv).
  - intros q Hq.
    destruct (gi_tree _ (sv_gen _ _ _ Hinv) _ _ (sv_player _ _ _ Hinv) Hgoal)
      as (p & _ & Huniq).
    rewrite (Huniq q Hq). symmetry. by apply Huniq.
Qed.

Lemma cached_path_is_shortest_witness :
  goal_pos game3 = (width (maze game3) - 2, height (maze game3) - 2) /\
  passage (maze game3) (goal_pos game3) /\
  simple_path (passage (maze game3)) (player_pos game3) (goal_pos game3)
    (solution_path game3) /\
  shortest_distance (maze game3) (player_pos game3) (goal_pos game3)
    (pred (length (solution_path game3))) /\
  (forall q, simple_path (passage (maze game3)) (player_pos game3) (goal_pos game3) q ->
             q = solution_path game3).
Proof.
  apply (cached_path_is_shortest 3 3 Playing game3 seed0_after3).
  - by vm_compute.
  - by vm_compute.
  - apply game3_reachable.
Defined.

(** X9: the maze of every reachable state has the rounded dimensions the
    game was created with, also after any number of new-maze requests,
    and it is a perfect maze with every room carved: between any two
    passage cells there is exactly one simple path. *)
Theorem maze_stays_perfect w h ph g r :
  3 <= odd_round w -> 3 <= odd_round h ->
  reachable_state w h ph g r ->
  width (maze g) = odd_round w /\ height (maze g) = odd_round h /\
  (forall c, is_room c -> interior (maze g) c -> passage (maze g) c) /\
  unique_paths (passage (maze g)).
Proof.
  intros Hw Hh Hreach.
  destruct (reachable_state_full w h ph g r Hw Hh Hreach) as [Hinv _].
  split_and!.
  - apply (sv_width _ _ _ Hinv).
  - apply (sv_height _ _ _ Hinv).
  - apply closed_rooms_carved; [apply (sv_gen _ _ _ Hinv)|apply (sv_closed _ _ _ Hinv)].
  - apply (gi_tree _ (sv_gen _ _ _ Hinv)).
Qed.

Lemma maze_stays_perfect_witness :
  width (maze game3) = odd_round 3 /\ height (maze game3) = odd_round 3 /\
  (forall c, is_room c -> interior (maze game3) c -> passage (maze game3) c) /\
  unique_paths (passage (maze game3)).
Proof.
  apply (maze_stays_perfect 3 3 Playing game3 seed0_after3).
  - by vm_compute.
  - by vm_compute.
  - apply game3_reachable.
Defined.

(** X10: in every reachable state, the program waits in the win loop
    only with the player on the goal; and while it waits in
    [handle_input] the player is not on the goal, unless the maze is 3
    by 3 (where start and goal are the same cell). *)
Theorem phase_tracks_goal w h ph g r :
  3 <= odd_round w -> 3 <= odd_round h ->
  reachable_state w h ph g r ->
  (ph = Won -> player_pos g = goal_pos g) /\
  (ph = Playing -> 3 < width (maze g) \/ 3 < height (maze g) ->
     player_pos g <> goal_pos g).
Proof.
  intros Hw Hh Hreach.
  destruct (reachable_state_full w h ph g r Hw Hh Hreach) as [_ [Hwon Hplay]].
  split; [done|]. intros Hph Hbig Heq. destruct (Hplay Hph Heq). lia.
Qed.

Lemma phase_tracks_goal_witness :
  ((Won = Won -> player_pos game5_won = goal_pos game5_won) /\
   (Won = Playing ->
      3 < width (maze game5_won) \/ 3 < height (maze game5_won) ->
      player_pos game5_won <> goal_pos game5_won)) /\
  ((Playing = Won -> player_pos game5_made = goal_pos game5_made) /\
   (Playing = Playing ->
      3 < width (maze game5_made) \/ 3 < height (maze game5_made) ->
      player_pos game5_made <> goal_pos game5_made)).
Proof.
  split.
  - apply (phase_tracks_goal 5 5 Won game5_won seed0_after5).
    + by vm_compute.
    + by vm_compute.
    + apply game5_won_reachable.
  - apply (phase_tracks_goal 5 5 Playing game5_made seed0_after5).
    + by vm_compute.
    + by vm_compute.
    + apply game5_made_reachable.
Defined.

(** X11: in every reachable state that still waits for keys, the key [n]
    (or [N]) is handled without an exception and gives a game with a
    maze of the same dimensions, the player at (1,1), the same goal
    cell, the solution hidden and a fresh shortest path; from the win
    loop the game returns to [Playing], and from [Playing] it stays
    there unless the maze is 3 by 3. *)
Theorem new_maze_resets w h ph g r key :
  3 <= odd_round w -> 3 <= odd_round h ->
  reachable_state w h ph g r -> ph <> Quit ->
  key = ord_n \/ key = ord_N ->
  exists o, key_step ph g key r = Ok o /\
    width (maze (game o)) = width (maze g) /\
    height (maze (game o)) = height (maze g) /\
    player_pos (game o) = (1, 1) /\
    goal_pos (game o) = goal_pos g /\
    show_solution (game o) = false /\
    path (passage (maze (game o))) (1, 1) (goal_pos g) (solution_path (game o)) /\
    (ph = Won -> next o = Playing) /\
    (ph = Playing ->
       (next o = Won <-> width (maze g) = 3 /\ height (maze g) = 3) /\
       (next o = Playing \/ next o = Won)).
Proof.
  intros Hw Hh Hreach Hph Hkey.
  destruct (reachable_state_full w h ph g r Hw Hh Hreach) as [Hinv _].
  destruct (new_maze_state w h g r Hw Hh Hinv)
    as (g' & r' & cs & Hnew & Hinv' & Hp & Hs & _).
  assert (width (maze g') = width (maze g)) as Hwid
    by (by rewrite (sv_width _ _ _ Hinv), (sv_width _ _ _ Hinv')).
  assert (height (maze g') = height (maze g)) as Hhei
    by (by rewrite (sv_height _ _ _ Hinv), (sv_height _ _ _ Hinv')).
  assert (goal_pos g' = goal_pos g) as Hgoal
    by (by rewrite (sv_goal _ _ _ Hinv), (sv_goal _ _ _ Hinv'), Hwid, Hhei).
  assert (keymap key = None) as Hmap by (destruct Hkey as [-> | ->]; reflexivity).
  assert (~ (key = ord_q \/ key = ord_Q)) as Hq
    by (unfold ord_n, ord_N, ord_q, ord_Q in *; lia).
  assert (~ (key = ord_s \/ key = ord_S)) as Hs'
    by (unfold ord_n, ord_N, ord_s, ord_S in *; lia).
  pose proof (sv_path _ _ _ Hinv') as Hpath. rewrite Hp, Hgoal in Hpath.
  destruct ph; [| |done]; simpl.
  - unfold handle_input. rewrite Hmap.
    rewrite (decide_False _ _ Hq), (decide_False _ _ Hs'), (decide_True _ _ Hkey).
    rewrite Hnew, result_bind_Ok. cbv beta iota.
    eexists. split; [done|]. rewrite check_win_game.
    split_and!; try done. intros _.
    unfold check_win. rewrite Hp, (sv_goal _ _ _ Hinv'), Hwid, Hhei.
    case_decide as Heq; simpl.
    + injection Heq as ? ?. split; [|by right]. split; [intros _; lia|done].
    + split; [|by left]. split; [done|]. intros [Hw3 Hh3]. exfalso. apply Heq.
      f_equal; lia.
  - unfold handle_win_input.
    rewrite (decide_False _ _ Hq), (decide_True _ _ Hkey).
    rewrite Hnew, result_bind_Ok. cbv beta iota.
    eexists. split; [done|]. simpl. split_and!; try done.
Qed.

Lemma new_maze_resets_witness :
  exists o, key_step Playing game3 ord_n seed0_after3 = Ok o /\
    width (maze (game o)) = width (maze game3) /\
    height (maze (game o)) = height (maze game3) /\
    player_pos (game o) = (1, 1) /\
    goal_pos (game o) = goal_pos game3 /\
    show_solution (game o) = false /\
    path (passage (maze (game o))) (1, 1) (goal_pos game3) (solution_path (game o)) /\
    (Playing = Won -> next o = Playing) /\
    (Playing = Playing ->
       (next o = Won <-> width (maze game3) = 3 /\ height (maze game3) = 3) /\
       (next o = Playing \/ next o = Won)).
Proof.
  apply (new_maze_resets 3 3 Playing game3 seed0_after3 ord_n).
  - by vm_compute.
  - by vm_compute.
  - apply game3_reachable.
  - done.
  - by left.
Defined.

(** X12: on a well-formed grid, an arrow key whose target cell holds 0
    moves the player to that cell and recomputes the cached path from
    it; the maze, the goal, the visibility flag and the random generator
    are unchanged, and the game is won exactly when the target is the
    goal. *)
Theorem accepted_move g key r dx dy :
  wf_maze (maze g) ->
  keymap key = Some (dx, dy) ->
  grid_get (grid (maze g)) ((player_pos g).1 + dx) ((player_pos g).2 + dy)
    = Ok 0 ->
  exists o, handle_input g key r = Ok o /\
    player_pos (game o) = ((player_pos g).1 + dx, (player_pos g).2 + dy) /\
    adj4 (player_pos g) (player_pos (game o)) /\
    maze (game o) = maze g /\
    goal_pos (game o) = goal_pos g /\
    show_solution (game o) = show_solution g /\
    rng o = r /\
    (exists cs, compute_solution (maze g) (player_pos (game o)) (goal_pos g)
                = Ok (solution_path (game o), cs)) /\
    (next o = Won <-> player_pos (game o) = goal_pos g) /\
    (next o = Playing <-> player_pos (game o) <> goal_pos g).
Proof.
  intros Hwf Hkey Hget. unfold handle_input. rewrite Hkey, Hget, result_bind_Ok.
  rewrite decide_True by done.
  destruct (compute_solution_total (maze g)
              ((player_pos g).1 + dx, (player_pos g).2 + dy) (goal_pos g) Hwf)
    as (p & cs & Hsol).
  rewrite Hsol, result_bind_Ok. cbv beta iota.
  eexists. split; [done|]. rewrite check_win_game, check_win_rng. simpl.
  split_and!; try done.
  - apply keymap_unit in Hkey. unfold unit_moves in Hkey.
    rewrite !elem_of_cons, elem_of_nil in Hkey. unfold adj4. simpl.
    destruct Hkey as [[= -> ->]|[[= -> ->]|[[= -> ->]|[[= -> ->]|[]]]]]; lia.
  - by exists cs.
  - unfold check_win. case_decide; simpl in *; split; done.
  - unfold check_win. case_decide; simpl in *; split; done.
Qed.

Lemma accepted_move_witness :
  exists o, handle_input game5 KEY_RIGHT seed0 = Ok o /\
    player_pos (game o) = ((player_pos game5).1 + 1, (player_pos game5).2 + 0) /\
    adj4 (player_pos game5) (player_pos (game o)) /\
    maze (game o) = maze game5 /\
    goal_pos (game o) = goal_pos game5 /\
    show_solution (game o) = show_solution game5 /\
    rng o = seed0 /\
    (exists cs, compute_solution (maze game5) (player_pos (game o)) (goal_pos game5)
                = Ok (solution_path (game o), cs)) /\
    (next o = Won <-> player_pos (game o) = goal_pos game5) /\
    (next o = Playing <-> player_pos (game o) <> goal_pos game5).
Proof.
  apply (accepted_move game5 KEY_RIGHT seed0 1 0).
  - apply (bool_decide_unpack _). by vm_compute.
  - reflexivity.
  - reflexivity.
Defined.

(** X14: a key that is neither an arrow nor one of [q], [s], [n] (in
    either case) changes nothing in [handle_input]: the game and the
    random generator are the same afterwards and nothing is
    recomputed. *)
Theorem unbound_key_is_noop g key r :
  keymap key = None ->
  key <> ord_q -> key <> ord_Q -> key <> ord_s -> key <> ord_S ->
  key <> ord_n -> key <> ord_N ->
  exists o, handle_input g key r = Ok o /\
    game o = g /\ rng o = r /\ no_recompute (calls o) /\
    (next o = Won <-> player_pos g = goal_pos g).
Proof.
  intros Hmap H1 H2 H3 H4 H5 H6. unfold handle_input. rewrite Hmap.
  rewrite !decide_False by tauto.
  eexists. split; [done|]. rewrite check_win_game, check_win_rng.
  split_and!; try done.
  - unfold check_win. case_decide; simpl; by repeat constructor.
  - unfold check_win. case_decide; simpl; split; done.
Qed.

Lemma unbound_key_is_noop_witness :
  exists o, handle_input game5 32 seed0 = Ok o /\
    game o = game5 /\ rng o = seed0 /\ no_recompute (calls o) /\
    (next o = Won <-> player_pos game5 = goal_pos game5).
Proof. apply (unbound_key_is_noop game5 32 seed0); by vm_compute. Defined.

(** ** What [draw] shows *)

Lemma shown_app ops1 ops2 y x cur :
  shown (ops1 ++ ops2) y x cur = shown ops2 y x (shown ops1 y x cur).
Proof.
  revert cur. induction ops1 as [|op ops1 IH]; intros cur; [done|].
  destruct op; simpl; apply IH.
Qed.

Lemma draw_row_shown m y0 xs ops :
  draw_row m y0 xs = Ok ops -> 0 <= y0 -> Forall (fun x => 0 <= x) xs ->
  forall y x cur,
    shown ops y x cur =
      if decide (y = y0 /\ x ∈ xs)
      then Some (if decide (cell_at (grid m) x y0 = Some 1) then "█" else " ")
      else cur.
Proof.
  intros Hdraw Hy0. revert ops Hdraw.
  induction xs as [|x0 xs IH]; intros ops Hdraw Hxs y x cur.
  { injection Hdraw as <-. simpl. rewrite (decide_False (P := _ /\ _)); [done|].
    intros [_ ?%elem_of_nil]. done. }
  simpl in Hdraw. apply Forall_cons in Hxs as [Hx0 Hxs].
  apply bind_Ok in Hdraw as (v & Hv & Hdraw).
  apply bind_Ok in Hdraw as (rest & Hrest & [= <-]).
  simpl. rewrite (IH rest Hrest Hxs).
  simpl in Hx0. rewrite grid_get_cell_at in Hv by lia.
  destruct (cell_at (grid m) x0 y0) as [v'|] eqn:Hc; [|done].
  injection Hv as ->.
  destruct (decide (y = y0 /\ x ∈ xs)) as [[-> Hin]|Hnot].
  - rewrite (decide_True (P := _ /\ _)); [done|]. split; [done|]. by right.
  - destruct (decide (y0 = y /\ x0 = x)) as [[-> ->]|Hne].
    + rewrite (decide_True (P := _ /\ _)) by (split; [done|by left]). rewrite Hc.
      destruct (decide (v = 1)), (decide (Some v = Some 1)); congruence.
    + rewrite (decide_False (P := _ /\ _)); [done|].
      intros [-> [->|Hin]%elem_of_cons]; tauto.
Qed.

Lemma draw_rows_shown m ys ops :
  draw_rows m ys = Ok ops -> Forall (fun y => 0 <= y) ys ->
  forall y x cur,
    shown ops y x cur =
      if decide (y ∈ ys /\ 0 <= x < width m)
      then Some (if decide (cell_at (grid m) x y = Some 1) then "█" else " ")
      else cur.
Proof.
  revert ops. induction ys as [|y0 ys IH]; intros ops Hdraw Hys y x cur.
  { injection Hdraw as <-. cbn [shown]. rewrite (decide_False (P := _ /\ _)); [done|].
    intros [?%elem_of_nil _]. done. }
  simpl in Hdraw. apply Forall_cons in Hys as [Hy0 Hys].
  apply bind_Ok in Hdraw as (row & Hrow & Hdraw).
  apply bind_Ok in Hdraw as (rest & Hrest & [= <-]).
  rewrite shown_app, (IH rest Hrest Hys).
  rewrite (draw_row_shown _ _ _ _ Hrow Hy0); cycle 1.
  { apply Forall_forall. intros x' Hx'%elem_of_seqZ. lia. }
  destruct (decide (y ∈ ys /\ 0 <= x < width m)) as [[Hin Hx]|Hnot].
  - rewrite (decide_True (P := _ /\ _)); [done|]. split; [by right|done].
  - destruct (decide (y = y0 /\ x ∈ seqZ 0 (width m))) as [[-> Hx]|Hne].
    + apply elem_of_seqZ in Hx. rewrite (decide_True (P := _ /\ _)); [done|].
      split; [by left|lia].
    + rewrite (decide_False (P := _ /\ _)); [done|]. intros [[->|Hin]%elem_of_cons Hx].
      * apply Hne. split; [done|]. apply elem_of_seqZ. lia.
      * tauto.
Qed.

Lemma draw_row_total m y xs :
  wf_maze m -> 0 <= y < height m ->
  Forall (fun x => 0 <= x < width m) xs ->
  exists ops, draw_row m y xs = Ok ops.
Proof.
  intros Hwf Hy. induction xs as [|x xs IH]; intros Hxs; [by eexists|].
  apply Forall_cons in Hxs as [Hx Hxs]. destruct (IH Hxs) as (rest & Hrest).
  destruct (grid_get_in _ _ _ x y Hwf Hx Hy) as (v & Hv & _).
  simpl. rewrite Hv, result_bind_Ok, Hrest, result_bind_Ok. by eexists.
Qed.

Lemma draw_rows_total m ys :
  wf_maze m -> Forall (fun y => 0 <= y < height m) ys ->
  exists ops, draw_rows m ys = Ok ops.
Proof.
  intros Hwf. induction ys as [|y ys IH]; intros Hys; [by eexists|].
  apply Forall_cons in Hys as [Hy Hys]. destruct (IH Hys) as (rest & Hrest).
  destruct (draw_row_total m y (seqZ 0 (width m)) Hwf Hy) as (row & Hrow).
  { apply Forall_forall. intros x Hx%elem_of_seqZ. lia. }
  simpl. rewrite Hrow, result_bind_Ok, Hrest, result_bind_Ok. by eexists.
Qed.

Lemma draw_path_shown player goal p y x cur :
  shown (draw_path player goal p) y x cur =
    if decide ((x, y) ∈ p /\ (x, y) <> player /\ (x, y) <> goal)
    then Some "." else cur.
Proof.
  revert cur. induction p as [|[px py] p IH]; intros cur.
  { cbn [shown draw_path]. rewrite (decide_False (P := _ /\ _)); [done|].
    intros [?%elem_of_nil _]. done. }
  simpl. destruct (decide ((px, py) <> player /\ (px, py) <> goal)) as [Hok|Hno].
  - simpl. rewrite IH.
    destruct (decide ((x, y) ∈ p /\ (x, y) <> player /\ (x, y) <> goal))
      as [[Hin Hne]|Hnot].
    + rewrite (decide_True (P := _ /\ _)); [done|]. split; [by right|done].
    + destruct (decide (py = y /\ px = x)) as [[-> ->]|Hne].
      * rewrite (decide_True (P := _ /\ _)); [done|]. split; [by left|done].
      * rewrite (decide_False (P := _ /\ _)); [done|].
        intros [[[= -> ->]|Hin]%elem_of_cons Hne']; tauto.
  - rewrite IH.
    destruct (decide ((x, y) ∈ p /\ (x, y) <> player /\ (x, y) <> goal))
      as [[Hin Hne]|Hnot].
    + rewrite (decide_True (P := _ /\ _)); [done|]. split; [by right|done].
    + rewrite (decide_False (P := _ /\ _)); [done|].
      intros [[[= -> ->]|Hin]%elem_of_cons Hne']; tauto.
Qed.

Lemma draw_instructions_shown off y x cur :
  y < off -> shown (draw_instructions off) y x cur = cur.
Proof.
  intros Hy. unfold draw_instructions, instructions. simpl.
  repeat (rewrite decide_False by lia). done.
Qed.

(** X15: on a well-formed grid [draw] makes its calls without an
    exception, first [clear] and last [refresh], and the character it
    leaves on a cell of the grid is: X on the goal; otherwise @ on the
    player; otherwise a dot when the solution is shown and the cell is
    on the cached path; otherwise a block for a cell holding 1 and a
    space for any other cell. *)
Theorem draw_shows g :
  wf_maze (maze g) ->
  exists ops, draw g = Ok ops /\
    head ops = Some Clear /\ last ops = Some Refresh /\
    forall x y cur, in_grid (maze g) (x, y) ->
      shown ops y x cur = Some (glyph g (x, y)).
Proof.
  intros Hwf.
  destruct (draw_rows_total (maze g) (seqZ 0 (height (maze g))) Hwf)
    as (cells & Hcells).
  { apply Forall_forall. intros y Hy%elem_of_seqZ. lia. }
  unfold draw. rewrite Hcells, result_bind_Ok.
  eexists. split; [done|]. split; [done|]. split.
  { rewrite !app_assoc. apply last_snoc. }
  intros x y cur [Hx Hy]. simpl in Hx, Hy.
  change ([Clear] ++ cells ++ ?rest) with (Clear :: (cells ++ rest)).
  cbn [shown]. rewrite !shown_app.
  rewrite (draw_rows_shown _ _ _ Hcells); cycle 1.
  { apply Forall_forall. intros y' Hy'%elem_of_seqZ. lia. }
  rewrite decide_True by (split; [apply elem_of_seqZ; lia|done]).
  rewrite draw_instructions_shown by lia. cbn [shown].
  unfold glyph.
  match goal with |- context [@decide (_ = goal_pos g) ?d] =>
    destruct d as [Hg|Hg] end.
  { rewrite (decide_True (P := (goal_pos g).2 = y /\ _)); [done|]. by rewrite <-Hg. }
  rewrite (decide_False (P := (goal_pos g).2 = y /\ _)); cycle 1.
  { intros [? ?]. apply Hg. destruct (goal_pos g). simpl in *. congruence. }
  match goal with |- context [@decide (_ = player_pos g) ?d] =>
    destruct d as [Hp|Hp] end.
  { rewrite (decide_True (P := (player_pos g).2 = y /\ _)); [done|]. by rewrite <-Hp. }
  rewrite (decide_False (P := (player_pos g).2 = y /\ _)); cycle 1.
  { intros [? ?]. apply Hp. destruct (player_pos g). simpl in *. congruence. }
  destruct (show_solution g) eqn:Hshow; cbn [andb].
  - case_bool_decide as Hne.
    + rewrite draw_path_shown.
      destruct (decide ((x, y) ∈ solution_path g)) as [Hin|Hin].
      * rewrite (decide_True (P := (x, y) ∈ _ /\ _)) by done.
        rewrite (decide_True (P := true = true /\ _)); done.
      * rewrite (decide_False (P := (x, y) ∈ _ /\ _)) by tauto.
        rewrite (decide_False (P := true = true /\ _)); [done|tauto].
    + rewrite Hne. cbn [shown]. rewrite (decide_False (P := true = true /\ _)); [done|].
      intros [_ ?%elem_of_nil]. done.
  - cbn [shown]. rewrite (decide_False (P := false = true /\ _)); [done|].
    by intros [? _].
Qed.

Lemma draw_shows_witness :
  exists ops, draw game5 = Ok ops /\
    head ops = Some Clear /\ last ops = Some Refresh /\
    forall x y cur, in_grid (maze game5) (x, y) ->
      shown ops y x cur = Some (glyph game5 (x, y)).
Proof.
  apply (draw_shows game5). apply (bool_decide_unpack _). by vm_compute.
Defined.

(** ** The win message and whole runs *)

(** X16: every line of the win message is written at a column that is
    never negative, on the middle row of the maze or the row below it;
    when the window is at least as wide as the line, the line ends inside
    the window and the margins on its two sides differ by at most one
    column. *)
Theorem win_message_centred g max_x y x text :
  AddStr y x text ∈ _show_win_message g max_x ->
  0 <= x /\
  height (maze g) `div` 2 <= y <= height (maze g) `div` 2 + 1 /\
  (Z.of_nat (String.length text) <= max_x ->
     x + Z.of_nat (String.length text) <= max_x /\
     0 <= (max_x - (x + Z.of_nat (String.length text))) - x <= 1).
Proof.
  unfold _show_win_message, message_lines. simpl.
  rewrite !elem_of_cons, elem_of_nil.
  intros [[=]|[[= -> -> ->]|[[= -> -> ->]|[[=]|[]]]]]; simpl String.length; zlia.
Qed.

Lemma win_message_centred_witness :
  0 <= 18 /\
  height (maze game5) `div` 2 <= 2 <= height (maze game5) `div` 2 + 1 /\
  (Z.of_nat (String.length "Congratulations! You've completed the maze.") <= 80 ->
     18 + Z.of_nat (String.length "Congratulations! You've completed the maze.") <= 80 /\
     0 <= (80 - (18 + Z.of_nat (String.length "Congratulations! You've completed the maze."))) - 18 <= 1).
Proof.
  apply (win_message_centred game5 80 2 18
           "Congratulations! You've completed the maze.").
  unfold _show_win_message. simpl. set_solver.
Defined.

Lemma play_reachable w h keys ph g r :
  3 <= odd_round w -> 3 <= odd_round h ->
  reachable_state w h ph g r ->
  exists ph' g' r', play keys ph g r = Ok (ph', g', r') /\
    reachable_state w h ph' g' r'.
Proof.
  intros Hw Hh. revert ph g r.
  induction keys as [|key keys IH]; intros ph g r Hreach; [by eexists _, _, _|].
  destruct (reachable_state_full w h ph g r Hw Hh Hreach) as [Hinv Hph].
  destruct (key_step_state w h ph g key r Hw Hh Hinv Hph) as (o & Hstep & _).
  destruct (IH (next o) (game o) (rng o)) as (ph' & g' & r' & Hplay & Hreach').
  { by eapply reach_key. }
  destruct ph.
  - exists ph', g', r'. split; [|done]. cbn [play]. by rewrite Hstep, result_bind_Ok.
  - exists ph', g', r'. split; [|done]. cbn [play]. by rewrite Hstep, result_bind_Ok.
  - by exists Quit, g, r.
Qed.

(** X17: the game that [main] runs never raises from the game's own
    code (the calls into curses aside), whatever the random draws and
    whatever keys are pressed: after any sequence of keys the game holds
    a 21 by 21 perfect maze, the player stands on a passage cell inside the
    border, the goal is the cell (19, 19), and the cached path is a
    shortest path from the player to the goal. *)
Theorem main_game_never_raises r keys :
  exists ph g r', main r keys = Ok (ph, g, r') /\
    width (maze g) = 21 /\ height (maze g) = 21 /\
    unique_paths (passage (maze g)) /\
    passage (maze g) (player_pos g) /\ interior (maze g) (player_pos g) /\
    goal_pos g = (19, 19) /\
    path (passage (maze g)) (player_pos g) (goal_pos g) (solution_path g) /\
    shortest_distance (maze g) (player_pos g) (goal_pos g)
      (pred (length (solution_path g))).
Proof.
  assert (3 <= odd_round 21) as Hw by (by vm_compute).
  destruct (MazeGame_init_state 21 21 r Hw Hw) as (g0 & r0 & cs & Hinit & _).
  destruct (play_reachable 21 21 keys Playing g0 r0 Hw Hw) as (ph & g & r' & Hplay & Hreach).
  { by eapply reach_init. }
  destruct (reachable_state_full 21 21 ph g r' Hw Hw Hreach) as [Hinv _].
  exists ph, g, r'. split.
  { unfold main. by rewrite Hinit, result_bind_Ok. }
  pose proof (sv_width _ _ _ Hinv) as Hwid. pose proof (sv_height _ _ _ Hinv) as Hhei.
  split_and!; try done.
  - apply (gi_tree _ (sv_gen _ _ _ Hinv)).
  - apply (sv_player _ _ _ Hinv).
  - apply (gi_interior _ (sv_gen _ _ _ Hinv)), (sv_player _ _ _ Hinv).
  - rewrite (sv_goal _ _ _ Hinv), Hwid, Hhei. done.
  - apply (sv_path _ _ _ Hinv).
  - apply (sv_short _ _ _ Hinv).
Qed.

(** X18: in a generated maze the solver finds, for any two passage
    cells, the one simple path between them: the computation never
    raises and its result repeats no cell, is shortest, and equals every
    simple path between the two cells. *)
Theorem solution_in_generated_maze w h r :
  3 <= odd_round w -> 3 <= odd_round h ->
  exists m r', Maze_init w h r = Ok (m, r') /\
    forall a b, passage m a -> passage m b ->
      exists p cs, compute_solution m a b = Ok (p, cs) /\
        simple_path (passage m) a b p /\
        shortest_distance m a b (pred (length p)) /\
        forall q, simple_path (passage m) a b q -> q = p.
Proof.
  intros Hw Hh.
  destruct (Maze_init_inv w h r Hw Hh) as (m & r' & Hinit & Hinv & _).
  exists m, r'. split; [done|]. intros a b Ha Hb.
  destruct (compute_solution_shortest m a b (gi_wf _ Hinv) Ha)
    as (p & cs & Hsol & _ & Hyes).
  destruct Hyes as [Hp Hshort]; [by apply tree_reachable|].
  exists p, cs. split_and!; try done.
  - by apply shortest_path_simple.
  - intros q Hq. destruct (gi_tree _ Hinv a b Ha Hb) as (p0 & _ & Huniq).
    rewrite (Huniq q Hq). symmetry. apply Huniq. by apply shortest_path_simple.
Qed.

Lemma solution_in_generated_maze_witness :
  exists m r', Maze_init 7 5 seed0 = Ok (m, r') /\
    forall a b, passage m a -> passage m b ->
      exists p cs, compute_solution m a b = Ok (p, cs) /\
        simple_path (passage m) a b p /\
        shortest_distance m a b (pred (length p)) /\
        forall q, simple_path (passage m) a b q -> q = p.
Proof. apply (solution_in_generated_maze 7 5 seed0); by vm_compute. Defined.

(** X13: the win loop waits for [n] or [q]: every other key pressed
    after a win, the arrow keys and [s] included, leaves the game and
    the random generator exactly as they are; a [q] (or [Q]) after such
    keys ends the program with the game unchanged, and no later key is
    read. *)
Theorem win_loop_run g r keys :
  Forall (fun key => key <> ord_q /\ key <> ord_Q /\ key <> ord_n /\ key <> ord_N)
         keys ->
  play keys Won g r = Ok (Won, g, r) /\
  forall key rest, key = ord_q \/ key = ord_Q ->
    play (keys ++ key :: rest) Won g r = Ok (Quit, g, r).
Proof.
  induction 1 as [|k keys (H1 & H2 & H3 & H4) _ [IH1 IH2]].
  - split; [done|]. intros key rest Hkey. cbn [app play key_step].
    unfold handle_win_input. rewrite decide_True by done.
    rewrite result_bind_Ok. by destruct rest.
  - assert (key_step Won g k r
            = Ok {| game := g; rng := r; next := Won; calls := [] |}) as Hstep.
    { cbn [key_step]. unfold handle_win_input. by rewrite !decide_False by tauto. }
    split.
    + cbn [play]. by rewrite Hstep, result_bind_Ok.
    + intros key rest Hkey. rewrite <- app_comm_cons. cbn [play].
      rewrite Hstep, result_bind_Ok. by apply IH2.
Qed.

Lemma win_loop_run_witness :
  play [KEY_LEFT; ord_s; 32] Won game3 seed0_after3
    = Ok (Won, game3, seed0_after3) /\
  forall key rest, key = ord_q \/ key = ord_Q ->
    play ([KEY_LEFT; ord_s; 32] ++ key :: rest) Won game3 seed0_after3
      = Ok (Quit, game3, seed0_after3).
Proof.
  apply (win_loop_run game3 seed0_after3 [KEY_LEFT; ord_s; 32]).
  repeat constructor; by vm_compute.
Defined.
